(** * olane-go: logical addresses, resolution and dispatch of the core node

    A shallow embedding of [pkg/core/address.go], [pkg/core/types.go] and the
    core node ([CoreNode]) of olane-go, with the properties of the address
    model, the resolver chain, static alias translation, the transport
    locator, dispatch and the lifecycle.

    Address objects are Go pointers ([*OAddress]): they live in a store and
    may be aliased, and their transport slice points to a backing array of
    that store.  Code that runs against the store, the node's guarded fields
    and the external collaborators is written in a state monad that can also
    panic (nil dereference, failed type assertion).

    The collaborators (connection manager, connections, host, resolvers) are
    functions on a state of their own.  They read the store and do not
    write to it; a resolver that matches returns the pointer it was given
    or a new address; a send that succeeds returns a response.  The
    [context.Context] of a call is handed on to them unchanged and is left
    out.  [Use] reaches itself through static translation: it is defined
    with fuel, and two levels are shown to be all there are. *)

From stdpp Require Import gmap strings list fin_maps.
From Stdlib Require Import ZArith String Ascii Lia.

Set Warnings "-register-all".
Local Open Scope string_scope.
Local Open Scope Z_scope.

(* ===================================================================== *)
(** ** Go's [strings] and [fmt] functions used by the code                *)
(* ===================================================================== *)

Module strings.

(** [strings.HasPrefix(s, prefix)] *)
Definition HasPrefix (s prefix : string) : bool := String.prefix prefix s.

(** [strings.HasSuffix(s, suffix)]:
    [len(s) >= len(suffix) && s[len(s)-len(suffix):] == suffix] *)
Definition HasSuffix (s suffix : string) : bool :=
  (String.length suffix <=? String.length s)%nat &&
  String.eqb
    (String.substring (String.length s - String.length suffix)
                      (String.length suffix) s)
    suffix.

(** [strings.TrimPrefix(s, prefix)] *)
Definition TrimPrefix (s prefix : string) : string :=
  if HasPrefix s prefix
  then String.substring (String.length prefix)
                        (String.length s - String.length prefix) s
  else s.

(** [strings.Split(s, sep)] for a separator of one byte (the code only
    splits on ["/"]).  The result is never empty: a string without the
    separator, the empty string included, gives one element. *)
Fixpoint SplitByte (s : string) (sep : ascii) : list string :=
  match s with
  | EmptyString => [EmptyString]
  | String c s' =>
      if Ascii.eqb c sep then EmptyString :: SplitByte s' sep
      else match SplitByte s' sep with
           | x :: xs => String c x :: xs
           | [] => [String c EmptyString]
           end
  end.

(** [strings.Join(elems, sep)] *)
Fixpoint Join (elems : list string) (sep : string) : string :=
  match elems with
  | [] => ""
  | [x] => x
  | x :: xs => x ++ sep ++ Join xs sep
  end.

End strings.

Definition slash : ascii := "/"%char.

(** [fmt.Sprintf("%s/%s", a, b)] *)
Definition Sprintf_s_slash_s (a b : string) : string := a ++ "/" ++ b.

(** Errors are carried by their message; [fmt.Errorf("ctx: %w", err)]
    prefixes the message of [err]. *)
Definition error := string.

Inductive result (A : Type) : Type :=
| Ok (a : A)
| Err (e : error).
Arguments Ok {A} a.
Arguments Err {A} e.

Definition is_ok {A} (r : result A) : bool :=
  match r with Ok _ => true | Err _ => false end.

(** [int64] arithmetic wraps around. *)
Definition wrap64 (z : Z) : Z := (z + 2 ^ 63) mod 2 ^ 64 - 2 ^ 63.

(* ===================================================================== *)
(** ** The transport substrate                                             *)
(* ===================================================================== *)

(** What the code takes from go-multiaddr and from the peer-to-peer stack:
    the type of structured endpoints with its printer and parser, and the
    state of the external collaborators (host, connections, registry,
    resolvers), which only they read and change. *)
Class Substrate := {
  Multiaddr : Type;
  ma_String : Multiaddr → string;         (* [ma.String()] *)
  NewMultiaddr : string → result Multiaddr; (* [multiaddr.NewMultiaddr(s)] *)
  Ext : Type;
}.

(** Dynamic values ([interface{}]) as they occur in parameters and in
    decoded responses. *)
Inductive Any : Type :=
| ANil
| ABool (b : bool)
| ANum (z : Z)
| AStr (s : string)
| AStrs (l : list string)              (* []string *)
| AList (l : list Any)                 (* []interface{} *)
| AMap (m : list (string * Any)).      (* map[string]interface{} *)

(** [m[key]] on a [map[string]interface{}]: [nil] when the key is absent. *)
Fixpoint map_index (m : list (string * Any)) (key : string) : Any :=
  match m with
  | [] => ANil
  | (k, v) :: m' => if String.eqb k key then v else map_index m' key
  end.

Definition loc := positive.

Section Model.
Context `{Sub : Substrate}.

(* ===================================================================== *)
(** ** address.go: the data model                                          *)
(* ===================================================================== *)

(** An element of [transports []interface{}]: a [multiaddr.Multiaddr], a
    [string], or a value of some other dynamic type (which every reader of
    the list skips). *)
Inductive Transport : Type :=
| TMultiaddr (ma : Multiaddr)
| TString (s : string)
| TOther (v : Any).

(** A slice of transports is its backing array ([None] is the nil slice);
    every slice the code stores spans its whole array. *)
Definition Slice := option loc.

Record OAddress := mkOAddress {
  value : string;
  transports : Slice;
}.

Record Heap := mkHeap {
  objs : gmap loc OAddress;            (* the [OAddress] structs *)
  arrs : gmap loc (list Transport);    (* the backing arrays *)
}.

(* ===================================================================== *)
(** ** types.go: states, types, requests and responses                     *)
(* ===================================================================== *)

Inductive NodeState :=
| NodeStateStarting | NodeStateRunning | NodeStateStopping
| NodeStateStopped | NodeStateError.

Definition NodeState_eqb (a b : NodeState) : bool :=
  match a, b with
  | NodeStateStarting, NodeStateStarting
  | NodeStateRunning, NodeStateRunning
  | NodeStateStopping, NodeStateStopping
  | NodeStateStopped, NodeStateStopped
  | NodeStateError, NodeStateError => true
  | _, _ => false
  end.

Definition NodeType := string.
Definition NodeTypeLeader : NodeType := "leader".
Definition NodeTypeRoot : NodeType := "root".
Definition NodeTypeNode : NodeType := "node".
Definition NodeTypeTool : NodeType := "tool".
Definition NodeTypeAgent : NodeType := "agent".
Definition NodeTypeHuman : NodeType := "human".
Definition NodeTypeUnknown : NodeType := "unknown".

Record OError := mkOError {
  oe_Code : Z;
  oe_Message : string;
  oe_Data : Any;
}.

Record OResponse := mkOResponse {
  resp_ID : string;
  resp_Result : Any;
  resp_Error : option OError;
}.

Record UseOptions := mkUseOptions {
  NoIndex : bool;
  Timeout : Z;
}.

Definition DefaultUseOptions : UseOptions :=
  {| NoIndex := false; Timeout := 30 |}.

Record ConnectionSendParams := mkSendParams {
  sp_Address : string;
  sp_Payload : list (string * Any);
}.

Record ConnectionParams := mkConnectionParams {
  cp_Address : loc;
  cp_NextHopAddress : loc;
  cp_CallerAddress : loc;
}.

Record TranslateAddressResult := mkTranslateAddressResult {
  NextHopAddress : loc;
  TargetAddress : loc;
}.

(** The interfaces consumed from the substrate.  A collaborator reads the
    store and owns the external state; it does not write to the store or to
    the node. *)
Record Connection := mkConnection {
  conn_Send : ConnectionSendParams → Ext → result OResponse * Ext;
  conn_Close : Ext → Ext;
}.

Record ConnectionManager := mkConnectionManager {
  cm_Connect : ConnectionParams → Heap → Ext → result Connection * Ext;
}.

Record Host := mkHost {
  host_Addrs : Ext → list Multiaddr;
  host_Close : Ext → option error * Ext;
}.

(** What an implementation of [AddressResolver.Resolve] hands back: an error
    (no match), the very pointer it was given, or a newly built address. *)
Inductive Resolved :=
| ResolveErr (e : error)
| ResolveSame
| ResolveNew (v : string) (ts : list Transport).

Record ExternalResolver := mkExternalResolver {
  xr_Resolve : loc → Heap → Ext → Resolved * Ext;
  xr_SupportsTransport : loc → Heap → Ext → bool;
}.

Record CoreConfig := mkCoreConfig {
  cfg_Address : loc;
  cfg_Leader : option loc;
  cfg_Parent : option loc;
  cfg_Type : NodeType;
  cfg_Name : string;
  cfg_Description : string;
}.

(** The fields of [CoreNode] that never change after construction. *)
Record CoreNode := mkCoreNode {
  p2pNode : option Host;
  address : loc;
  staticAddress : loc;
  peerId : string;
  connectionManager : option ConnectionManager;
  addressResolution : list ExternalResolver;
  config : CoreConfig;
}.

(** The fields of [CoreNode] guarded by [mu]. *)
Record NodeVars := mkNodeVars {
  state : NodeState;
  errors : list error;
  successCount : Z;
  errorCount : Z;
}.

Inductive Level := LDebug | LInfo | LWarn | LError.

(** What the node does to the outside, in order: logger calls and calls of
    the collaborators. *)
Inductive Event :=
| EvLog (lvl : Level) (msg : string)
| EvResolve (a : loc)
| EvConnect (params : ConnectionParams)
| EvSend (params : ConnectionSendParams)
| EvConnClose
| EvHostClose.

Record World := mkWorld {
  heap : Heap;
  vars : NodeVars;
  ext : Ext;
  events : list Event;
}.

(* ===================================================================== *)
(** ** The monad of the code                                               *)
(* ===================================================================== *)

Inductive outcome (A : Type) : Type :=
| Done (a : A) (w : World)
| Panic (msg : string)
| OutOfFuel.
#[local] Arguments Done {A} a w.
#[local] Arguments Panic {A} msg.
#[local] Arguments OutOfFuel {A}.

Definition M (A : Type) : Type := World → outcome A.

Definition ret {A} (a : A) : M A := fun w => Done a w.

Definition bind {A B} (m : M A) (k : A → M B) : M B :=
  fun w => match m w with
           | Done a w' => k a w'
           | Panic msg => Panic msg
           | OutOfFuel => OutOfFuel
           end.

Definition panic {A} (msg : string) : M A := fun _ => Panic msg.
Definition out_of_fuel {A} : M A := fun _ => OutOfFuel.

Definition get_heap : M Heap := fun w => Done (heap w) w.
Definition put_heap (h : Heap) : M unit :=
  fun w => Done tt {| heap := h; vars := vars w; ext := ext w; events := events w |}.
Definition get_vars : M NodeVars := fun w => Done (vars w) w.
Definition put_vars (v : NodeVars) : M unit :=
  fun w => Done tt {| heap := heap w; vars := v; ext := ext w; events := events w |}.
Definition get_ext : M Ext := fun w => Done (ext w) w.
Definition put_ext (x : Ext) : M unit :=
  fun w => Done tt {| heap := heap w; vars := vars w; ext := x; events := events w |}.
Definition emit (e : Event) : M unit :=
  fun w => Done tt {| heap := heap w; vars := vars w; ext := ext w;
                      events := events w ++ [e] |}.

End Model.

Arguments Done {Sub A} a w.
Arguments Panic {Sub A} msg.
Arguments OutOfFuel {Sub A}.

Declare Scope go_scope.
Delimit Scope go_scope with go.
Notation "'let*' x ':=' m 'in' k" := (bind m (fun x => k))
  (at level 10, x name, m at level 100, k at level 200) : go_scope.
Notation "'run' m 'in' k" := (bind m (fun _ => k))
  (at level 10, m at level 100, k at level 200) : go_scope.

Local Open Scope go_scope.

Section Address.
Context `{Sub : Substrate}.

(* ===================================================================== *)
(** ** The store                                                           *)
(* ===================================================================== *)

(** Dereference of an address pointer; a pointer to nothing is Go's nil. *)
Definition deref (a : loc) : M OAddress :=
  fun w => match objs (heap w) !! a with
           | Some o => Done o w
           | None => Panic "invalid memory address or nil pointer dereference"
           end.

(** The elements of a slice, in order. *)
Definition slice_elems (h : Heap) (s : Slice) : option (list Transport) :=
  match s with
  | None => Some []
  | Some l => arrs h !! l
  end.

Definition read_slice (s : Slice) : M (list Transport) :=
  fun w => match slice_elems (heap w) s with
           | Some ts => Done ts w
           | None => Panic "invalid memory address or nil pointer dereference"
           end.

(** [make([]interface{}, len(ts))] filled with [ts]: a new backing array. *)
Definition make_slice (ts : list Transport) : M Slice :=
  let* h := get_heap in
  let l := fresh (dom (arrs h)) in
  run put_heap {| objs := objs h; arrs := <[l := ts]> (arrs h) |} in
  ret (Some l).

(** [&OAddress{...}]: a new struct. *)
Definition new_object (o : OAddress) : M loc :=
  let* h := get_heap in
  let l := fresh (dom (objs h)) in
  run put_heap {| objs := <[l := o]> (objs h); arrs := arrs h |} in
  ret l.

(** Assignment to the fields of [*a]. *)
Definition store (a : loc) (o : OAddress) : M unit :=
  let* _ := deref a in
  let* h := get_heap in
  put_heap {| objs := <[a := o]> (objs h); arrs := arrs h |}.

(** The transports of [*a], read through its slice. *)
Definition transports_of (a : loc) : M (list Transport) :=
  let* o := deref a in
  read_slice (transports o).

(* ===================================================================== *)
(** ** address.go: the operations                                          *)
(* ===================================================================== *)

(** [NewOAddress(value, transports...)] with the variadic slice passed as
    it is (the callee stores the caller's slice). *)
Definition NewOAddress (v : string) (ts : Slice) : M loc :=
  new_object {| value := v; transports := ts |}.

(** [NewOAddress(value, t1, ..., tn)] with the arguments listed: Go builds
    the variadic slice, nil when there is none. *)
Definition NewOAddress_of (v : string) (ts : list Transport) : M loc :=
  match ts with
  | [] => NewOAddress v None
  | _ => let* s := make_slice ts in NewOAddress v s
  end.

Definition Value (a : loc) : M string :=
  let* o := deref a in ret (value o).

Definition SetTransports (a : loc) (ts : list Multiaddr) : M unit :=
  let* o := deref a in
  let* s := make_slice (map TMultiaddr ts) in
  store a {| value := value o; transports := s |}.

Definition SetTransportsFromStrings (a : loc) (ts : list string) : M unit :=
  let* o := deref a in
  let* s := make_slice (map TString ts) in
  store a {| value := value o; transports := s |}.

Fixpoint libp2p_of (ts : list Transport) : list Multiaddr :=
  match ts with
  | [] => []
  | TMultiaddr ma :: ts' => ma :: libp2p_of ts'
  | _ :: ts' => libp2p_of ts'
  end.

Fixpoint custom_of (ts : list Transport) : list string :=
  match ts with
  | [] => []
  | TString s :: ts' => s :: custom_of ts'
  | _ :: ts' => custom_of ts'
  end.

Fixpoint all_of (ts : list Transport) : list string :=
  match ts with
  | [] => []
  | TMultiaddr ma :: ts' => ma_String ma :: all_of ts'
  | TString s :: ts' => s :: all_of ts'
  | TOther _ :: ts' => all_of ts'
  end.

Definition LibP2PTransports (a : loc) : M (list Multiaddr) :=
  let* ts := transports_of a in ret (libp2p_of ts).

Definition CustomTransports (a : loc) : M (list string) :=
  let* ts := transports_of a in ret (custom_of ts).

Definition AllTransports (a : loc) : M (list string) :=
  let* ts := transports_of a in ret (all_of ts).

(** The methods that only read [addr.value], on the value. *)
Definition validate_value (v : string) : bool := strings.HasPrefix v "o://".

Definition paths_value (v : string) : string := strings.TrimPrefix v "o://".

Definition root_value (v : string) : string :=
  let paths := paths_value v in
  if String.eqb paths "" then v
  else match strings.SplitByte paths slash with
       | [] => v
       | part0 :: _ => "o://" ++ part0
       end.

Definition split_value (v : string) : list string :=
  let paths := paths_value v in
  if String.eqb paths "" then [] else strings.SplitByte paths slash.

Definition with_path_value (v path : string) : string :=
  let newValue := v in
  let newValue :=
    if negb (strings.HasSuffix newValue "/") && negb (strings.HasPrefix path "/")
    then newValue ++ "/" else newValue in
  newValue ++ path.

Definition Validate (a : loc) : M bool := let* o := deref a in ret (validate_value (value o)).
Definition Paths (a : loc) : M string := let* o := deref a in ret (paths_value (value o)).
Definition Root (a : loc) : M string := let* o := deref a in ret (root_value (value o)).
Definition String_ (a : loc) : M string := let* o := deref a in ret (value o).
Definition SplitAddress (a : loc) : M (list string) :=
  let* o := deref a in ret (split_value (value o)).
Definition HasPrefix (a : loc) (prefix : string) : M bool :=
  let* o := deref a in ret (strings.HasPrefix (value o) prefix).
Definition Equals (a other : loc) : M bool :=
  let* o := deref a in let* o' := deref other in ret (String.eqb (value o) (value o')).
Definition IsLeaderAddress (a : loc) : M bool := HasPrefix a "o://leader".

(** [WithPath]: the new address takes the receiver's slice as its variadic
    argument. *)
Definition WithPath (a : loc) (path : string) : M loc :=
  let* o := deref a in
  NewOAddress (with_path_value (value o) path) (transports o).

Definition WithTransports (a : loc) (ts : Slice) : M loc :=
  let* o := deref a in
  NewOAddress (value o) ts.

Definition Clone (a : loc) : M loc :=
  let* o := deref a in
  let* ts := read_slice (transports o) in   (* len(addr.transports), copy *)
  let* s := make_slice ts in
  new_object {| value := value o; transports := s |}.

Definition ChildAddress (parent child : loc) : M loc :=
  let* parentPath := Paths parent in
  let* childPath := Paths child in
  if negb (String.eqb parentPath "")
  then NewOAddress ("o://" ++ Sprintf_s_slash_s parentPath childPath) None
  else (let* ps := String_ parent in NewOAddress (Sprintf_s_slash_s ps childPath) None).

End Address.

Section Resolution.
Context `{Sub : Substrate}.

(* ===================================================================== *)
(** ** types.go: the resolver chain                                        *)
(* ===================================================================== *)

(** The interface [AddressResolver]. *)
Record AddressResolver := mkAddressResolver {
  ar_Resolve : loc → M (result loc);
  ar_SupportsTransport : loc → M bool;
}.

(** [AddressResolution.Resolve]: the loop over [ar.resolvers], then the
    fall-through [return address, nil]. *)
Fixpoint Resolve (resolvers : list AddressResolver) (address : loc)
  : M (result loc) :=
  match resolvers with
  | [] => ret (Ok address)
  | resolver :: rest =>
      let* r := ar_Resolve resolver address in
      match r with
      | Ok resolved => ret (Ok resolved)
      | Err _ => Resolve rest address
      end
  end.


(** A resolver of the substrate as an [AddressResolver] of the node. *)
Definition external_resolver (r : ExternalResolver) : AddressResolver :=
  {| ar_Resolve := fun a =>
       run emit (EvResolve a) in
       let* h := get_heap in
       let* x := get_ext in
       let res := xr_Resolve r a h x in
       run put_ext (snd res) in
       match fst res with
       | ResolveErr e => ret (Err e)
       | ResolveSame => ret (Ok a)
       | ResolveNew v ts => let* p := NewOAddress_of v ts in ret (Ok p)
       end;
     ar_SupportsTransport := fun a =>
       let* h := get_heap in
       let* x := get_ext in
       ret (xr_SupportsTransport r a h x) |}.

End Resolution.

Section Node.
Context `{Sub : Substrate}.

(* ===================================================================== *)
(** ** The core node                                                       *)
(* ===================================================================== *)

Definition log (lvl : Level) (msg : string) : M unit := emit (EvLog lvl msg).

Definition Type_ (n : CoreNode) : NodeType :=
  if String.eqb (cfg_Type (config n)) "" then NodeTypeUnknown
  else cfg_Type (config n).

Definition State : M NodeState :=
  let* v := get_vars in ret (state v).

Definition setState (s : NodeState) : M unit :=
  let* v := get_vars in
  put_vars {| state := s; errors := errors v;
              successCount := successCount v; errorCount := errorCount v |}.

Definition Errors : M (list error) :=
  let* v := get_vars in ret (errors v).

Definition addError (err : error) : M unit :=
  let* v := get_vars in
  put_vars {| state := state v; errors := errors v ++ [err];
              successCount := successCount v; errorCount := errorCount v |}.

Definition incrementSuccessCount : M unit :=
  let* v := get_vars in
  put_vars {| state := state v; errors := errors v;
              successCount := wrap64 (successCount v + 1);
              errorCount := errorCount v |}.

Definition incrementErrorCount : M unit :=
  let* v := get_vars in
  put_vars {| state := state v; errors := errors v;
              successCount := successCount v;
              errorCount := wrap64 (errorCount v + 1) |}.

Definition Transports (n : CoreNode) : M (list string) :=
  match p2pNode n with
  | None => ret []
  | Some h => let* x := get_ext in ret (map ma_String (host_Addrs h x))
  end.

Record WhoAmIResponse := mkWhoAmIResponse {
  who_Address : string;
  who_Type : NodeType;
  who_Description : string;
  who_SuccessCount : Z;
  who_ErrorCount : Z;
  who_PeerID : string;
  who_Transports : list string;
}.

Definition WhoAmI (n : CoreNode) : M WhoAmIResponse :=
  let* a := String_ (address n) in
  let* v := get_vars in
  let* ts := Transports n in
  ret {| who_Address := a; who_Type := Type_ n;
         who_Description := cfg_Description (config n);
         who_SuccessCount := successCount v;
         who_ErrorCount := errorCount v;
         who_PeerID := peerId n;
         who_Transports := ts |}.

(** The loop [if ma, err := multiaddr.NewMultiaddr(transport); err == nil]. *)
Fixpoint parse_transports (ts : list string) : list Multiaddr :=
  match ts with
  | [] => []
  | t :: ts' => match NewMultiaddr t with
                | Ok ma => ma :: parse_transports ts'
                | Err _ => parse_transports ts'
                end
  end.

Definition GetTransports (n : CoreNode) (address : loc) : M (list Multiaddr) :=
  let* leaderTransports := LibP2PTransports address in
  if (0 <? List.length leaderTransports)%nat then ret leaderTransports
  else
    run log LDebug "No leader transports provided, searching within network" in
    match cfg_Leader (config n) with
    | None =>
        if String.eqb (Type_ n) NodeTypeLeader then
          run log LDebug "Node is a leader, using own transports" in
          let* transports := Transports n in
          ret (parse_transports transports)
        else
          run log LWarn
            "Not within a network, cannot search for addressed node without leader" in
          ret leaderTransports
    | Some leader => LibP2PTransports leader
    end.

(** The type of [Use], for the functions that call it. *)
Definition UseFn : Type :=
  loc → string → list (string * Any) → option UseOptions → M (result OResponse).

(** The second half of [HandleStaticAddressTranslation], from [if err != nil]
    on: what becomes of the answer [r] of the registry search. *)
Definition static_search_result (addressInput : loc) (r : result OResponse)
  : M (result loc) :=
  let result := addressInput in
  match r with
  | Err err =>
      run log LWarn ("Failed to search for static address: " ++ err) in
      ret (Ok result)
  | Ok response =>
      match resp_Result response with
      | ANil => ret (Ok result)
      | AMap m =>
          match map_index m "data" with
          | AList (first :: _) =>
              match first with
              | AMap firstResult =>
                  match map_index firstResult "address" with
                  | AStr resolvedAddr =>
                      let* parts := SplitAddress addressInput in
                      let resolvedAddr :=
                        if (1 <? List.length parts)%nat
                        then Sprintf_s_slash_s resolvedAddr
                               (strings.Join (drop 1 parts) "/")
                        else resolvedAddr in
                      let* all := AllTransports result in
                      let* transports := make_slice (map TString all) in
                      let* result := NewOAddress resolvedAddr transports in
                      ret (Ok result)
                  | _ => ret (Ok result)
                  end
              | _ => ret (Ok result)
              end
          | _ =>
              run log LWarn
                "Failed to translate static address - no results found" in
              ret (Ok result)
          end
      | _ =>
          (* response.Result.(map[string]interface{}) without ", ok" *)
          panic "interface conversion: interface {} is not map[string]interface {}"
      end
  end.

Definition HandleStaticAddressTranslation (use : UseFn) (addressInput : loc)
  : M (result loc) :=
  let result := addressInput in
  let* under := HasPrefix addressInput "o://leader" in
  if negb under then
    let* searchAddr := NewOAddress "o://leader/register" None in
    let* lts := LibP2PTransports result in
    run SetTransports searchAddr lts in
    let* root := Root result in
    let* r := use searchAddr "search" [("staticAddress", AStr root)]
                  (Some {| NoIndex := true; Timeout := 0 |}) in
    static_search_result addressInput r
  else ret (Ok result).

Definition TranslateAddress (use : UseFn) (n : CoreNode)
  (addressWithLeaderTransports : loc) : M (result TranslateAddressResult) :=
  let targetAddress := addressWithLeaderTransports in
  let* r := HandleStaticAddressTranslation use targetAddress in
  match r with
  | Err err =>
      ret (Err ("failed to handle static address translation: " ++ err))
  | Ok targetAddress =>
      let* r := Resolve (map external_resolver (addressResolution n))
                        targetAddress in
      match r with
      | Err err => ret (Err ("failed to resolve address: " ++ err))
      | Ok nextHopAddress =>
          let* leaderTransports := GetTransports n nextHopAddress in
          run SetTransports nextHopAddress leaderTransports in
          ret (Ok {| NextHopAddress := nextHopAddress;
                     TargetAddress := targetAddress |})
      end
  end.

Definition Connect (n : CoreNode) (nextHopAddress targetAddress : loc)
  : M (result Connection) :=
  match connectionManager n with
  | None => ret (Err "connection manager not initialized")
  | Some cm =>
      let params := {| cp_Address := targetAddress;
                       cp_NextHopAddress := nextHopAddress;
                       cp_CallerAddress := address n |} in
      run emit (EvConnect params) in
      let* h := get_heap in
      let* x := get_ext in
      let r := cm_Connect cm params h x in
      run put_ext (snd r) in
      match fst r with
      | Err err =>
          if String.eqb err "Can not dial self" then
            ret (Err "cannot dial self - ensure you're not connecting directly through the leader node")
          else ret (Err ("connection failed: " ++ err))
      | Ok connection =>
          let* s := String_ nextHopAddress in
          run log LDebug ("Successfully connected to: " ++ s) in
          ret (Ok connection)
      end
  end.

(** [connection.Send] and the deferred [connection.Close]. *)
Definition Send (c : Connection) (params : ConnectionSendParams)
  : M (result OResponse) :=
  run emit (EvSend params) in
  let* x := get_ext in
  let r := conn_Send c params x in
  run put_ext (snd r) in
  ret (fst r).

Definition Close (c : Connection) : M unit :=
  run emit EvConnClose in
  let* x := get_ext in
  put_ext (conn_Close c x).

(** [Use].  It reaches itself through [TranslateAddress] and
    [HandleStaticAddressTranslation]; [fuel] bounds the depth of that
    recursion. *)
Fixpoint Use_fuel (fuel : nat) (n : CoreNode) (address : loc) (method : string)
  (params : list (string * Any)) (opts : option UseOptions)
  : M (result OResponse) :=
  match fuel with
  | O => out_of_fuel
  | S fuel' =>
      let opts := match opts with None => DefaultUseOptions | Some o => o end in
      let* r := TranslateAddress (Use_fuel fuel' n) n address in
      match r with
      | Err err =>
          run incrementErrorCount in
          ret (Err ("failed to translate address: " ++ err))
      | Ok result =>
          let* c := Connect n (NextHopAddress result) (TargetAddress result) in
          match c with
          | Err err =>
              run incrementErrorCount in
              ret (Err ("failed to connect: " ++ err))
          | Ok connection =>
              let* target := String_ (TargetAddress result) in
              let sendParams :=
                {| sp_Address := target;
                   sp_Payload := [("method", AStr method);
                                  ("params", AMap params)] |} in
              let* r := Send connection sendParams in
              match r with
              | Err err =>
                  run incrementErrorCount in
                  run Close connection in
                  ret (Err ("failed to send request: " ++ err))
              | Ok response =>
                  run incrementSuccessCount in
                  run Close connection in
                  ret (Ok response)
              end
          end
      end
  end.

(** A call of [Use] by a client of the node: the nested registry search is
    one level down and searches no further. *)
Definition Use : CoreNode → UseFn := Use_fuel 2.

Definition Register (n : CoreNode) : M (option error) :=
  if String.eqb (Type_ n) NodeTypeLeader then
    run log LDebug "Skipping registration - node is leader" in
    ret None
  else
    run log LDebug "Registering node..." in
    match cfg_Leader (config n) with
    | None =>
        run log LWarn "No leader configured, skipping registration" in
        ret None
    | Some _ =>
        let* register := NewOAddress "o://register" None in
        let* a := String_ (address n) in
        let* ts := Transports n in
        let* sa := String_ (staticAddress n) in
        let params := [("peerId", AStr (peerId n)); ("address", AStr a);
                       ("protocols", AStrs []); ("transports", AStrs ts);
                       ("staticAddress", AStr sa)] in
        let* r := Use n register "commit" params
                      (Some {| NoIndex := true; Timeout := 0 |}) in
        match r with
        | Err err => ret (Some ("failed to register with leader: " ++ err))
        | Ok _ =>
            run log LDebug "Successfully registered with leader" in
            ret None
        end
    end.

Definition Unregister (n : CoreNode) : M (option error) :=
  if String.eqb (Type_ n) NodeTypeLeader then
    run log LDebug "Skipping unregistration - node is leader" in
    ret None
  else
    let* register := NewOAddress "o://register" None in
    let params := [("peerId", AStr (peerId n))] in
    let* r := Use n register "remove" params (Some DefaultUseOptions) in
    match r with
    | Err err =>
        run log LWarn ("Failed to unregister from network: " ++ err) in
        ret (Some err)
    | Ok _ =>
        run log LDebug "Successfully unregistered from network" in
        ret None
    end.

(** [Start] calls this method of [CoreNode] itself: a type that embeds
    [CoreNode] does not change what [n.Initialize] is here. *)
Definition Initialize (n : CoreNode) : M (option error) :=
  run log LDebug "Initializing core node..." in
  ret None.

Definition Start (n : CoreNode) : M (option error) :=
  let* s := State in
  if negb (NodeState_eqb s NodeStateStopped) then
    run log LWarn "Node is not stopped, skipping start" in
    ret None
  else
    run setState NodeStateStarting in
    let* r := Initialize n in
    match r with
    | Some err =>
        run setState NodeStateError in
        run addError err in
        ret (Some ("failed to initialize node: " ++ err))
    | None =>
        let* r := Register n in
        run match r with
            | Some err => log LError ("Failed to register node: " ++ err)
            | None => ret tt
            end in
        run setState NodeStateRunning in
        run log LInfo "Node started successfully" in
        ret None
    end.

(** [for _, err := range errs { n.addError(err) }] *)
Fixpoint addErrors (errs : list error) : M unit :=
  match errs with
  | [] => ret tt
  | err :: errs' => run addError err in addErrors errs'
  end.

(** [fmt.Sprintf("%v", errs)] for a slice of errors. *)
Definition format_errors (errs : list error) : string :=
  "[" ++ strings.Join errs " " ++ "]".

Definition Stop (n : CoreNode) : M (option error) :=
  run log LDebug "Stopping node..." in
  run setState NodeStateStopping in
  let errs : list error := [] in
  let* r := Unregister n in
  let errs := match r with
              | Some err => (errs ++ [("failed to unregister: " ++ err)%string])%list
              | None => errs
              end in
  let* r := match p2pNode n with
            | None => ret None
            | Some h =>
                run emit EvHostClose in
                let* x := get_ext in
                let r := host_Close h x in
                run put_ext (snd r) in
                ret (fst r)
            end in
  let errs := match r with
              | Some err => (errs ++ [("failed to close p2p node: " ++ err)%string])%list
              | None => errs
              end in
  if (0 <? List.length errs)%nat then
    run setState NodeStateError in
    run addErrors errs in
    ret (Some ("errors during shutdown: " ++ format_errors errs))
  else
    run setState NodeStateStopped in
    run log LInfo "Node stopped successfully" in
    ret None.

End Node.

Section MoreAddress.
Context `{Sub : Substrate}.

(* ===================================================================== *)
(** ** address.go: the remaining operations                                *)
(* ===================================================================== *)

(** [strings.Replace(s, old, new, 1)] for a non-empty [old]: the first
    occurrence of [old], from the left, becomes [new]. *)
Fixpoint Replace1 (s old new : string) : string :=
  match s with
  | EmptyString => EmptyString
  | String c s' =>
      if strings.HasPrefix s old
      then new ++ String.substring (String.length old)
                    (String.length s - String.length old) s
      else String c (Replace1 s' old new)
  end.

Definition protocol_value (v : string) : string := Replace1 v "o://" "/o/".

Definition Protocol (a : loc) : M string :=
  let* o := deref a in ret (protocol_value (value o)).

Definition ToMultiaddr (a : loc) : M (result Multiaddr) :=
  let* p := Protocol a in ret (NewMultiaddr p).

Definition FromMultiaddr (ma : Multiaddr) : M loc :=
  let value := Replace1 (ma_String ma) "/o/" "o://" in
  NewOAddress value None.

Definition ParseOAddress (v : string) : M (result loc) :=
  if negb (strings.HasPrefix v "o://")
  then ret (Err "invalid o-address: must start with o://")
  else let* a := NewOAddress v None in ret (Ok a).

(** [parts[i]] for an index known to be in range. *)
Definition part (parts : list string) (i : nat) : string :=
  nth i parts "".

Definition is_tool_value (v : string) : bool :=
  let parts := split_value v in
  (1 <? List.length parts)%nat &&
  (String.eqb (part parts 1) "tool" || String.eqb (part parts 1) "tools").

Definition tool_name_value (v : string) : string :=
  if negb (is_tool_value v) then ""
  else
    let parts := split_value v in
    if (3 <=? List.length parts)%nat then part parts 2 else "".

Definition method_value (v : string) : string :=
  let parts := split_value v in
  if (0 <? List.length parts)%nat
  then part parts (List.length parts - 1)
  else "".

Definition IsToolAddress (a : loc) : M bool :=
  let* o := deref a in ret (is_tool_value (value o)).
Definition GetToolName (a : loc) : M string :=
  let* o := deref a in ret (tool_name_value (value o)).
Definition GetMethod (a : loc) : M string :=
  let* o := deref a in ret (method_value (value o)).

End MoreAddress.

Section MoreNode.
Context `{Sub : Substrate}.

(* ===================================================================== *)
(** ** The core node: construction and parent                              *)
(* ===================================================================== *)

(** [DefaultCoreConfig], with the fields the node reads. *)
Definition DefaultCoreConfig : M CoreConfig :=
  let* a := NewOAddress "o://node" None in
  ret {| cfg_Address := a; cfg_Leader := None; cfg_Parent := None;
         cfg_Type := NodeTypeUnknown; cfg_Name := ""; cfg_Description := "" |}.

(** [NewCoreNode]: the logger name reads the address, the static address is
    a clone, the node starts [Stopped] with empty counters and error log,
    and neither host nor connection manager is set.  The peer id is the
    zero value. *)
Definition NewCoreNode (cfg : option CoreConfig) : M CoreNode :=
  let* cfg := match cfg with
              | None => DefaultCoreConfig
              | Some c => ret c
              end in
  let* _ := String_ (cfg_Address cfg) in
  let* static := Clone (cfg_Address cfg) in
  run put_vars {| state := NodeStateStopped; errors := [];
                  successCount := 0; errorCount := 0 |} in
  ret {| p2pNode := None; address := cfg_Address cfg;
         staticAddress := static; peerId := "";
         connectionManager := None; addressResolution := [];
         config := cfg |}.

Definition Parent (n : CoreNode) : option loc := cfg_Parent (config n).

Definition ParentTransports (n : CoreNode) : M (list Multiaddr) :=
  match Parent n with
  | None => ret []
  | Some parent =>
      let* transports := AllTransports parent in
      ret (parse_transports transports)
  end.

End MoreNode.

Section Utils.
Context `{Sub : Substrate}.

(* ===================================================================== *)
(** ** utils: multiaddr validation and slices                              *)
(* ===================================================================== *)

Definition ParseMultiaddr (addr : string) : result Multiaddr :=
  match NewMultiaddr addr with
  | Err err => Err ("invalid multiaddr " ++ addr ++ ": " ++ err)
  | Ok ma => Ok ma
  end.

Fixpoint ValidateMultiaddrs (addrs : list string) : option error :=
  match addrs with
  | [] => None
  | addr :: rest =>
      match ParseMultiaddr addr with
      | Err err => Some err
      | Ok _ => ValidateMultiaddrs rest
      end
  end.

Definition DefaultIfEmpty (value defaultValue : string) : string :=
  if String.eqb value "" then defaultValue else value.

(** The generic helpers, for an element type on which Go's [==] is
    equality (as for strings and integers; a floating-point NaN differs
    from itself, and such types are left out). *)
Context {T : Type} `{EqDecision T} `{Countable T}.

Fixpoint SliceContains (slice : list T) (item : T) : bool :=
  match slice with
  | [] => false
  | v :: rest => if decide (v = item) then true else SliceContains rest item
  end.

Fixpoint RemoveFromSlice (slice : list T) (item : T) : list T :=
  match slice with
  | [] => []
  | v :: rest =>
      if decide (v ≠ item) then v :: RemoveFromSlice rest item
      else RemoveFromSlice rest item
  end.

(** The loop of [UniqueSlice], with the map [seen] as the set of its keys
    mapped to [true]. *)
Fixpoint UniqueSlice_from (seen : gset T) (slice : list T) : list T :=
  match slice with
  | [] => []
  | v :: rest =>
      if decide (v ∈ seen) then UniqueSlice_from seen rest
      else v :: UniqueSlice_from ({[v]} ∪ seen) rest
  end.

Definition UniqueSlice (slice : list T) : list T := UniqueSlice_from ∅ slice.

End Utils.

Section Store.
Context `{Sub : Substrate}.

(** ** The store transformers behind [make_slice], [new_object], [store] *)

(** The world with another store. *)
Definition with_heap (w : World) (h : Heap) : World :=
  {| heap := h; vars := vars w; ext := ext w; events := events w |}.

(** The world with other node fields. *)
Definition with_vars (w : World) (v : NodeVars) : World :=
  {| heap := heap w; vars := v; ext := ext w; events := events w |}.

Definition alloc_arr (h : Heap) (ts : list Transport) : Heap :=
  {| objs := objs h; arrs := <[fresh (dom (arrs h)) := ts]> (arrs h) |}.

Definition alloc_obj (h : Heap) (o : OAddress) : Heap :=
  {| objs := <[fresh (dom (objs h)) := o]> (objs h); arrs := arrs h |}.

Definition write_obj (h : Heap) (a : loc) (o : OAddress) : Heap :=
  {| objs := <[a := o]> (objs h); arrs := arrs h |}.

End Store.

Section Effects.
Context `{Sub : Substrate}.

(** ** Relations between the world before and after a call *)

(** [h'] extends [h]: the arrays of [h] are in [h'] as they were, every
    address of [h] is in [h'] with the value it had, and outside [P] with
    the transport slice it had. *)
Definition mods (P : loc → Prop) (h h' : Heap) : Prop :=
  (∀ s ts, arrs h !! s = Some ts → arrs h' !! s = Some ts) ∧
  (∀ l o, objs h !! l = Some o →
          ∃ o', objs h' !! l = Some o' ∧ value o' = value o ∧ (¬ P l → o' = o)).

(** The addresses a call of [Use] on [a] in the store [h] may touch: [a]
    itself and the ones it allocates. *)
Definition own_or_new (h : Heap) (a : loc) : loc → Prop :=
  fun l => l = a ∨ objs h !! l = None.

(** Only the collaborators' state and the events differ. *)
Definition quiet (w w' : World) : Prop :=
  heap w' = heap w ∧ vars w' = vars w.

(** One increment of a counter: [successCount] for [true]. *)
Definition bump (ok : bool) (v : NodeVars) : NodeVars :=
  if ok then
    {| state := state v; errors := errors v;
       successCount := wrap64 (successCount v + 1);
       errorCount := errorCount v |}
  else
    {| state := state v; errors := errors v;
       successCount := successCount v;
       errorCount := wrap64 (errorCount v + 1) |}.

(** The increments [oks], the first of the list first. *)
Definition bumps (oks : list bool) (v : NodeVars) : NodeVars :=
  fold_left (fun v ok => bump ok v) oks v.

(** The addresses allocated after [h]. *)
Definition only_new (h : Heap) : loc → Prop :=
  fun l => objs h !! l = None.

(** The store grows and only the addresses in [P] get other transports;
    the node's fields are as they were. *)
Definition grows (P : loc → Prop) (w w' : World) : Prop :=
  vars w' = vars w ∧ mods P (heap w) (heap w').

(** The registry search of [HandleStaticAddressTranslation] for an input
    with the transports [ts]: the address it searches at, and the world in
    which it calls [Use]. *)
Definition search_addr (w : World) : loc := fresh (dom (objs (heap w))).

Definition search_world (w : World) (ts : list Transport) : World :=
  let register := {| value := "o://leader/register"; transports := None |} in
  with_heap w
    (write_obj
       (alloc_arr (alloc_obj (heap w) register) (map TMultiaddr (libp2p_of ts)))
       (search_addr w)
       {| value := "o://leader/register";
          transports := Some (fresh (dom (arrs (heap w)))) |}).

Definition search_options : option UseOptions :=
  Some {| NoIndex := true; Timeout := 0 |}.

(** What a call of [Use] on [a] that returns [r] has done: the store has
    grown, among the addresses that were there only [a] may have other
    transports, and the counters were incremented once for the registry
    search (for an address not under [o://leader]) and once for the call. *)
Definition Use_effect (a : loc) (w : World) (r : result OResponse) (w' : World)
  : Prop :=
  ∃ oa nested,
    objs (heap w) !! a = Some oa ∧
    mods (own_or_new (heap w) a) (heap w) (heap w') ∧
    vars w' = bump (is_ok r) (bumps nested (vars w)) ∧
    List.length nested =
      (if strings.HasPrefix (value oa) "o://leader" then 0 else 1)%nat.

(** What the functions between [Use] and its nested call need from the
    nested call. *)
Definition dispatches (use : UseFn) : Prop :=
  ∀ s m p o w1 r w2, use s m p o w1 = Done r w2 → Use_effect s w1 r w2.

End Effects.

Section Calls.
Context `{Sub : Substrate}.

(** ** What the statements below speak of *)

(** The world after the events [evs]. *)
Definition logged (w : World) (evs : list Event) : World :=
  {| heap := heap w; vars := vars w; ext := ext w;
     events := events w ++ evs |}.

(** The resolvers [rs], tried in turn on [a] from the world [w], all
    return an error and leave the world [w']. *)
Inductive no_match (a : loc) : list AddressResolver → World → World → Prop :=
| no_match_nil w : no_match a [] w w
| no_match_cons r rs e w w1 w' :
    ar_Resolve r a w = Done (Err e) w1 →
    no_match a rs w1 w' →
    no_match a (r :: rs) w w'.

(** The calls a client of the node makes. *)
Inductive Call :=
| CallUse (a : loc) (method : string) (params : list (string * Any))
          (opts : option UseOptions)
| CallStart
| CallStop
| CallWhoAmI
| CallErrors.

Definition perform (n : CoreNode) (c : Call) : M unit :=
  match c with
  | CallUse a method params opts =>
      let* _ := Use n a method params opts in ret tt
  | CallStart => let* _ := Start n in ret tt
  | CallStop => let* _ := Stop n in ret tt
  | CallWhoAmI => let* _ := WhoAmI n in ret tt
  | CallErrors => let* _ := Errors in ret tt
  end.

Fixpoint perform_all (n : CoreNode) (cs : list Call) : M unit :=
  match cs with
  | [] => ret tt
  | c :: cs' => run perform n c in perform_all n cs'
  end.

(** How often [Use] is entered for a value: once, and once more for the
    registry search when the value is not under [o://leader]. *)
Definition invocations_for (v : string) : nat :=
  if strings.HasPrefix v "o://leader" then 1 else 2.

(** How often [Use] is entered during the call [c] made in the world [w]:
    [Start] registers from [Stopped] unless the node is a leader or has
    none, [Stop] unregisters unless the node is a leader, both at
    [o://register]. *)
Definition invocations (n : CoreNode) (w : World) (c : Call) : nat :=
  match c with
  | CallUse a _ _ _ =>
      match objs (heap w) !! a with
      | Some oa => invocations_for (value oa)
      | None => 0
      end
  | CallStart =>
      if NodeState_eqb (state (vars w)) NodeStateStopped
         && negb (String.eqb (Type_ n) NodeTypeLeader)
         && bool_decide (is_Some (cfg_Leader (config n)))
      then invocations_for "o://register" else 0
  | CallStop =>
      if String.eqb (Type_ n) NodeTypeLeader then 0
      else invocations_for "o://register"
  | CallWhoAmI | CallErrors => 0
  end.

Fixpoint invocations_all (n : CoreNode) (w : World) (cs : list Call) : nat :=
  match cs with
  | [] => 0
  | c :: cs' =>
      invocations n w c +
      match perform n c w with
      | Done _ w1 => invocations_all n w1 cs'
      | _ => 0
      end
  end.

(** Printing and parsing a multiaddr gives it back: what go-multiaddr
    promises of the addresses of a host. *)
Definition round_trips (mas : list Multiaddr) : Prop :=
  ∀ ma, ma ∈ mas → NewMultiaddr (ma_String ma) = Ok ma.

Definition debug_search : Event :=
  EvLog LDebug "No leader transports provided, searching within network".

Definition counters (v : NodeVars) : Z * Z := (successCount v, errorCount v).

(** The increments [oks] lead from the counters of [w] to those of [w']. *)
Definition counted (oks : list bool) (w w' : World) : Prop :=
  counters (vars w') = counters (bumps oks (vars w)).

(** The world in which [Stop] unregisters: [Stopping] is logged and set. *)
Definition stopping (w : World) : World :=
  with_vars (logged w [EvLog LDebug "Stopping node..."])
    {| state := NodeStateStopping; errors := errors (vars w);
       successCount := successCount (vars w);
       errorCount := errorCount (vars w) |}.

(** The errors [Stop] collects from the unregistration and from closing
    the host. *)
Definition shutdown_errors (unregistered closed : option error) : list error :=
  (match unregistered with
   | Some err => [("failed to unregister: " ++ err)%string]
   | None => []
   end ++
   match closed with
   | Some err => [("failed to close p2p node: " ++ err)%string]
   | None => []
   end)%list.

(** The answers in which the code finds no result: no result value, no
    list under [data], an empty list, a first result that is no object or
    has no string under [address]. *)
Definition no_result (resp : OResponse) : Prop :=
  match resp_Result resp with
  | ANil => True
  | AMap m =>
      match map_index m "data" with
      | AList (AMap fr :: _) =>
          match map_index fr "address" with
          | AStr _ => False
          | _ => True
          end
      | _ => True
      end
  | _ => False
  end.

(** ** What a call needs to return *)

(** The call [m] made in [w] returns: no panic and fuel enough. *)
Definition returns {A} (m : M A) (w : World) : Prop :=
  ∃ r w', m w = Done r w'.

(** Every address of the store has its transports in the store. *)
Definition wf_heap (h : Heap) : Prop :=
  ∀ l o, objs h !! l = Some o → is_Some (slice_elems h (transports o)).

(** The address of the configured leader is in the store. *)
Definition leader_there (n : CoreNode) (h : Heap) : Prop :=
  ∀ l, cfg_Leader (config n) = Some l → is_Some (objs h !! l).

(** The connections of the node answer a search with a result that is
    nil or an object. *)
Definition answers_objects (n : CoreNode) : Prop :=
  ∀ cm ps h x c sp y resp,
    connectionManager n = Some cm →
    fst (cm_Connect cm ps h x) = Ok c →
    map_index (sp_Payload sp) "method" = AStr "search" →
    fst (conn_Send c sp y) = Ok resp →
    match resp_Result resp with ANil | AMap _ => True | _ => False end.

End Calls.

Section MoreDefs.
Context `{Sub : Substrate}.

(** ** What the further statements speak of *)

(** The byte [c] occurs in [s]. *)
Fixpoint has_byte (s : string) (c : ascii) : bool :=
  match s with
  | EmptyString => false
  | String d s' => Ascii.eqb d c || has_byte s' c
  end.

(** A string that can be one segment of a path. *)
Definition slash_free (s : string) : Prop := has_byte s slash = false.

End MoreDefs.

Section MoreNodeDefs.
Context `{Sub : Substrate}.

(** The error of every dispatch of a node without connection manager. *)
Definition no_manager : error :=
  "failed to connect: connection manager not initialized".

Definition dial_self : error :=
  "failed to connect: cannot dial self - ensure you're not connecting directly through the leader node".

(** The fields of a node when it is built. *)
Definition initial_vars : NodeVars :=
  {| state := NodeStateStopped; errors := [];
     successCount := 0; errorCount := 0 |}.

(** The state after a call of [Start] made in the state [s]. *)
Definition started (s : NodeState) : NodeState :=
  if NodeState_eqb s NodeStateStopped then NodeStateRunning else s.

End MoreNodeDefs.

(* ===================================================================== *)
(** ** A small substrate and small nodes, to run the code on               *)
(* ===================================================================== *)

(** Multiaddrs identified with their text; the collaborators' state counts
    their calls. *)
Definition toy : Substrate :=
  {| Multiaddr := string;
     ma_String := fun s => s;
     NewMultiaddr := fun s =>
       if String.prefix "/" s then Ok s else Err "failed to parse multiaddr";
     Ext := nat |}.

Section Instances.
#[local] Existing Instance toy.

Definition empty_world : World :=
  {| heap := {| objs := ∅; arrs := ∅ |};
     vars := {| state := NodeStateStopped; errors := [];
                successCount := 0; errorCount := 0 |};
     ext := 0%nat;
     events := [] |}.

Definition plain_config : CoreConfig :=
  {| cfg_Address := 1%positive; cfg_Leader := None; cfg_Parent := None;
     cfg_Type := ""; cfg_Name := ""; cfg_Description := "" |}.

(** A node as [NewCoreNode] leaves it: no host, no connection manager, no
    resolver. *)
Definition plain_node : CoreNode :=
  {| p2pNode := None; address := 1%positive; staticAddress := 2%positive;
     peerId := "peer"; connectionManager := None; addressResolution := [];
     config := plain_config |}.

(** A connection manager whose connections answer every request with
    [answer]. *)
Definition answering (answer : result OResponse) : ConnectionManager :=
  {| cm_Connect := fun _ _ x =>
       (Ok {| conn_Send := fun _ y => (answer, S y);
              conn_Close := fun y => y |}, S x) |}.

Definition node_with (cm : ConnectionManager) : CoreNode :=
  {| p2pNode := None; address := 1%positive; staticAddress := 2%positive;
     peerId := "peer"; connectionManager := Some cm; addressResolution := [];
     config := plain_config |}.

(** A connection manager whose connections fail the first request sent
    and answer the later ones with [response]. *)
Definition flaky (response : OResponse) : ConnectionManager :=
  {| cm_Connect := fun _ _ x =>
       (Ok {| conn_Send := fun _ y =>
                (if (y <? 2)%nat then Err "timeout" else Ok response, S y);
              conn_Close := fun y => y |}, S x) |}.

(** A resolver that matches nothing and one that resolves everything to
    [v]. *)
Definition matches_nothing : ExternalResolver :=
  {| xr_Resolve := fun _ _ x => (ResolveErr "no match", x);
     xr_SupportsTransport := fun _ _ _ => false |}.

Definition resolves_to (v : string) : ExternalResolver :=
  {| xr_Resolve := fun _ _ x => (ResolveNew v [], x);
     xr_SupportsTransport := fun _ _ _ => true |}.

(** A registry answer with the one result [{address: canon}]. *)
Definition found (canon : string) : OResponse :=
  {| resp_ID := "1";
     resp_Result := AMap [("data", AList [AMap [("address", AStr canon)]])];
     resp_Error := None |}.

(** The world of a stopped node with the given store. *)
Definition world_of (os : list (loc * OAddress))
  (ars : list (loc * list Transport)) : World :=
  {| heap := {| objs := list_to_map os; arrs := list_to_map ars |};
     vars := vars empty_world; ext := 0%nat; events := [] |}.

Definition endpoint : @Multiaddr toy := "/ip4/10.0.0.7/tcp/4001".

Definition hints : list Transport := [TMultiaddr endpoint; TString "custom"].

(** An alias with a path, hinted by a multiaddr and by a string. *)
Definition alias_world : World :=
  world_of
    [(1%positive, {| value := "o://alias/extra/path";
                     transports := Some 1%positive |})]
    [(1%positive, hints)].

(** An address under the registry root with the same hints. *)
Definition leader_world : World :=
  world_of
    [(1%positive, {| value := "o://leader/tools";
                     transports := Some 1%positive |})]
    [(1%positive, hints)].

(** An address hinted by a string only. *)
Definition custom_world : World :=
  world_of
    [(1%positive, {| value := "o://printer"; transports := Some 1%positive |})]
    [(1%positive, [TString "custom"])].

(** An address whose value ends with a slash. *)
Definition slash_world : World :=
  world_of [(1%positive, {| value := "o://a/"; transports := None |})] [].

(** An answer whose result is a string. *)
Definition unavailable : OResponse :=
  {| resp_ID := "1"; resp_Result := AStr "unavailable"; resp_Error := None |}.

End Instances.

Section MoreInstances.
#[local] Existing Instance toy.

(** A parent with a path and a child with transports. *)
Definition family_world : World :=
  world_of
    [(1%positive, {| value := "o://parent/room"; transports := None |});
     (2%positive, {| value := "o://child/desk"; transports := Some 1%positive |})]
    [(1%positive, hints)].

(** The multiaddr that prints the protocol form of the alias. *)
Definition protocol_form : @Multiaddr toy := "/o/alias/extra/path".

(** An address hinted by a multiaddr only. *)
Definition endpoint_world : World :=
  world_of
    [(1%positive, {| value := "o://parent"; transports := Some 1%positive |})]
    [(1%positive, [TMultiaddr endpoint])].

(** A node whose parent is the address 1. *)
Definition child_node : CoreNode :=
  {| p2pNode := None; address := 1%positive; staticAddress := 2%positive;
     peerId := "peer"; connectionManager := None; addressResolution := [];
     config := {| cfg_Address := 1%positive; cfg_Leader := None;
                  cfg_Parent := Some 1%positive; cfg_Type := "";
                  cfg_Name := ""; cfg_Description := "" |} |}.

End MoreInstances.

(* ===================================================================== *)
(** * Properties                                                           *)
(* ===================================================================== *)

Section Basics.
Context `{Sub : Substrate}.

(** ** Strings *)

Lemma append_assoc (a b c : string) : (a ++ b) ++ c = a ++ (b ++ c).
Proof.
  induction a as [|ch a IH]; [reflexivity|].
  change (String ch ((a ++ b) ++ c) = String ch (a ++ b ++ c)).
  now rewrite IH.
Qed.

(** ** The monad *)

Lemma bind_Done {A B} (m : M A) (k : A → M B) w a w1 :
  m w = Done a w1 → bind m k w = k a w1.
Proof. intros H. unfold bind. now rewrite H. Qed.

Lemma bind_inv {A B} (m : M A) (k : A → M B) w b w' :
  bind m k w = Done b w' → ∃ a w1, m w = Done a w1 ∧ k a w1 = Done b w'.
Proof.
  unfold bind. destruct (m w) as [a w1| |]; [eauto | discriminate..].
Qed.

Lemma bind_ext_l {A B} (m m' : M A) (k : A → M B) w :
  m w = m' w → bind m k w = bind m' k w.
Proof. unfold bind. now intros ->. Qed.

(** Running out of fuel is the business of [Use_fuel] alone. *)
Definition fueled {A} (m : M A) : Prop := ∀ w, m w ≠ OutOfFuel.

Lemma fueled_bind {A B} (m : M A) (k : A → M B) :
  fueled m → (∀ a, fueled (k a)) → fueled (bind m k).
Proof.
  intros Hm Hk w. unfold bind. specialize (Hm w).
  destruct (m w); [apply Hk | discriminate | contradiction].
Qed.

Lemma fueled_bind_at {A B} (m : M A) (k : A → M B) w :
  m w ≠ OutOfFuel → (∀ a, fueled (k a)) → bind m k w ≠ OutOfFuel.
Proof.
  intros Hm Hk. unfold bind.
  destruct (m w); [apply Hk | discriminate | contradiction].
Qed.

Lemma fueled_ret {A} (a : A) : fueled (ret a).
Proof. intros w. discriminate. Qed.

Lemma ret_inv {A} (a b : A) w w' : ret a w = Done b w' → b = a ∧ w' = w.
Proof. unfold ret. intros [= -> ->]. auto. Qed.

(** ** The store *)

Lemma deref_Some a o w : objs (heap w) !! a = Some o → deref a w = Done o w.
Proof. intros H. unfold deref. now rewrite H. Qed.

Lemma deref_inv a o w w' :
  deref a w = Done o w' → w' = w ∧ objs (heap w) !! a = Some o.
Proof.
  unfold deref. destruct (objs (heap w) !! a) eqn:E; [|discriminate].
  intros [= -> ->]. auto.
Qed.

Lemma read_slice_Some s ts w :
  slice_elems (heap w) s = Some ts → read_slice s w = Done ts w.
Proof. intros H. unfold read_slice. now rewrite H. Qed.

Lemma read_slice_inv s ts w w' :
  read_slice s w = Done ts w' → w' = w ∧ slice_elems (heap w) s = Some ts.
Proof.
  unfold read_slice. destruct (slice_elems (heap w) s) eqn:E; [|discriminate].
  intros [= -> ->]. auto.
Qed.

Lemma make_slice_eq ts w :
  make_slice ts w =
  Done (Some (fresh (dom (arrs (heap w))))) (with_heap w (alloc_arr (heap w) ts)).
Proof. reflexivity. Qed.

Lemma store_eq a o o0 w :
  objs (heap w) !! a = Some o0 →
  store a o w = Done tt (with_heap w (write_obj (heap w) a o)).
Proof. intros H. unfold store, bind. rewrite (deref_Some _ _ _ H). reflexivity. Qed.

Lemma fresh_obj_None (h : Heap) : objs h !! fresh (dom (objs h)) = None.
Proof. apply not_elem_of_dom, is_fresh. Qed.

Lemma fresh_arr_None (h : Heap) : arrs h !! fresh (dom (arrs h)) = None.
Proof. apply not_elem_of_dom, is_fresh. Qed.

Lemma fresh_obj_ne (h : Heap) a o :
  objs h !! a = Some o → a ≠ fresh (dom (objs h)).
Proof. intros H ->. rewrite fresh_obj_None in H. discriminate. Qed.

Lemma fresh_arr_ne (h : Heap) s ts :
  arrs h !! s = Some ts → s ≠ fresh (dom (arrs h)).
Proof. intros H ->. rewrite fresh_arr_None in H. discriminate. Qed.

(** A new array leaves the elements of every valid slice as they were. *)
Lemma slice_elems_alloc_arr h ts s l :
  slice_elems h s = Some l → slice_elems (alloc_arr h ts) s = Some l.
Proof.
  destruct s as [p|]; simpl; [|auto].
  intros H. rewrite lookup_insert_ne; [auto|].
  apply not_eq_sym. eauto using fresh_arr_ne.
Qed.

Lemma slice_elems_alloc_arr_new h ts :
  slice_elems (alloc_arr h ts) (Some (fresh (dom (arrs h)))) = Some ts.
Proof. simpl. apply lookup_insert_eq. Qed.

End Basics.

Section AddressFacts.
Context `{Sub : Substrate}.

(** ** address.go: what each operation does to the store *)

Lemma NewOAddress_eq v s w :
  NewOAddress v s w =
  Done (fresh (dom (objs (heap w))))
       (with_heap w (alloc_obj (heap w) {| value := v; transports := s |})).
Proof. reflexivity. Qed.

Lemma SetTransports_eq a o ms w :
  objs (heap w) !! a = Some o →
  SetTransports a ms w =
  Done tt (with_heap w
    (write_obj (alloc_arr (heap w) (map TMultiaddr ms)) a
       {| value := value o;
          transports := Some (fresh (dom (arrs (heap w)))) |})).
Proof.
  intros H. unfold SetTransports, bind.
  rewrite (deref_Some _ _ _ H), make_slice_eq.
  erewrite store_eq by (simpl; exact H). reflexivity.
Qed.

Lemma SetTransportsFromStrings_eq a o ss w :
  objs (heap w) !! a = Some o →
  SetTransportsFromStrings a ss w =
  Done tt (with_heap w
    (write_obj (alloc_arr (heap w) (map TString ss)) a
       {| value := value o;
          transports := Some (fresh (dom (arrs (heap w)))) |})).
Proof.
  intros H. unfold SetTransportsFromStrings, bind.
  rewrite (deref_Some _ _ _ H), make_slice_eq.
  erewrite store_eq by (simpl; exact H). reflexivity.
Qed.

Lemma transports_of_eq a o ts w :
  objs (heap w) !! a = Some o →
  slice_elems (heap w) (transports o) = Some ts →
  transports_of a w = Done ts w.
Proof.
  intros H1 H2. unfold transports_of, bind.
  rewrite (deref_Some _ _ _ H1). now apply read_slice_Some.
Qed.

Lemma transports_of_inv a ts w w' :
  transports_of a w = Done ts w' →
  w' = w ∧ ∃ o, objs (heap w) !! a = Some o ∧
                slice_elems (heap w) (transports o) = Some ts.
Proof.
  unfold transports_of. intros H.
  apply bind_inv in H as (o & w1 & H1 & H2).
  apply deref_inv in H1 as [-> H1].
  apply read_slice_inv in H2 as [-> H2]. eauto.
Qed.

Lemma WithPath_eq a o path w :
  objs (heap w) !! a = Some o →
  WithPath a path w =
  Done (fresh (dom (objs (heap w))))
       (with_heap w (alloc_obj (heap w)
          {| value := with_path_value (value o) path;
             transports := transports o |})).
Proof.
  intros H. unfold WithPath, bind. now rewrite (deref_Some _ _ _ H).
Qed.

Lemma WithTransports_eq a o s w :
  objs (heap w) !! a = Some o →
  WithTransports a s w =
  Done (fresh (dom (objs (heap w))))
       (with_heap w (alloc_obj (heap w) {| value := value o; transports := s |})).
Proof.
  intros H. unfold WithTransports, bind. now rewrite (deref_Some _ _ _ H).
Qed.

Lemma Clone_eq a o ts w :
  objs (heap w) !! a = Some o →
  slice_elems (heap w) (transports o) = Some ts →
  Clone a w =
  Done (fresh (dom (objs (heap w))))
       (with_heap w
          (alloc_obj (alloc_arr (heap w) ts)
             {| value := value o;
                transports := Some (fresh (dom (arrs (heap w)))) |})).
Proof.
  intros H1 H2. unfold Clone, bind.
  rewrite (deref_Some _ _ _ H1), (read_slice_Some _ _ _ H2).
  reflexivity.
Qed.

(** ** WithPath *)

(** Where at most one side brings the slash the join has one slash. *)
Lemma with_path_value_neither v path :
  strings.HasSuffix v "/" = false → strings.HasPrefix path "/" = false →
  with_path_value v path = v ++ "/" ++ path.
Proof.
  intros H1 H2. unfold with_path_value. rewrite H1, H2.
  cbn [negb andb]. apply append_assoc.
Qed.

Lemma with_path_value_one v path :
  strings.HasSuffix v "/" = true ∨ strings.HasPrefix path "/" = true →
  with_path_value v path = v ++ path.
Proof.
  intros H. unfold with_path_value.
  destruct (strings.HasSuffix v "/"), (strings.HasPrefix path "/");
    simpl; try reflexivity.
  destruct H; discriminate.
Qed.

End AddressFacts.

Section CloneFacts.
Context `{Sub : Substrate}.

(** Replacing the transports of [x]: [x] reads the new list, every other
    address reads what it read before. *)
Lemma replace_transports_self h new x v :
  let h' := write_obj (alloc_arr h new) x
              {| value := v; transports := Some (fresh (dom (arrs h))) |} in
  ∃ o', objs h' !! x = Some o' ∧ value o' = v ∧
        slice_elems h' (transports o') = Some new.
Proof.
  simpl. eexists. split; [apply lookup_insert_eq|]. split; [reflexivity|].
  simpl. apply lookup_insert_eq.
Qed.

Lemma replace_transports_other h new x v y oy l :
  y ≠ x → objs h !! y = Some oy → slice_elems h (transports oy) = Some l →
  let h' := write_obj (alloc_arr h new) x
              {| value := v; transports := Some (fresh (dom (arrs h))) |} in
  objs h' !! y = Some oy ∧ slice_elems h' (transports oy) = Some l.
Proof.
  intros Hne Hy Hl. simpl. split.
  - rewrite lookup_insert_ne by auto. exact Hy.
  - change (slice_elems (alloc_arr h new) (transports oy) = Some l).
    now apply slice_elems_alloc_arr.
Qed.

Lemma SetTransports_reads a o ms w :
  objs (heap w) !! a = Some o →
  ∃ w', SetTransports a ms w = Done tt w' ∧
        transports_of a w' = Done (map TMultiaddr ms) w' ∧
        (∀ y oy l, y ≠ a → objs (heap w) !! y = Some oy →
                   slice_elems (heap w) (transports oy) = Some l →
                   objs (heap w') !! y = Some oy ∧
                   transports_of y w' = Done l w').
Proof.
  intros H. eexists. split; [apply (SetTransports_eq _ _ _ _ H)|]. split.
  - destruct (replace_transports_self (heap w) (map TMultiaddr ms) a (value o))
      as (o' & H1 & _ & H2).
    eapply transports_of_eq; simpl; eauto.
  - intros y oy l Hne Hy Hl.
    destruct (replace_transports_other (heap w) (map TMultiaddr ms) a (value o)
                y oy l Hne Hy Hl) as [H1 H2].
    split; [exact H1|]. eapply transports_of_eq; simpl; eauto.
Qed.

Lemma SetTransportsFromStrings_reads a o ss w :
  objs (heap w) !! a = Some o →
  ∃ w', SetTransportsFromStrings a ss w = Done tt w' ∧
        transports_of a w' = Done (map TString ss) w' ∧
        (∀ y oy l, y ≠ a → objs (heap w) !! y = Some oy →
                   slice_elems (heap w) (transports oy) = Some l →
                   objs (heap w') !! y = Some oy ∧
                   transports_of y w' = Done l w').
Proof.
  intros H. eexists. split; [apply (SetTransportsFromStrings_eq _ _ _ _ H)|]. split.
  - destruct (replace_transports_self (heap w) (map TString ss) a (value o))
      as (o' & H1 & _ & H2).
    eapply transports_of_eq; simpl; eauto.
  - intros y oy l Hne Hy Hl.
    destruct (replace_transports_other (heap w) (map TString ss) a (value o)
                y oy l Hne Hy Hl) as [H1 H2].
    split; [exact H1|]. eapply transports_of_eq; simpl; eauto.
Qed.

(** C10.  [Clone] returns a new address with the receiver's value and a new
    backing array holding the receiver's transports; the receiver is left as
    it was; and replacing the transports of either one afterwards, with
    [SetTransports] or [SetTransportsFromStrings], leaves the transports of
    the other one unchanged. *)
Theorem Clone_independent w a o ts :
  objs (heap w) !! a = Some o →
  slice_elems (heap w) (transports o) = Some ts →
  ∃ b s w1,
    Clone a w = Done b w1 ∧
    objs (heap w) !! b = None ∧ arrs (heap w) !! s = None ∧
    objs (heap w1) !! b = Some {| value := value o; transports := Some s |} ∧
    arrs (heap w1) !! s = Some ts ∧
    objs (heap w1) !! a = Some o ∧
    transports_of a w1 = Done ts w1 ∧
    transports_of b w1 = Done ts w1 ∧
    (∀ ms, ∃ w2, SetTransports b ms w1 = Done tt w2 ∧
                 transports_of a w2 = Done ts w2 ∧
                 transports_of b w2 = Done (map TMultiaddr ms) w2) ∧
    (∀ ss, ∃ w2, SetTransportsFromStrings b ss w1 = Done tt w2 ∧
                 transports_of a w2 = Done ts w2 ∧
                 transports_of b w2 = Done (map TString ss) w2) ∧
    (∀ ms, ∃ w2, SetTransports a ms w1 = Done tt w2 ∧
                 transports_of b w2 = Done ts w2 ∧
                 transports_of a w2 = Done (map TMultiaddr ms) w2) ∧
    (∀ ss, ∃ w2, SetTransportsFromStrings a ss w1 = Done tt w2 ∧
                 transports_of b w2 = Done ts w2 ∧
                 transports_of a w2 = Done (map TString ss) w2).
Proof.
  intros Ha Hts.
  set (s := fresh (dom (arrs (heap w)))).
  set (b := fresh (dom (objs (heap w)))).
  set (ob := {| value := value o; transports := Some s |}).
  set (w1 := with_heap w (alloc_obj (alloc_arr (heap w) ts) ob)).
  assert (Hab : a ≠ b) by (eapply fresh_obj_ne; eauto).
  assert (Hb1 : objs (heap w1) !! b = Some ob) by apply lookup_insert_eq.
  assert (Ha1 : objs (heap w1) !! a = Some o).
  { simpl. rewrite lookup_insert_ne by auto. exact Ha. }
  assert (Hs1 : arrs (heap w1) !! s = Some ts) by apply lookup_insert_eq.
  assert (Hts1 : slice_elems (heap w1) (transports o) = Some ts).
  { change (slice_elems (alloc_arr (heap w) ts) (transports o) = Some ts).
    now apply slice_elems_alloc_arr. }
  exists b, s, w1.
  split; [apply (Clone_eq _ _ _ _ Ha Hts)|].
  split; [apply fresh_obj_None|]. split; [apply fresh_arr_None|].
  split; [exact Hb1|]. split; [exact Hs1|]. split; [exact Ha1|].
  split; [eapply transports_of_eq; eauto|].
  split; [eapply transports_of_eq; eauto|].
  split; [|split; [|split]].
  - intros ms. destruct (SetTransports_reads b ob ms w1 Hb1) as (w2 & E & Hb & Hoth).
    exists w2. split; [exact E|]. split; [|exact Hb].
    now apply (Hoth a o ts Hab Ha1 Hts1).
  - intros ss.
    destruct (SetTransportsFromStrings_reads b ob ss w1 Hb1) as (w2 & E & Hb & Hoth).
    exists w2. split; [exact E|]. split; [|exact Hb].
    now apply (Hoth a o ts Hab Ha1 Hts1).
  - intros ms. destruct (SetTransports_reads a o ms w1 Ha1) as (w2 & E & Hb & Hoth).
    exists w2. split; [exact E|]. split; [|exact Hb].
    apply (Hoth b ob ts); auto.
  - intros ss.
    destruct (SetTransportsFromStrings_reads a o ss w1 Ha1) as (w2 & E & Hb & Hoth).
    exists w2. split; [exact E|]. split; [|exact Hb].
    apply (Hoth b ob ts); auto.
Qed.

End CloneFacts.

Section EffectFacts.
Context `{Sub : Substrate}.

(** ** Extension of the store *)

Lemma mods_refl P h : mods P h h.
Proof. split; eauto. Qed.

Lemma mods_trans P h1 h2 h3 : mods P h1 h2 → mods P h2 h3 → mods P h1 h3.
Proof.
  intros [A1 O1] [A2 O2]. split; [eauto|].
  intros l o H. destruct (O1 l o H) as (o1 & H1 & V1 & E1).
  destruct (O2 l o1 H1) as (o2 & H2 & V2 & E2).
  exists o2. split; [exact H2|]. split; [congruence|].
  intros HP. rewrite (E2 HP). auto.
Qed.

Lemma mods_weaken (P Q : loc → Prop) h h' :
  (∀ l, is_Some (objs h !! l) → P l → Q l) → mods P h h' → mods Q h h'.
Proof.
  intros HPQ [A O]. split; [exact A|].
  intros l o H. destruct (O l o H) as (o' & H1 & V & E).
  exists o'. split; [exact H1|]. split; [exact V|].
  intros HQ. apply E. intros HP. apply HQ, HPQ; eauto.
Qed.

Lemma mods_alloc_obj P h o : mods P h (alloc_obj h o).
Proof.
  split; [auto|]. intros l o0 H. exists o0. split; [|auto].
  simpl. rewrite lookup_insert_ne; [exact H|].
  apply not_eq_sym. eauto using fresh_obj_ne.
Qed.

Lemma mods_alloc_arr P h ts : mods P h (alloc_arr h ts).
Proof.
  split; [|eauto]. intros s l H. simpl.
  rewrite lookup_insert_ne; [exact H|].
  apply not_eq_sym. eauto using fresh_arr_ne.
Qed.

Lemma mods_write_obj (P : loc → Prop) h x o o' :
  objs h !! x = Some o → value o' = value o → P x →
  mods P h (write_obj h x o').
Proof.
  intros Hx Hv HP. split; [auto|]. intros l o0 H. simpl.
  destruct (decide (l = x)) as [->|Hne].
  - exists o'. rewrite lookup_insert_eq. split; [reflexivity|].
    split; [congruence|]. intros HnP. contradiction.
  - exists o0. rewrite lookup_insert_ne by auto. auto.
Qed.

Lemma mods_dom P h h' l : mods P h h' → objs h' !! l = None → objs h !! l = None.
Proof.
  intros [_ O] H. destruct (objs h !! l) as [o|] eqn:E; [|reflexivity].
  destruct (O l o E) as (o' & H1 & _). congruence.
Qed.

(** ** Calls that leave the store and the node's fields alone *)

Lemma quiet_refl w : quiet w w.
Proof. split; reflexivity. Qed.

Lemma quiet_trans w1 w2 w3 : quiet w1 w2 → quiet w2 w3 → quiet w1 w3.
Proof. intros [? ?] [? ?]. split; congruence. Qed.

Lemma emit_inv e u w w' : emit e w = Done u w' → quiet w w'.
Proof. intros [= _ <-]. split; reflexivity. Qed.

Lemma log_inv lvl msg u w w' : log lvl msg w = Done u w' → quiet w w'.
Proof. apply emit_inv. Qed.

Lemma put_ext_inv x u w w' : put_ext x w = Done u w' → quiet w w'.
Proof. intros [= _ <-]. split; reflexivity. Qed.

Lemma get_ext_inv x w w' : get_ext w = Done x w' → w' = w.
Proof. now intros [= _ <-]. Qed.

Lemma get_heap_inv h w w' : get_heap w = Done h w' → w' = w ∧ h = heap w.
Proof. now intros [= <- <-]. Qed.

Lemma String_inv a s w w' :
  String_ a w = Done s w' →
  w' = w ∧ ∃ o, objs (heap w) !! a = Some o ∧ s = value o.
Proof.
  unfold String_. intros H. apply bind_inv in H as (o & w1 & H1 & H2).
  apply deref_inv in H1 as [-> H1]. apply ret_inv in H2 as [-> ->]. eauto.
Qed.

Lemma LibP2PTransports_inv a l w w' :
  LibP2PTransports a w = Done l w' →
  w' = w ∧ ∃ o ts, objs (heap w) !! a = Some o ∧
                   slice_elems (heap w) (transports o) = Some ts ∧
                   l = libp2p_of ts.
Proof.
  unfold LibP2PTransports. intros H. apply bind_inv in H as (ts & w1 & H1 & H2).
  apply transports_of_inv in H1 as [-> (o & Ho & Hts)].
  apply ret_inv in H2 as [-> ->]. eauto 6.
Qed.

Lemma AllTransports_inv a l w w' :
  AllTransports a w = Done l w' →
  w' = w ∧ ∃ o ts, objs (heap w) !! a = Some o ∧
                   slice_elems (heap w) (transports o) = Some ts ∧
                   l = all_of ts.
Proof.
  unfold AllTransports. intros H. apply bind_inv in H as (ts & w1 & H1 & H2).
  apply transports_of_inv in H1 as [-> (o & Ho & Hts)].
  apply ret_inv in H2 as [-> ->]. eauto 6.
Qed.

Lemma Transports_inv n l w w' : Transports n w = Done l w' → w' = w.
Proof.
  unfold Transports. destruct (p2pNode n); [|now intros [= _ <-]].
  now intros [= _ <-].
Qed.

Lemma GetTransports_quiet n a l w w' :
  GetTransports n a w = Done l w' → quiet w w'.
Proof.
  unfold GetTransports. intros H.
  apply bind_inv in H as (lts & w1 & H1 & H).
  apply LibP2PTransports_inv in H1 as [-> _].
  destruct (0 <? List.length lts)%nat.
  { apply ret_inv in H as [_ ->]. apply quiet_refl. }
  apply bind_inv in H as (u & w1 & H1 & H). apply log_inv in H1.
  eapply quiet_trans; [exact H1|].
  destruct (cfg_Leader (config n)).
  { apply LibP2PTransports_inv in H as [-> _]. apply quiet_refl. }
  destruct (String.eqb (Type_ n) NodeTypeLeader).
  - apply bind_inv in H as (u2 & w2 & H2 & H). apply log_inv in H2.
    eapply quiet_trans; [exact H2|].
    apply bind_inv in H as (ts & w3 & H3 & H). apply Transports_inv in H3 as ->.
    apply ret_inv in H as [_ ->]. apply quiet_refl.
  - apply bind_inv in H as (u2 & w2 & H2 & H). apply log_inv in H2.
    eapply quiet_trans; [exact H2|].
    apply ret_inv in H as [_ ->]. apply quiet_refl.
Qed.

Lemma Connect_quiet n nh t c w w' : Connect n nh t w = Done c w' → quiet w w'.
Proof.
  unfold Connect. destruct (connectionManager n) as [cm|].
  2:{ intros H. apply ret_inv in H as [_ ->]. apply quiet_refl. }
  intros H. apply bind_inv in H as (u & w1 & H1 & H). apply emit_inv in H1.
  eapply quiet_trans; [exact H1|].
  apply bind_inv in H as (h & w2 & H2 & H). apply get_heap_inv in H2 as [-> ->].
  apply bind_inv in H as (x & w2 & H2 & H). apply get_ext_inv in H2 as ->.
  apply bind_inv in H as (u2 & w2 & H2 & H). apply put_ext_inv in H2.
  eapply quiet_trans; [exact H2|].
  destruct (fst (cm_Connect cm _ _ _)) as [c0|e].
  - apply bind_inv in H as (s & w3 & H3 & H). apply String_inv in H3 as [-> _].
    apply bind_inv in H as (u3 & w3 & H3 & H). apply log_inv in H3.
    eapply quiet_trans; [exact H3|].
    apply ret_inv in H as [_ ->]. apply quiet_refl.
  - destruct (String.eqb e _); apply ret_inv in H as [_ ->]; apply quiet_refl.
Qed.

Lemma Send_quiet c p r w w' : Send c p w = Done r w' → quiet w w'.
Proof.
  unfold Send. intros H.
  apply bind_inv in H as (u & w1 & H1 & H). apply emit_inv in H1.
  eapply quiet_trans; [exact H1|].
  apply bind_inv in H as (x & w2 & H2 & H). apply get_ext_inv in H2 as ->.
  apply bind_inv in H as (u2 & w2 & H2 & H). apply put_ext_inv in H2.
  eapply quiet_trans; [exact H2|].
  apply ret_inv in H as [_ ->]. apply quiet_refl.
Qed.

Lemma Close_quiet c u w w' : Close c w = Done u w' → quiet w w'.
Proof.
  unfold Close. intros H.
  apply bind_inv in H as (u1 & w1 & H1 & H). apply emit_inv in H1.
  eapply quiet_trans; [exact H1|].
  apply bind_inv in H as (x & w2 & H2 & H). apply get_ext_inv in H2 as ->.
  now apply put_ext_inv in H.
Qed.

End EffectFacts.

Section UseFacts.
Context `{Sub : Substrate}.

(** ** Growth of the world *)

Lemma grows_refl P w : grows P w w.
Proof. split; [reflexivity | apply mods_refl]. Qed.

Lemma grows_trans P w1 w2 w3 : grows P w1 w2 → grows P w2 w3 → grows P w1 w3.
Proof. intros [V1 M1] [V2 M2]. split; [congruence | eauto using mods_trans]. Qed.

Lemma quiet_grows P w w' : quiet w w' → grows P w w'.
Proof. intros [H V]. split; [exact V|]. rewrite H. apply mods_refl. Qed.

Lemma NewOAddress_grows P v s p w w' :
  NewOAddress v s w = Done p w' →
  grows P w w' ∧ objs (heap w) !! p = None ∧
  objs (heap w') !! p = Some {| value := v; transports := s |}.
Proof.
  rewrite NewOAddress_eq. intros [= <- <-]. split; [|split].
  - split; [reflexivity | apply mods_alloc_obj].
  - apply fresh_obj_None.
  - apply lookup_insert_eq.
Qed.

Lemma make_slice_grows P ts s w w' :
  make_slice ts w = Done s w' →
  grows P w w' ∧ slice_elems (heap w') s = Some ts ∧ objs (heap w') = objs (heap w).
Proof.
  rewrite make_slice_eq. intros [= <- <-]. split; [|split].
  - split; [reflexivity | apply mods_alloc_arr].
  - apply slice_elems_alloc_arr_new.
  - reflexivity.
Qed.

Lemma NewOAddress_of_grows P v ts p w w' :
  NewOAddress_of v ts w = Done p w' →
  grows P w w' ∧ objs (heap w) !! p = None ∧ is_Some (objs (heap w') !! p).
Proof.
  unfold NewOAddress_of. destruct ts as [|t ts].
  - intros H. apply (NewOAddress_grows P) in H as (G & N & S). eauto.
  - intros H. apply bind_inv in H as (s & w1 & H1 & H).
    apply (make_slice_grows P) in H1 as (G1 & _ & E).
    apply (NewOAddress_grows P) in H as (G & N & S).
    split; [eauto using grows_trans|]. rewrite <- E. eauto.
Qed.

Lemma SetTransports_grows (P : loc → Prop) x ms u w w' :
  SetTransports x ms w = Done u w' → P x →
  grows P w w' ∧ is_Some (objs (heap w) !! x).
Proof.
  intros H HP. pose proof H as H0. unfold SetTransports in H0.
  apply bind_inv in H0 as (o & w1 & H1 & _). apply deref_inv in H1 as [_ Ho].
  rewrite (SetTransports_eq _ _ _ _ Ho) in H. destruct u. injection H as <-.
  split; [|eauto]. split; [reflexivity|]. simpl.
  eapply mods_trans; [apply mods_alloc_arr|].
  apply mods_write_obj with (o := o); auto.
Qed.

(** ** The resolvers of the substrate *)

Lemma external_Resolve_grows r a res w w' :
  ar_Resolve (external_resolver r) a w = Done res w' →
  grows (fun _ => False) w w' ∧
  ∀ p, res = Ok p →
       p = a ∨ (objs (heap w) !! p = None ∧ is_Some (objs (heap w') !! p)).
Proof.
  simpl. intros H.
  apply bind_inv in H as (u & w1 & H1 & H). apply emit_inv in H1.
  apply bind_inv in H as (h & w2 & H2 & H). apply get_heap_inv in H2 as [-> ->].
  apply bind_inv in H as (x & w2 & H2 & H). apply get_ext_inv in H2 as ->.
  apply bind_inv in H as (u2 & w2 & H2 & H). apply put_ext_inv in H2.
  assert (Q : quiet w w2) by eauto using quiet_trans.
  destruct (fst (xr_Resolve r a (heap w1) x)) as [e| |v ts].
  - apply ret_inv in H as [-> ->]. split; [now apply quiet_grows|]. discriminate.
  - apply ret_inv in H as [-> ->]. split; [now apply quiet_grows|].
    intros p [= <-]. now left.
  - apply bind_inv in H as (p & w3 & H3 & H). apply ret_inv in H as [-> ->].
    apply (NewOAddress_of_grows (fun _ => False)) in H3 as (G & N & S).
    split; [eapply grows_trans; [apply quiet_grows; exact Q | exact G]|].
    intros p' [= <-]. right. destruct Q as [Qh _]. rewrite <- Qh. auto.
Qed.

Lemma Resolve_external_grows rs a res w w' :
  Resolve (map external_resolver rs) a w = Done res w' →
  is_Some (objs (heap w) !! a) →
  grows (fun _ => False) w w' ∧
  ∃ p, res = Ok p ∧ is_Some (objs (heap w') !! p) ∧
       (p = a ∨ objs (heap w) !! p = None).
Proof.
  revert w. induction rs as [|r rs IH]; intros w H Ha; simpl in H.
  - apply ret_inv in H as [-> ->]. split; [apply grows_refl|]. eauto.
  - apply bind_inv in H as (r1 & w1 & H1 & H).
    apply external_Resolve_grows in H1 as [G1 R1].
    destruct r1 as [p|e].
    + apply ret_inv in H as [-> ->]. split; [exact G1|].
      exists p. split; [reflexivity|].
      destruct (R1 p eq_refl) as [->|[N S]]; [|auto].
      split; [|auto]. destruct Ha as [o Ho].
      destruct G1 as [_ [_ O]]. destruct (O _ _ Ho) as (o' & Ho' & _). eauto.
    + assert (Ha1 : is_Some (objs (heap w1) !! a)).
      { destruct Ha as [o Ho]. destruct G1 as [_ [_ O]].
        destruct (O _ _ Ho) as (o' & Ho' & _). eauto. }
      destruct (IH w1 H Ha1) as (G & p & -> & S & C).
      split; [eauto using grows_trans|].
      exists p. split; [reflexivity|]. split; [exact S|].
      destruct C as [->|N]; [now left|right].
      destruct G1 as [_ Hm]. eauto using mods_dom.
Qed.

End UseFacts.

Section StaticFacts.
Context `{Sub : Substrate}.

(** ** Static translation, up to the registry search *)

Lemma HasPrefix_eq a o prefix w :
  objs (heap w) !! a = Some o →
  HasPrefix a prefix w = Done (strings.HasPrefix (value o) prefix) w.
Proof. intros H. unfold HasPrefix, bind. now rewrite (deref_Some _ _ _ H). Qed.

Lemma LibP2PTransports_eq a o ts w :
  objs (heap w) !! a = Some o →
  slice_elems (heap w) (transports o) = Some ts →
  LibP2PTransports a w = Done (libp2p_of ts) w.
Proof.
  intros H1 H2. unfold LibP2PTransports, bind.
  now rewrite (transports_of_eq _ _ _ _ H1 H2).
Qed.

Lemma AllTransports_eq a o ts w :
  objs (heap w) !! a = Some o →
  slice_elems (heap w) (transports o) = Some ts →
  AllTransports a w = Done (all_of ts) w.
Proof.
  intros H1 H2. unfold AllTransports, bind.
  now rewrite (transports_of_eq _ _ _ _ H1 H2).
Qed.

Lemma Root_eq a o w :
  objs (heap w) !! a = Some o → Root a w = Done (root_value (value o)) w.
Proof. intros H. unfold Root, bind. now rewrite (deref_Some _ _ _ H). Qed.

Lemma SplitAddress_eq a o w :
  objs (heap w) !! a = Some o → SplitAddress a w = Done (split_value (value o)) w.
Proof. intros H. unfold SplitAddress, bind. now rewrite (deref_Some _ _ _ H). Qed.

Lemma String_eq a o w :
  objs (heap w) !! a = Some o → String_ a w = Done (value o) w.
Proof. intros H. unfold String_, bind. now rewrite (deref_Some _ _ _ H). Qed.

(** In the world of the search, the search address is the registry's and
    every address that was there is as it was. *)
Lemma search_world_addr w ts :
  ∃ o, objs (heap (search_world w ts)) !! search_addr w = Some o ∧
       value o = "o://leader/register".
Proof. eexists. split; [apply lookup_insert_eq | reflexivity]. Qed.

Lemma search_world_old w ts a o :
  objs (heap w) !! a = Some o →
  objs (heap (search_world w ts)) !! a = Some o.
Proof.
  intros H. assert (a ≠ search_addr w) by (eapply fresh_obj_ne; eauto).
  simpl. now rewrite !lookup_insert_ne by auto.
Qed.

Lemma search_world_grows w ts : grows (only_new (heap w)) w (search_world w ts).
Proof.
  split; [reflexivity|]. simpl.
  eapply mods_trans; [apply mods_alloc_obj|].
  eapply mods_trans; [apply mods_alloc_arr|].
  eapply mods_write_obj with (o := {| value := _; transports := None |}).
  - apply lookup_insert_eq.
  - reflexivity.
  - apply fresh_obj_None.
Qed.

Lemma HandleStatic_eq use a oa ts w :
  objs (heap w) !! a = Some oa →
  slice_elems (heap w) (transports oa) = Some ts →
  HandleStaticAddressTranslation use a w =
  if strings.HasPrefix (value oa) "o://leader" then Done (Ok a) w
  else bind (use (search_addr w) "search"
                 [("staticAddress", AStr (root_value (value oa)))]
                 search_options)
            (static_search_result a) (search_world w ts).
Proof.
  intros Ha Hts. unfold HandleStaticAddressTranslation.
  rewrite (bind_Done _ _ _ _ _ (HasPrefix_eq _ _ _ _ Ha)).
  destruct (strings.HasPrefix (value oa) "o://leader"); [reflexivity|].
  cbn [negb]. rewrite (bind_Done _ _ _ _ _ (NewOAddress_eq _ _ _)).
  set (w1 := with_heap w (alloc_obj (heap w) _)).
  assert (Hne : a ≠ search_addr w) by (eapply fresh_obj_ne; eauto).
  assert (Ha1 : objs (heap w1) !! a = Some oa).
  { simpl. now rewrite lookup_insert_ne by auto. }
  rewrite (bind_Done _ _ _ _ _ (LibP2PTransports_eq _ _ _ w1 Ha1 Hts)).
  assert (Hs1 : objs (heap w1) !! search_addr w
                = Some {| value := "o://leader/register"; transports := None |})
    by apply lookup_insert_eq.
  rewrite (bind_Done _ _ _ _ _ (SetTransports_eq _ _ _ _ Hs1)).
  change (with_heap w1 _) with (search_world w ts).
  rewrite (bind_Done _ _ _ _ _ (Root_eq _ _ _ (search_world_old w ts _ _ Ha))).
  reflexivity.
Qed.

Lemma HandleStatic_inv use a res w w' :
  HandleStaticAddressTranslation use a w = Done res w' →
  ∃ oa, objs (heap w) !! a = Some oa ∧
    if strings.HasPrefix (value oa) "o://leader" then res = Ok a ∧ w' = w
    else ∃ ts, slice_elems (heap w) (transports oa) = Some ts ∧
         bind (use (search_addr w) "search"
                   [("staticAddress", AStr (root_value (value oa)))]
                   search_options)
              (static_search_result a) (search_world w ts) = Done res w'.
Proof.
  intros H. pose proof H as H0. unfold HandleStaticAddressTranslation in H0.
  apply bind_inv in H0 as (under & w1 & H1 & H0).
  unfold HasPrefix in H1. apply bind_inv in H1 as (oa & w2 & H1 & H2).
  apply deref_inv in H1 as [-> Ha]. apply ret_inv in H2 as [-> ->].
  exists oa. split; [exact Ha|].
  destruct (strings.HasPrefix (value oa) "o://leader") eqn:E.
  - cbn in H0. apply ret_inv in H0. tauto.
  - cbn [negb] in H0.
    apply bind_inv in H0 as (s & w2 & H2 & H0).
    apply bind_inv in H0 as (lts & w3 & H3 & _).
    rewrite NewOAddress_eq in H2. injection H2 as <- <-.
    apply LibP2PTransports_inv in H3 as [_ (o & ts & Ho & Hts & _)].
    assert (Hne : a ≠ search_addr w) by (eapply fresh_obj_ne; eauto).
    simpl in Ho. rewrite lookup_insert_ne in Ho by auto.
    assert (o = oa) as -> by congruence.
    exists ts. split; [exact Hts|].
    rewrite (HandleStatic_eq use a oa ts w Ha Hts), E in H. exact H.
Qed.

(** ** Static translation, from the answer of the search on *)

Lemma static_search_result_grows a r res w w' :
  static_search_result a r w = Done res w' →
  grows (fun _ => False) w w' ∧
  ∃ p, res = Ok p ∧ (p = a ∨ (objs (heap w) !! p = None ∧
                              is_Some (objs (heap w') !! p))).
Proof.
  unfold static_search_result. intros H.
  assert (Same : ∀ w0 w1 : World, quiet w0 w1 →
            grows (fun _ => False) w0 w1 ∧
            ∃ p, Ok a = Ok p ∧ (p = a ∨ (objs (heap w0) !! p = None ∧
                                         is_Some (objs (heap w1) !! p)))).
  { intros w0 w1 Q. split; [now apply quiet_grows | eauto]. }
  destruct r as [response|err].
  2:{ apply bind_inv in H as (u & w1 & H1 & H). apply log_inv in H1.
      apply ret_inv in H as [-> ->]. now apply Same. }
  destruct (resp_Result response) as [| | | | | |m]; try discriminate.
  { apply ret_inv in H as [-> ->]. apply Same, quiet_refl. }
  assert (Warn : ∀ msg, (run log LWarn msg in ret (Ok a)) w = Done res w' →
            grows (fun _ => False) w w' ∧
            ∃ p, res = Ok p ∧ (p = a ∨ (objs (heap w) !! p = None ∧
                                        is_Some (objs (heap w') !! p)))).
  { intros msg H'. apply bind_inv in H' as (u & w1 & H1 & H').
    apply log_inv in H1. apply ret_inv in H' as [-> ->]. now apply Same. }
  destruct (map_index m "data") as [| | | | |l|]; try (apply (Warn _ H)).
  destruct l as [|first l]; [apply (Warn _ H)|].
  destruct first as [| | | | | |fr];
    try (apply ret_inv in H as [-> ->]; apply Same, quiet_refl).
  destruct (map_index fr "address") as [| | |canon| | |];
    try (apply ret_inv in H as [-> ->]; apply Same, quiet_refl).
  apply bind_inv in H as (parts & w1 & H1 & H).
  unfold SplitAddress in H1. apply bind_inv in H1 as (o & w2 & H1 & H2).
  apply deref_inv in H1 as [-> _]. apply ret_inv in H2 as [-> ->].
  apply bind_inv in H as (all & w1 & H1 & H).
  apply AllTransports_inv in H1 as [-> _].
  apply bind_inv in H as (s & w1 & H1 & H).
  apply (make_slice_grows (fun _ => False)) in H1 as (G1 & _ & E1).
  apply bind_inv in H as (p & w2 & H2 & H).
  apply (NewOAddress_grows (fun _ => False)) in H2 as (G2 & N & S).
  apply ret_inv in H as [-> ->].
  split; [eauto using grows_trans|].
  exists p. split; [reflexivity|]. right. rewrite <- E1. eauto.
Qed.

End StaticFacts.

Section UseEffect.
Context `{Sub : Substrate}.

(** ** The effect of a dispatch *)

Lemma incrementSuccessCount_eq w :
  incrementSuccessCount w = Done tt (with_vars w (bump true (vars w))).
Proof. reflexivity. Qed.

Lemma incrementErrorCount_eq w :
  incrementErrorCount w = Done tt (with_vars w (bump false (vars w))).
Proof. reflexivity. Qed.

Lemma bumps_app l1 l2 v : bumps (l1 ++ l2) v = bumps l2 (bumps l1 v).
Proof. unfold bumps. apply fold_left_app. Qed.

Lemma mods_still P h h' l :
  mods P h h' → is_Some (objs h !! l) → is_Some (objs h' !! l).
Proof. intros [_ O] [o Ho]. destruct (O _ _ Ho) as (o' & Ho' & _). eauto. Qed.

Lemma HandleStatic_effect use a res w w' :
  dispatches use →
  HandleStaticAddressTranslation use a w = Done res w' →
  ∃ oa nested p,
    objs (heap w) !! a = Some oa ∧ res = Ok p ∧
    (p = a ∨ objs (heap w) !! p = None) ∧ is_Some (objs (heap w') !! p) ∧
    mods (only_new (heap w)) (heap w) (heap w') ∧
    vars w' = bumps nested (vars w) ∧
    List.length nested =
      (if strings.HasPrefix (value oa) "o://leader" then 0 else 1)%nat.
Proof.
  intros Huse H. apply HandleStatic_inv in H as (oa & Ha & H).
  exists oa. destruct (strings.HasPrefix (value oa) "o://leader").
  { destruct H as [-> ->]. exists [], a.
    repeat split; eauto using mods_refl. }
  destruct H as (ts & Hts & H).
  apply bind_inv in H as (rr & w2 & H1 & H2).
  apply Huse in H1 as (os & nested' & Hs & Hm & Hv & Hl).
  destruct (search_world_addr w ts) as (os' & Hs' & Hval).
  assert (os = os') as -> by congruence. rewrite Hval in Hl.
  change (strings.HasPrefix "o://leader/register" "o://leader") with true in Hl.
  destruct nested'; [|discriminate]. cbn in Hv.
  apply static_search_result_grows in H2 as ([V2 M2] & p & -> & Hp).
  destruct (search_world_grows w ts) as [V0 M0].
  assert (M : mods (only_new (heap w)) (heap w) (heap w')).
  { eapply mods_trans; [exact M0|]. eapply mods_trans.
    - eapply mods_weaken; [|exact Hm].
      intros l [ol Hl'] [->|N]; [apply fresh_obj_None | congruence].
    - eapply mods_weaken; [|exact M2]. intros l _ []. }
  exists [is_ok rr], p. split; [exact Ha|]. split; [reflexivity|].
  split; [|split; [|split; [exact M|split; [|reflexivity]]]].
  - destruct Hp as [->|[N _]]; [now left | right].
    apply (mods_dom _ _ _ _ M0). eapply mods_dom; eauto.
  - destruct Hp as [->|[_ S]]; [|exact S].
    eapply mods_still; [exact M | eauto].
  - cbn. rewrite V2, Hv. reflexivity.
Qed.

Lemma TranslateAddress_effect use n a res w w' :
  dispatches use →
  TranslateAddress use n a w = Done res w' →
  ∃ oa nested tr,
    objs (heap w) !! a = Some oa ∧ res = Ok tr ∧
    mods (own_or_new (heap w) a) (heap w) (heap w') ∧
    vars w' = bumps nested (vars w) ∧
    List.length nested =
      (if strings.HasPrefix (value oa) "o://leader" then 0 else 1)%nat.
Proof.
  intros Huse H. unfold TranslateAddress in H.
  apply bind_inv in H as (r1 & w1 & H1 & H).
  apply (HandleStatic_effect _ _ _ _ _ Huse) in H1
    as (oa & nested & p & Ha & -> & Hp & Sp & M1 & V1 & L).
  apply bind_inv in H as (r2 & w2 & H2 & H).
  apply Resolve_external_grows in H2 as ([V2 M2] & q & -> & Sq & Hq); [|exact Sp].
  apply bind_inv in H as (lts & w3 & H3 & H).
  apply GetTransports_quiet in H3 as [Hh3 V3].
  apply bind_inv in H as (u & w4 & H4 & H).
  apply ret_inv in H as [-> ->].
  assert (Pq : own_or_new (heap w) a q).
  { destruct Hq as [->|N]; [exact Hp | right].
    eapply mods_dom; eauto. }
  apply (SetTransports_grows (own_or_new (heap w) a)) in H4 as [[V4 M4] _]; [|exact Pq].
  exists oa, nested, {| NextHopAddress := q; TargetAddress := p |}.
  split; [exact Ha|]. split; [reflexivity|]. split; [|split; [|exact L]].
  - eapply mods_trans; [eapply mods_weaken; [|exact M1]|].
    { intros l _ N. now right. }
    eapply mods_trans; [eapply mods_weaken; [|exact M2]|].
    { intros l _ []. }
    rewrite <- Hh3. exact M4.
  - rewrite V4, V3, V2. exact V1.
Qed.

Lemma Use_fuel_effect fuel n a m p o r w w' :
  Use_fuel fuel n a m p o w = Done r w' → Use_effect a w r w'.
Proof.
  revert a m p o r w w'.
  induction fuel as [|fuel IH]; intros a m p o r w w' H; [discriminate|].
  cbn [Use_fuel] in H.
  apply bind_inv in H as (r1 & w1 & H1 & H).
  apply TranslateAddress_effect in H1 as (oa & nested & tr & Ha & -> & M & V & L).
  2:{ intros s m' p' o' wa r' wb. apply IH. }
  exists oa, nested. split; [exact Ha|].
  apply bind_inv in H as (c & w2 & H2 & H).
  apply Connect_quiet in H2 as [Hh2 V2].
  destruct c as [connection|err].
  2:{ apply bind_inv in H as (u & w3 & H3 & H).
      rewrite incrementErrorCount_eq in H3. injection H3 as ? <-.
      apply ret_inv in H as [-> ->]. cbn.
      split; [now rewrite Hh2|]. split; [now rewrite V2, V | exact L]. }
  apply bind_inv in H as (t & w3 & H3 & H). apply String_inv in H3 as [-> _].
  apply bind_inv in H as (r3 & w3 & H3 & H).
  apply Send_quiet in H3 as [Hh3 V3].
  destruct r3 as [response|err].
  - apply bind_inv in H as (u & w4 & H4 & H).
    rewrite incrementSuccessCount_eq in H4. injection H4 as ? <-.
    apply bind_inv in H as (u2 & w5 & H5 & H).
    apply Close_quiet in H5 as [Hh5 V5]. cbn [heap vars with_vars] in Hh5, V5.
    apply ret_inv in H as [-> ->].
    split; [now rewrite Hh5, Hh3, Hh2|].
    split; [|exact L]. rewrite V5. now rewrite V3, V2, V.
  - apply bind_inv in H as (u & w4 & H4 & H).
    rewrite incrementErrorCount_eq in H4. injection H4 as ? <-.
    apply bind_inv in H as (u2 & w5 & H5 & H).
    apply Close_quiet in H5 as [Hh5 V5]. cbn [heap vars with_vars] in Hh5, V5.
    apply ret_inv in H as [-> ->].
    split; [now rewrite Hh5, Hh3, Hh2|].
    split; [|exact L]. rewrite V5. now rewrite V3, V2, V.
Qed.

End UseEffect.

Section Fuel.
Context `{Sub : Substrate}.

(** ** Two levels of [Use] are all there are *)

Lemma HandleStatic_under use a oa w :
  objs (heap w) !! a = Some oa →
  strings.HasPrefix (value oa) "o://leader" = true →
  HandleStaticAddressTranslation use a w = Done (Ok a) w.
Proof.
  intros Ha Hp. unfold HandleStaticAddressTranslation.
  rewrite (bind_Done _ _ _ _ _ (HasPrefix_eq _ _ _ _ Ha)), Hp. reflexivity.
Qed.

(** Static translation calls [use] on the registry's address only. *)
Lemma HandleStatic_ext use use' a w :
  (∀ s os m p o w1, objs (heap w1) !! s = Some os →
     strings.HasPrefix (value os) "o://leader" = true →
     use s m p o w1 = use' s m p o w1) →
  HandleStaticAddressTranslation use a w = HandleStaticAddressTranslation use' a w.
Proof.
  intros Hext. unfold HandleStaticAddressTranslation, bind.
  destruct (HasPrefix a "o://leader" w) as [under w1| |]; [|reflexivity..].
  destruct (negb under); [|reflexivity].
  rewrite NewOAddress_eq.
  set (w2 := with_heap w1 _).
  destruct (LibP2PTransports a w2) as [lts w3| |] eqn:E3; [|reflexivity..].
  apply LibP2PTransports_inv in E3 as [-> _].
  assert (Hs : objs (heap w2) !! fresh (dom (objs (heap w1)))
               = Some {| value := "o://leader/register"; transports := None |})
    by apply lookup_insert_eq.
  rewrite (SetTransports_eq _ _ _ _ Hs).
  set (w4 := with_heap w2 _).
  destruct (Root a w4) as [root w5| |] eqn:E5; [|reflexivity..].
  unfold Root in E5. apply bind_inv in E5 as (o5 & w6 & E5 & E6).
  apply deref_inv in E5 as [-> _]. apply ret_inv in E6 as [_ ->].
  erewrite Hext; [reflexivity| |].
  - subst w4. simpl. apply lookup_insert_eq.
  - reflexivity.
Qed.

Lemma TranslateAddress_ext use use' n a w :
  HandleStaticAddressTranslation use a w = HandleStaticAddressTranslation use' a w →
  TranslateAddress use n a w = TranslateAddress use' n a w.
Proof. intros H. unfold TranslateAddress. now apply bind_ext_l. Qed.

Lemma Use_fuel_S_ext k k' n a m p o w :
  HandleStaticAddressTranslation (Use_fuel k n) a w
  = HandleStaticAddressTranslation (Use_fuel k' n) a w →
  Use_fuel (S k) n a m p o w = Use_fuel (S k') n a m p o w.
Proof.
  intros H. cbn [Use_fuel]. now apply bind_ext_l, TranslateAddress_ext.
Qed.

Lemma Use_fuel_under fuel n a oa m p o w :
  objs (heap w) !! a = Some oa →
  strings.HasPrefix (value oa) "o://leader" = true →
  Use_fuel (S fuel) n a m p o w = Use_fuel 1 n a m p o w.
Proof.
  intros Ha Hp. apply Use_fuel_S_ext.
  now rewrite !(HandleStatic_under _ _ _ _ Ha Hp).
Qed.

(** More fuel than two changes nothing: [Use] is the function of the
    code, at every depth it can reach. *)
Lemma Use_fuel_enough fuel n a m p o w :
  Use_fuel (S (S fuel)) n a m p o w = Use n a m p o w.
Proof.
  unfold Use. apply (Use_fuel_S_ext (S fuel) 1), HandleStatic_ext.
  intros s os m' p' o' w1 Hs Hp. now apply Use_fuel_under with (oa := os).
Qed.

(** ** [Use] never runs out of fuel *)

Lemma fueled_get_heap : fueled get_heap.
Proof. intros w. discriminate. Qed.
Lemma fueled_put_heap h : fueled (put_heap h).
Proof. intros w. discriminate. Qed.
Lemma fueled_get_vars : fueled get_vars.
Proof. intros w. discriminate. Qed.
Lemma fueled_put_vars v : fueled (put_vars v).
Proof. intros w. discriminate. Qed.
Lemma fueled_get_ext : fueled get_ext.
Proof. intros w. discriminate. Qed.
Lemma fueled_put_ext x : fueled (put_ext x).
Proof. intros w. discriminate. Qed.
Lemma fueled_emit e : fueled (emit e).
Proof. intros w. discriminate. Qed.
Lemma fueled_panic {A} msg : fueled (@panic _ A msg).
Proof. intros w. discriminate. Qed.
Lemma fueled_deref a : fueled (deref a).
Proof. intros w. unfold deref. destruct (_ !! _); discriminate. Qed.
Lemma fueled_read_slice s : fueled (read_slice s).
Proof. intros w. unfold read_slice. destruct (slice_elems _ _); discriminate. Qed.

Create HintDb fueled.
Create HintDb fueled_unfold.

#[local] Hint Resolve fueled_get_heap fueled_put_heap fueled_get_vars
  fueled_put_vars fueled_get_ext fueled_put_ext fueled_emit fueled_panic
  fueled_deref fueled_read_slice : fueled.

#[local] Hint Unfold make_slice new_object store transports_of NewOAddress
  NewOAddress_of SetTransports LibP2PTransports AllTransports Root String_
  SplitAddress HasPrefix log Transports GetTransports Connect Send Close
  incrementErrorCount incrementSuccessCount static_search_result
  : fueled_unfold.

Ltac fuel_step :=
  lazymatch goal with
  | |- fueled (bind _ _) => apply fueled_bind; [|intros ?]
  | |- fueled (ret _) => apply fueled_ret
  | |- fueled (match ?x with _ => _ end) => destruct x
  | |- fueled _ =>
      first [ solve [auto with fueled] | progress autounfold with fueled_unfold ]
  end.

Ltac fuel := repeat fuel_step.

Lemma fueled_static_search_result a r : fueled (static_search_result a r).
Proof. fuel. Qed.

Lemma fueled_Resolve rs a : fueled (Resolve (map external_resolver rs) a).
Proof.
  induction rs as [|r rs IH]; simpl; [apply fueled_ret|].
  apply fueled_bind; [fuel|]. intros [p|e]; [apply fueled_ret | exact IH].
Qed.

Lemma fueled_HasPrefix a prefix : fueled (HasPrefix a prefix).
Proof. fuel. Qed.

Lemma fueled_LibP2PTransports a : fueled (LibP2PTransports a).
Proof. fuel. Qed.

Lemma fueled_Root a : fueled (Root a).
Proof. fuel. Qed.

(** Static translation runs out of fuel only if its search does. *)
Lemma HandleStatic_fueled use a w :
  (∀ s os m p o w1, objs (heap w1) !! s = Some os →
     strings.HasPrefix (value os) "o://leader" = true →
     use s m p o w1 ≠ OutOfFuel) →
  HandleStaticAddressTranslation use a w ≠ OutOfFuel.
Proof.
  intros Huse. unfold HandleStaticAddressTranslation, bind.
  destruct (HasPrefix a "o://leader" w) as [under w1| |] eqn:E1;
    [|discriminate|destruct (fueled_HasPrefix _ _ _ E1)].
  destruct (negb under); [|discriminate].
  rewrite NewOAddress_eq.
  set (w2 := with_heap w1 _).
  destruct (LibP2PTransports a w2) as [lts w3| |] eqn:E3;
    [|discriminate|destruct (fueled_LibP2PTransports _ _ E3)].
  apply LibP2PTransports_inv in E3 as [-> _].
  assert (Hs : objs (heap w2) !! fresh (dom (objs (heap w1)))
               = Some {| value := "o://leader/register"; transports := None |})
    by apply lookup_insert_eq.
  rewrite (SetTransports_eq _ _ _ _ Hs).
  set (w4 := with_heap w2 _).
  destruct (Root a w4) as [root w5| |] eqn:E5;
    [|discriminate|destruct (fueled_Root _ _ E5)].
  unfold Root in E5. apply bind_inv in E5 as (o5 & w6 & E5 & E6).
  apply deref_inv in E5 as [-> _]. apply ret_inv in E6 as [_ ->].
  destruct (use _ _ _ _ w4) as [r w5| |] eqn:E6; [|discriminate|].
  - apply fueled_static_search_result.
  - exfalso. revert E6.
    eapply Huse; [subst w4; simpl; apply lookup_insert_eq | reflexivity].
Qed.

(** What follows static translation in [Use] never runs out of fuel. *)
Lemma Use_fuel_S_fueled k n a m p o w :
  HandleStaticAddressTranslation (Use_fuel k n) a w ≠ OutOfFuel →
  Use_fuel (S k) n a m p o w ≠ OutOfFuel.
Proof.
  intros H. cbn [Use_fuel]. apply fueled_bind_at.
  - unfold TranslateAddress. apply fueled_bind_at; [exact H|].
    intros [target|err]; [|apply fueled_ret].
    apply fueled_bind; [apply fueled_Resolve|].
    intros [nextHop|err]; [|apply fueled_ret]. fuel.
  - intros [tr|err]; fuel.
Qed.

Lemma Use_fueled n a m p o : fueled (Use n a m p o).
Proof.
  intros w. unfold Use. apply Use_fuel_S_fueled, HandleStatic_fueled.
  intros s os m' p' o' w1 Hs Hp. apply Use_fuel_S_fueled.
  rewrite (HandleStatic_under _ _ _ _ Hs Hp). discriminate.
Qed.

End Fuel.

Section ResolverChain.
Context `{Sub : Substrate}.

(** ** The resolver chain *)

Lemma Resolve_no_match rs a w w' :
  no_match a rs w w' → Resolve rs a w = Done (Ok a) w'.
Proof.
  induction 1 as [w|r rs e w w1 w' Hr _ IH]; [reflexivity|].
  cbn [Resolve]. now rewrite (bind_Done _ _ _ _ _ Hr).
Qed.

Lemma Resolve_app_no_match pre rs a w w1 :
  no_match a pre w w1 → Resolve (pre ++ rs)%list a w = Resolve rs a w1.
Proof.
  induction 1 as [w|r pre e w w1 w' Hr _ IH]; [reflexivity|].
  cbn [app Resolve]. now rewrite (bind_Done _ _ _ _ _ Hr).
Qed.

Lemma Resolve_never_fails rs a w e w' : Resolve rs a w ≠ Done (Err e) w'.
Proof.
  revert w. induction rs as [|r rs IH]; intros w; cbn [Resolve].
  - discriminate.
  - unfold bind. destruct (ar_Resolve r a w) as [[p|e'] w1| |];
      [discriminate | apply IH | discriminate..].
Qed.

(** C3.  [Resolve] returns what the first resolver in registration order
    that matches returns, without running the later ones; when none matches,
    and so when none is registered, it returns the address it was given;
    it never returns an error.  Conversely every result of [Resolve] comes
    about in one of these two ways. *)
Theorem Resolve_first_match (a : loc) :
  (∀ w, Resolve [] a w = Done (Ok a) w) ∧
  (∀ rs w w', no_match a rs w w' → Resolve rs a w = Done (Ok a) w') ∧
  (∀ pre r post w w1 x w',
     no_match a pre w w1 →
     ar_Resolve r a w1 = Done (Ok x) w' →
     Resolve (pre ++ r :: post)%list a w = Done (Ok x) w') ∧
  (∀ rs w e w', Resolve rs a w ≠ Done (Err e) w') ∧
  (∀ rs w res w',
     Resolve rs a w = Done res w' →
     (res = Ok a ∧ no_match a rs w w') ∨
     (∃ pre r post w1 x,
        rs = (pre ++ r :: post)%list ∧ no_match a pre w w1 ∧
        ar_Resolve r a w1 = Done (Ok x) w' ∧ res = Ok x)).
Proof.
  split; [reflexivity|]. split; [intros; now apply Resolve_no_match|].
  split; [|split; [intros; apply Resolve_never_fails|]].
  - intros pre r post w w1 x w' Hpre Hr.
    rewrite (Resolve_app_no_match _ _ _ _ _ Hpre). cbn [Resolve].
    now rewrite (bind_Done _ _ _ _ _ Hr).
  - intros rs. induction rs as [|r rs IH]; intros w res w' H; cbn [Resolve] in H.
    + apply ret_inv in H as [-> ->]. left. split; [reflexivity | constructor].
    + apply bind_inv in H as ([x|e] & w1 & Hr & H).
      * apply ret_inv in H as [-> ->]. right.
        exists [], r, rs, w, x. repeat split; [constructor | exact Hr].
      * destruct (IH _ _ _ H) as [[-> Hn]|(pre & r' & post & w2 & x & -> & Hn & Hr' & ->)].
        -- left. split; [reflexivity | econstructor; eauto].
        -- right. exists (r :: pre), r', post, w2, x.
           repeat split; [econstructor; eauto | exact Hr'].
Qed.

End ResolverChain.

Section TransportLocator.
Context `{Sub : Substrate}.

(** ** The transport locator *)

Lemma parse_transports_round_trip mas :
  round_trips mas → parse_transports (map ma_String mas) = mas.
Proof.
  induction mas as [|ma mas IH]; intros H; [reflexivity|].
  cbn [map parse_transports]. rewrite (H ma) by constructor.
  f_equal. apply IH. intros ma' Hin. apply H. now constructor.
Qed.

Lemma GetTransports_explicit n a oa ts w :
  objs (heap w) !! a = Some oa →
  slice_elems (heap w) (transports oa) = Some ts →
  libp2p_of ts ≠ [] →
  GetTransports n a w = Done (libp2p_of ts) w.
Proof.
  intros Ha Hts Hne. unfold GetTransports.
  rewrite (bind_Done _ _ _ _ _ (LibP2PTransports_eq _ _ _ _ Ha Hts)).
  destruct (libp2p_of ts); [contradiction | reflexivity].
Qed.

Lemma GetTransports_fallback n a oa ts w :
  objs (heap w) !! a = Some oa →
  slice_elems (heap w) (transports oa) = Some ts →
  libp2p_of ts = [] →
  GetTransports n a w =
  match cfg_Leader (config n) with
  | None =>
      if String.eqb (Type_ n) NodeTypeLeader then
        Done (parse_transports
                match p2pNode n with
                | None => []
                | Some h => map ma_String (host_Addrs h (ext w))
                end)
             (logged w [debug_search;
                        EvLog LDebug "Node is a leader, using own transports"])
      else
        Done [] (logged w [debug_search;
                           EvLog LWarn
                             "Not within a network, cannot search for addressed node without leader"])
  | Some leader => LibP2PTransports leader (logged w [debug_search])
  end.
Proof.
  intros Ha Hts Hnil. unfold GetTransports.
  rewrite (bind_Done _ _ _ _ _ (LibP2PTransports_eq _ _ _ _ Ha Hts)), Hnil.
  cbn [List.length Nat.ltb Nat.leb]. unfold bind at 1. cbn [log emit].
  set (w1 := {| heap := heap w; vars := vars w; ext := ext w;
                events := (events w ++ [_])%list |}).
  destruct (cfg_Leader (config n)) as [leader|]; [reflexivity|].
  destruct (String.eqb (Type_ n) NodeTypeLeader).
  - unfold bind, Transports. cbn [log emit].
    destruct (p2pNode n); cbn; unfold logged; cbn;
      now rewrite <- app_assoc.
  - unfold bind. cbn [log emit ret]. unfold logged. cbn.
    now rewrite <- app_assoc.
Qed.

(** C6.  [GetTransports] looks at the multiaddr hints of the address only.
    If there is one, it returns the multiaddr hints, in order, and logs
    nothing.  Otherwise, with no leader configured, a node of type leader
    returns the addresses of its host (given that they print and parse
    back), another node returns nothing and logs a warning; and with a
    leader configured, the node returns the multiaddr hints of the leader's
    address. *)
Theorem GetTransports_precedence n a oa ts w :
  objs (heap w) !! a = Some oa →
  slice_elems (heap w) (transports oa) = Some ts →
  (libp2p_of ts ≠ [] → GetTransports n a w = Done (libp2p_of ts) w) ∧
  (libp2p_of ts = [] → cfg_Leader (config n) = None →
   Type_ n = NodeTypeLeader →
   ∀ h, p2pNode n = Some h → round_trips (host_Addrs h (ext w)) →
   GetTransports n a w =
   Done (host_Addrs h (ext w))
        (logged w [debug_search;
                   EvLog LDebug "Node is a leader, using own transports"])) ∧
  (libp2p_of ts = [] → cfg_Leader (config n) = None →
   Type_ n ≠ NodeTypeLeader →
   GetTransports n a w =
   Done [] (logged w [debug_search;
                      EvLog LWarn
                        "Not within a network, cannot search for addressed node without leader"])) ∧
  (libp2p_of ts = [] →
   ∀ leader ol tl, cfg_Leader (config n) = Some leader →
   objs (heap w) !! leader = Some ol →
   slice_elems (heap w) (transports ol) = Some tl →
   GetTransports n a w = Done (libp2p_of tl) (logged w [debug_search])).
Proof.
  intros Ha Hts. split; [now apply GetTransports_explicit with (oa := oa)|].
  split; [|split].
  - intros Hnil Hl Hty h Hh Hrt.
    rewrite (GetTransports_fallback _ _ _ _ _ Ha Hts Hnil), Hl, Hty, Hh.
    cbn [String.eqb]. rewrite String.eqb_refl.
    now rewrite parse_transports_round_trip.
  - intros Hnil Hl Hty.
    rewrite (GetTransports_fallback _ _ _ _ _ Ha Hts Hnil), Hl.
    apply String.eqb_neq in Hty. now rewrite Hty.
  - intros Hnil leader ol tl Hl Hol Htl.
    rewrite (GetTransports_fallback _ _ _ _ _ Ha Hts Hnil), Hl.
    now apply LibP2PTransports_eq with (o := ol).
Qed.

End TransportLocator.

Section Lifecycle.
Context `{Sub : Substrate}.

(** ** Start *)

(** C7.  [Start] on a node that is not [Stopped] returns nil; it logs one
    warning and does nothing else: the state, the counters, the error log,
    the store and the collaborators are as they were, and no event of
    [Initialize] or [Register] is there. *)
Theorem Start_not_stopped n w :
  state (vars w) ≠ NodeStateStopped →
  Start n w =
  Done None (logged w [EvLog LWarn "Node is not stopped, skipping start"]).
Proof.
  intros H. unfold Start, State, bind. cbn [get_vars ret].
  destruct (state (vars w)); try contradiction; reflexivity.
Qed.

End Lifecycle.


Section Counters.
Context `{Sub : Substrate}.

(** ** The counters *)

Lemma wrap64_small z : - 2 ^ 63 ≤ z < 2 ^ 63 → wrap64 z = z.
Proof. intros H. unfold wrap64. rewrite Z.mod_small; lia. Qed.

Lemma counters_bump ok v1 v2 :
  counters v1 = counters v2 → counters (bump ok v1) = counters (bump ok v2).
Proof. unfold counters. intros [= H1 H2]. destruct ok; cbn; congruence. Qed.

Lemma counters_bumps oks v1 v2 :
  counters v1 = counters v2 → counters (bumps oks v1) = counters (bumps oks v2).
Proof.
  revert v1 v2. induction oks as [|ok oks IH]; intros v1 v2 H; [exact H|].
  cbn. apply IH, counters_bump, H.
Qed.

Lemma bumps_state_errors oks v :
  state (bumps oks v) = state v ∧ errors (bumps oks v) = errors v.
Proof.
  revert v. induction oks as [|ok oks IH]; intros v; [split; reflexivity|].
  change (bumps (ok :: oks) v) with (bumps oks (bump ok v)).
  destruct (IH (bump ok v)) as [-> ->]. now destruct ok.
Qed.

(** Without overflow the increments add up: [successCount] has grown by the
    number of [true], [errorCount] by the number of [false]. *)
Lemma bumps_count oks v :
  0 ≤ successCount v → 0 ≤ errorCount v →
  successCount v + errorCount v + Z.of_nat (List.length oks) < 2 ^ 63 →
  successCount (bumps oks v)
  = successCount v + Z.of_nat (List.length (filter (eq true) oks)) ∧
  errorCount (bumps oks v)
  = errorCount v + Z.of_nat (List.length (filter (eq false) oks)).
Proof.
  revert v. induction oks as [|ok oks IH]; intros v Hs He Hsum.
  - cbn. lia.
  - cbn [List.length] in Hsum.
    change (bumps (ok :: oks) v) with (bumps oks (bump ok v)).
    specialize (IH (bump ok v)).
    destruct ok; cbn [bump successCount errorCount] in IH |- *;
      rewrite wrap64_small in IH |- * by lia;
      destruct IH as [IH1 IH2]; try lia;
      rewrite IH1, IH2.
    + rewrite filter_cons_True by reflexivity.
      rewrite filter_cons_False by discriminate. cbn [List.length]. lia.
    + rewrite filter_cons_False by discriminate.
      rewrite filter_cons_True by reflexivity. cbn [List.length]. lia.
Qed.

Lemma filter_bool_length (oks : list bool) :
  (List.length (filter (eq true) oks) + List.length (filter (eq false) oks)
   = List.length oks)%nat.
Proof.
  induction oks as [|[] oks IH]; [reflexivity| |].
  - rewrite filter_cons_True by reflexivity.
    rewrite filter_cons_False by discriminate. cbn [List.length]. lia.
  - rewrite filter_cons_False by discriminate.
    rewrite filter_cons_True by reflexivity. cbn [List.length]. lia.
Qed.

Lemma counted_nil w w' : vars w' = vars w → counted [] w w'.
Proof. unfold counted. now intros ->. Qed.

Lemma counted_trans l1 l2 w1 w2 w3 :
  counted l1 w1 w2 → counted l2 w2 w3 → counted (l1 ++ l2) w1 w3.
Proof.
  unfold counted. intros H1 H2. rewrite H2, bumps_app.
  now apply counters_bumps.
Qed.

Lemma counted_same oks w1 w2 w3 :
  counted oks w1 w2 → counters (vars w3) = counters (vars w2) → counted oks w1 w3.
Proof. unfold counted. congruence. Qed.

Lemma counted_from oks w0 w1 w2 :
  counters (vars w1) = counters (vars w0) → counted oks w1 w2 → counted oks w0 w2.
Proof.
  unfold counted. intros H ->. now apply counters_bumps.
Qed.

Lemma Use_counted n a m p o r w w' :
  Use n a m p o w = Done r w' →
  ∃ oa oks, objs (heap w) !! a = Some oa ∧ counted oks w w' ∧
            List.length oks = invocations_for (value oa).
Proof.
  intros H. apply Use_fuel_effect in H as (oa & nested & Ha & _ & V & L).
  exists oa, (nested ++ [is_ok r])%list. split; [exact Ha|]. split.
  - unfold counted. now rewrite V, bumps_app.
  - rewrite length_app, L. unfold invocations_for.
    now destruct (strings.HasPrefix _ _).
Qed.

Lemma setState_inv s u w w' :
  setState s w = Done u w' →
  heap w' = heap w ∧ counters (vars w') = counters (vars w) ∧
  state (vars w') = s ∧ errors (vars w') = errors (vars w).
Proof. intros [= _ <-]. repeat split. Qed.

Lemma addError_inv e u w w' :
  addError e w = Done u w' →
  heap w' = heap w ∧ counters (vars w') = counters (vars w) ∧
  state (vars w') = state (vars w) ∧
  errors (vars w') = (errors (vars w) ++ [e])%list.
Proof. intros [= _ <-]. repeat split. Qed.

Lemma addErrors_inv es u w w' :
  addErrors es w = Done u w' →
  heap w' = heap w ∧ counters (vars w') = counters (vars w) ∧
  state (vars w') = state (vars w) ∧
  errors (vars w') = (errors (vars w) ++ es)%list.
Proof.
  revert w. induction es as [|e es IH]; intros w H; cbn [addErrors] in H.
  - apply ret_inv in H as [_ ->]. rewrite app_nil_r. repeat split.
  - apply bind_inv in H as (u1 & w1 & H1 & H).
    apply addError_inv in H1 as (Hh & Hc & Hs & He).
    destruct (IH _ H) as (Hh' & Hc' & Hs' & He').
    repeat split; try congruence.
    rewrite He', He, <- app_assoc. reflexivity.
Qed.

Lemma Register_counted n r w w' :
  Register n w = Done r w' →
  state (vars w') = state (vars w) ∧ errors (vars w') = errors (vars w) ∧
  ∃ oks, counted oks w w' ∧
    List.length oks =
      if negb (String.eqb (Type_ n) NodeTypeLeader)
         && bool_decide (is_Some (cfg_Leader (config n)))
      then invocations_for "o://register" else 0%nat.
Proof.
  unfold Register. intros H.
  destruct (String.eqb (Type_ n) NodeTypeLeader).
  { apply bind_inv in H as (u & w1 & H1 & H). apply log_inv in H1 as [_ V].
    apply ret_inv in H as [_ ->]. rewrite V. repeat split.
    exists []. split; [now apply counted_nil | reflexivity]. }
  apply bind_inv in H as (u & w1 & H1 & H). apply log_inv in H1 as [_ V1].
  destruct (cfg_Leader (config n)) as [leader|].
  2:{ apply bind_inv in H as (u2 & w2 & H2 & H). apply log_inv in H2 as [_ V2].
      apply ret_inv in H as [_ ->]. rewrite V2, V1. repeat split.
      exists []. split; [apply counted_nil; congruence | reflexivity]. }
  apply bind_inv in H as (reg & w2 & H2 & H).
  apply (NewOAddress_grows (fun _ => False)) in H2 as ([V2 _] & _ & Hreg).
  apply bind_inv in H as (sa & w3 & H3 & H). apply String_inv in H3 as [-> _].
  apply bind_inv in H as (ts & w3 & H3 & H). apply Transports_inv in H3 as ->.
  apply bind_inv in H as (ss & w3 & H3 & H). apply String_inv in H3 as [-> _].
  apply bind_inv in H as (ru & w3 & H3 & H).
  apply Use_fuel_effect in H3 as (oa & nested & Ha & _ & V3 & L).
  rewrite Hreg in Ha. injection Ha as <-. cbn in L.
  assert (V' : vars w' = vars w3).
  { destruct ru as [resp|err].
    - apply bind_inv in H as (u3 & w4 & H4 & H). apply log_inv in H4 as [_ V4].
      apply ret_inv in H as [_ ->]. exact V4.
    - now apply ret_inv in H as [_ ->]. }
  assert (V : vars w' = bumps (nested ++ [is_ok ru]) (vars w)).
  { now rewrite V', V3, V2, V1, bumps_app. }
  rewrite V. destruct (bumps_state_errors (nested ++ [is_ok ru]) (vars w)) as [-> ->].
  split; [reflexivity|]. split; [reflexivity|].
  exists (nested ++ [is_ok ru])%list. split.
  - unfold counted. now rewrite V.
  - rewrite length_app, L. reflexivity.
Qed.

Lemma Unregister_counted n r w w' :
  Unregister n w = Done r w' →
  state (vars w') = state (vars w) ∧ errors (vars w') = errors (vars w) ∧
  ∃ oks, counted oks w w' ∧
    List.length oks =
      if String.eqb (Type_ n) NodeTypeLeader then 0%nat
      else invocations_for "o://register".
Proof.
  unfold Unregister. intros H.
  destruct (String.eqb (Type_ n) NodeTypeLeader).
  { apply bind_inv in H as (u & w1 & H1 & H). apply log_inv in H1 as [_ V].
    apply ret_inv in H as [_ ->]. rewrite V. repeat split.
    exists []. split; [now apply counted_nil | reflexivity]. }
  apply bind_inv in H as (reg & w2 & H2 & H).
  apply (NewOAddress_grows (fun _ => False)) in H2 as ([V2 _] & _ & Hreg).
  apply bind_inv in H as (ru & w3 & H3 & H).
  apply Use_fuel_effect in H3 as (oa & nested & Ha & _ & V3 & L).
  rewrite Hreg in Ha. injection Ha as <-. cbn in L.
  assert (V' : vars w' = vars w3).
  { destruct ru as [resp|err];
      apply bind_inv in H as (u3 & w4 & H4 & H); apply log_inv in H4 as [_ V4];
      apply ret_inv in H as [_ ->]; exact V4. }
  assert (V : vars w' = bumps (nested ++ [is_ok ru]) (vars w)).
  { now rewrite V', V3, V2, bumps_app. }
  rewrite V. destruct (bumps_state_errors (nested ++ [is_ok ru]) (vars w)) as [-> ->].
  split; [reflexivity|]. split; [reflexivity|].
  exists (nested ++ [is_ok ru])%list. split.
  - unfold counted. now rewrite V.
  - rewrite length_app, L. reflexivity.
Qed.

End Counters.

Section CallFacts.
Context `{Sub : Substrate}.

(** ** The counters over the calls of a client *)

Lemma Stop_counted n r w w' :
  Stop n w = Done r w' →
  ∃ oks, counted oks w w' ∧ List.length oks = invocations n w CallStop.
Proof.
  unfold Stop. intros H.
  apply bind_inv in H as (u0 & w0 & H0 & H). injection H0 as _ <-.
  apply bind_inv in H as (u1 & w1 & H1 & H). injection H1 as _ <-.
  apply bind_inv in H as (unreg & w2 & H2 & H).
  apply Unregister_counted in H2 as (_ & _ & oks & C & L).
  apply counted_from with (w0 := w) in C; [|reflexivity].
  exists oks. split; [|exact L].
  eapply counted_same; [exact C|].
  apply bind_inv in H as (closed & w3 & H3 & H).
  assert (V3 : vars w3 = vars w2).
  { destruct (p2pNode n) as [h|].
    - apply bind_inv in H3 as (u & w4 & H4 & H3). injection H4 as _ <-.
      apply bind_inv in H3 as (x & w4 & H4 & H3). injection H4 as <- <-.
      apply bind_inv in H3 as (u' & w4 & H4 & H3). injection H4 as _ <-.
      now apply ret_inv in H3 as [-> ->].
    - now apply ret_inv in H3 as [-> ->]. }
  rewrite <- V3.
  destruct (0 <? _)%nat.
  - apply bind_inv in H as (u & w4 & H4 & H). injection H4 as _ <-.
    apply bind_inv in H as (u' & w5 & H5 & H).
    apply addErrors_inv in H5 as (_ & C5 & _).
    apply ret_inv in H as [-> ->]. exact C5.
  - apply bind_inv in H as (u & w4 & H4 & H). injection H4 as _ <-.
    apply bind_inv in H as (u' & w5 & H5 & H). injection H5 as _ <-.
    now apply ret_inv in H as [_ ->].
Qed.

Lemma Start_counted n r w w' :
  Start n w = Done r w' →
  ∃ oks, counted oks w w' ∧ List.length oks = invocations n w CallStart.
Proof.
  unfold Start. intros H.
  apply bind_inv in H as (s & w0 & H0 & H).
  unfold State in H0. apply bind_inv in H0 as (v & w1 & H0 & H1).
  injection H0 as <- <-. apply ret_inv in H1 as [-> ->].
  cbn [invocations].
  destruct (NodeState_eqb (state (vars w)) NodeStateStopped).
  2:{ cbn in H. apply ret_inv in H as [_ ->].
      exists []. split; [now apply counted_nil | reflexivity]. }
  cbn [negb andb] in H |- *.
  apply bind_inv in H as (u & w1 & H1 & H). injection H1 as _ <-.
  apply bind_inv in H as (ri & w2 & H2 & H).
  unfold Initialize in H2. apply bind_inv in H2 as (u2 & w3 & H3 & H2).
  injection H3 as _ <-. apply ret_inv in H2 as [-> ->].
  apply bind_inv in H as (rr & w2 & H2 & H).
  apply Register_counted in H2 as (_ & _ & oks & C & L).
  apply counted_from with (w0 := w) in C; [|reflexivity].
  exists oks. split; [|exact L].
  eapply counted_same; [exact C|].
  apply bind_inv in H as (u3 & w3 & H3 & H).
  assert (V3 : vars w3 = vars w2).
  { destruct rr; [now apply log_inv in H3 as [_ V] | now apply ret_inv in H3 as [_ ->]]. }
  apply bind_inv in H as (u4 & w4 & H4 & H). injection H4 as _ <-.
  apply bind_inv in H as (u5 & w5 & H5 & H). injection H5 as _ <-.
  apply ret_inv in H as [_ ->]. cbn. now rewrite V3.
Qed.

Lemma perform_counted n c u w w' :
  perform n c w = Done u w' →
  ∃ oks, counted oks w w' ∧ List.length oks = invocations n w c.
Proof.
  destruct c as [a m p o| | | |]; cbn [perform]; intros H;
    apply bind_inv in H as (r & w1 & H1 & H); apply ret_inv in H as [_ ->].
  - apply Use_counted in H1 as (oa & oks & Ha & C & L).
    exists oks. split; [exact C|]. cbn [invocations]. now rewrite Ha.
  - now apply Start_counted in H1.
  - now apply Stop_counted in H1.
  - exists []. split; [|reflexivity]. apply counted_nil.
    unfold WhoAmI in H1. apply bind_inv in H1 as (s & w2 & H2 & H1).
    apply String_inv in H2 as [-> _].
    apply bind_inv in H1 as (v & w2 & H2 & H1). injection H2 as _ <-.
    apply bind_inv in H1 as (ts & w2 & H2 & H1). apply Transports_inv in H2 as ->.
    now apply ret_inv in H1 as [_ ->].
  - exists []. split; [|reflexivity]. apply counted_nil.
    unfold Errors in H1. apply bind_inv in H1 as (v & w2 & H2 & H1).
    injection H2 as _ <-. now apply ret_inv in H1 as [_ ->].
Qed.

Lemma perform_all_counted n cs u w w' :
  perform_all n cs w = Done u w' →
  ∃ oks, counted oks w w' ∧ List.length oks = invocations_all n w cs.
Proof.
  revert w. induction cs as [|c cs IH]; intros w H; cbn [perform_all] in H.
  - apply ret_inv in H as [_ ->]. exists [].
    split; [now apply counted_nil | reflexivity].
  - apply bind_inv in H as (u1 & w1 & H1 & H).
    destruct (perform_counted _ _ _ _ _ H1) as (l1 & C1 & L1).
    destruct (IH _ H) as (l2 & C2 & L2).
    exists (l1 ++ l2)%list. split; [eauto using counted_trans|].
    cbn [invocations_all]. rewrite H1, length_app. congruence.
Qed.

(** C1.  Every call of [Use] that returns has incremented one counter in
    its own body, [successCount] if it returns a response and [errorCount]
    if it returns an error, after the increment of the registry search that
    static translation makes through [Use] for an address not under
    [o://leader].  So over any calls of a client, [Start] and [Stop]
    included, the counters are incremented once per entry of [Use], nested
    ones included, and by nothing else; short of overflow their sum has
    grown by the number of those entries and neither has decreased. *)
Theorem Use_counters n :
  (∀ a m p o w r w',
     Use n a m p o w = Done r w' →
     ∃ oa nested,
       objs (heap w) !! a = Some oa ∧
       vars w' = bump (is_ok r) (bumps nested (vars w)) ∧
       S (List.length nested) = invocations_for (value oa)) ∧
  (∀ cs w w',
     perform_all n cs w = Done tt w' →
     ∃ oks,
       List.length oks = invocations_all n w cs ∧
       counters (vars w') = counters (bumps oks (vars w)) ∧
       (0 ≤ successCount (vars w) → 0 ≤ errorCount (vars w) →
        successCount (vars w) + errorCount (vars w)
        + Z.of_nat (invocations_all n w cs) < 2 ^ 63 →
        successCount (vars w') + errorCount (vars w')
        = successCount (vars w) + errorCount (vars w)
          + Z.of_nat (invocations_all n w cs) ∧
        successCount (vars w) ≤ successCount (vars w') ∧
        errorCount (vars w) ≤ errorCount (vars w'))).
Proof.
  split.
  - intros a m p o w r w' H.
    apply Use_fuel_effect in H as (oa & nested & Ha & _ & V & L).
    exists oa, nested. split; [exact Ha|]. split; [exact V|].
    rewrite L. unfold invocations_for. now destruct (strings.HasPrefix _ _).
  - intros cs w w' H.
    apply perform_all_counted in H as (oks & C & L).
    exists oks. split; [exact L|]. split; [exact C|].
    intros Hs He Hsum. rewrite <- L in Hsum |- *.
    destruct (bumps_count oks (vars w) Hs He Hsum) as [E1 E2].
    unfold counted, counters in C. injection C as C1 C2.
    rewrite C1, C2, E1, E2.
    pose proof (filter_bool_length oks). lia.
Qed.

End CallFacts.

Section StaticTranslation.
Context `{Sub : Substrate}.

(** ** Static translation: the answers of the registry *)

Lemma static_search_result_found a oa ts resp m fr rest canon w :
  objs (heap w) !! a = Some oa →
  slice_elems (heap w) (transports oa) = Some ts →
  resp_Result resp = AMap m →
  map_index m "data" = AList (AMap fr :: rest) →
  map_index fr "address" = AStr canon →
  static_search_result a (Ok resp) w =
  Done (Ok (fresh (dom (objs (heap w)))))
    (with_heap w
       (alloc_obj (alloc_arr (heap w) (map TString (all_of ts)))
          {| value :=
               if (1 <? List.length (split_value (value oa)))%nat
               then Sprintf_s_slash_s canon
                      (strings.Join (drop 1 (split_value (value oa))) "/")
               else canon;
             transports := Some (fresh (dom (arrs (heap w)))) |})).
Proof.
  intros Ha Hts Hr Hd Hc. unfold static_search_result.
  rewrite Hr, Hd, Hc.
  rewrite (bind_Done _ _ _ _ _ (SplitAddress_eq _ _ _ Ha)).
  rewrite (bind_Done _ _ _ _ _ (AllTransports_eq _ _ _ _ Ha Hts)).
  reflexivity.
Qed.

(** A string list read as transports reads as itself. *)
Lemma all_of_strings (ss : list string) : all_of (map TString ss) = ss.
Proof. induction ss as [|s ss IH]; [reflexivity | cbn; now rewrite IH]. Qed.

Lemma libp2p_of_strings (ss : list string) : libp2p_of (map TString ss) = [].
Proof. induction ss as [|s ss IH]; [reflexivity | exact IH]. Qed.

Lemma static_search_result_miss a r w :
  match r with Err _ => True | Ok resp => no_result resp end →
  ∃ w', static_search_result a r w = Done (Ok a) w' ∧ quiet w w'.
Proof.
  unfold static_search_result, no_result. destruct r as [resp|err]; intros H.
  2:{ eexists. split; [reflexivity | split; reflexivity]. }
  destruct (resp_Result resp) as [| | | | | |m]; try contradiction.
  { eexists. split; [reflexivity | apply quiet_refl]. }
  destruct (map_index m "data") as [| | | | |l|];
    try (eexists; split; [reflexivity | split; reflexivity]).
  destruct l as [|first l];
    [eexists; split; [reflexivity | split; reflexivity]|].
  destruct first as [| | | | | |fr];
    try (eexists; split; [reflexivity | apply quiet_refl]).
  destruct (map_index fr "address"); try contradiction;
    eexists; (split; [reflexivity | apply quiet_refl]).
Qed.

Lemma static_search_result_panics a resp w :
  match resp_Result resp with ANil | AMap _ => False | _ => True end →
  static_search_result a (Ok resp) w =
  Panic "interface conversion: interface {} is not map[string]interface {}".
Proof.
  unfold static_search_result.
  destruct (resp_Result resp); intros H; try contradiction; reflexivity.
Qed.

(** Static translation returns no error. *)
Lemma HandleStatic_never_fails use a e w w' :
  HandleStaticAddressTranslation use a w ≠ Done (Err e) w'.
Proof.
  intros H. apply HandleStatic_inv in H as (oa & Ha & H).
  destruct (strings.HasPrefix (value oa) "o://leader").
  - destruct H as [H _]. discriminate.
  - destruct H as (ts & _ & H). apply bind_inv in H as (r & w1 & _ & H).
    apply static_search_result_grows in H as (_ & p & H & _). discriminate.
Qed.

(** What of C5 the code does: when the search fails, or answers with no
    result, static translation returns the address it was given and no
    error, and has changed no address. *)
Lemma static_translation_miss k n a oa ts r w w2 :
  objs (heap w) !! a = Some oa →
  slice_elems (heap w) (transports oa) = Some ts →
  strings.HasPrefix (value oa) "o://leader" = false →
  Use_fuel k n (search_addr w) "search"
    [("staticAddress", AStr (root_value (value oa)))] search_options
    (search_world w ts) = Done r w2 →
  match r with Err _ => True | Ok resp => no_result resp end →
  ∃ w', HandleStaticAddressTranslation (Use_fuel k n) a w = Done (Ok a) w' ∧
        objs (heap w') !! a = Some oa ∧
        slice_elems (heap w') (transports oa) = Some ts ∧
        mods (only_new (heap w)) (heap w) (heap w').
Proof.
  intros Ha Hts Hp Hu Hr.
  destruct (static_search_result_miss a r w2 Hr) as (w' & E & [Qh Qv]).
  exists w'. assert (HS : HandleStaticAddressTranslation (Use_fuel k n) a w
                         = Done (Ok a) w').
  { rewrite (HandleStatic_eq _ _ _ _ _ Ha Hts), Hp.
    now rewrite (bind_Done _ _ _ _ _ Hu). }
  split; [exact HS|].
  apply HandleStatic_effect in HS
    as (oa' & _ & p & Ha' & _ & _ & _ & M & _); [|intros ? ? ? ? ? ? ?; apply Use_fuel_effect].
  destruct M as [MA MO]. destruct (MO _ _ Ha) as (o' & Ho' & _ & Hsame).
  rewrite (Hsame ltac:(unfold only_new; congruence)) in Ho'.
  split; [exact Ho'|]. split; [|split; assumption].
  destruct (transports oa); [apply MA; exact Hts | exact Hts].
Qed.

(** ** Static translation: a match *)

(** C4.  For an address not under [o://leader] whose registry search
    answers with a first result [{address: canon}], static translation
    returns a new address.  Its value is [canon] followed by [/] and the
    segments of the input after the first, joined by [/]; it is [canon]
    alone when there is no such segment.  Its transports are the
    transports of the input as strings, in order: a multiaddr is there by
    its text, and no longer as a multiaddr.  The input is as it was. *)
Theorem static_translation_found k n a oa ts resp m fr rest canon w w2 :
  objs (heap w) !! a = Some oa →
  slice_elems (heap w) (transports oa) = Some ts →
  strings.HasPrefix (value oa) "o://leader" = false →
  Use_fuel k n (search_addr w) "search"
    [("staticAddress", AStr (root_value (value oa)))] search_options
    (search_world w ts) = Done (Ok resp) w2 →
  resp_Result resp = AMap m →
  map_index m "data" = AList (AMap fr :: rest) →
  map_index fr "address" = AStr canon →
  ∃ p op tp w',
    HandleStaticAddressTranslation (Use_fuel k n) a w = Done (Ok p) w' ∧
    objs (heap w) !! p = None ∧
    objs (heap w') !! p = Some op ∧
    value op = match drop 1 (split_value (value oa)) with
               | [] => canon
               | remainder => canon ++ "/" ++ strings.Join remainder "/"
               end ∧
    slice_elems (heap w') (transports op) = Some tp ∧
    tp = map TString (all_of ts) ∧
    all_of tp = all_of ts ∧
    libp2p_of tp = [] ∧
    objs (heap w') !! a = Some oa ∧
    slice_elems (heap w') (transports oa) = Some ts.
Proof.
  intros Ha Hts Hp Hu Hr Hd Hc.
  pose proof (Use_fuel_effect _ _ _ _ _ _ _ _ _ Hu) as (os & _ & Hs & [MA MO] & _).
  pose proof (search_world_old w ts a oa Ha) as Ha1.
  assert (Hne : a ≠ search_addr w) by (eapply fresh_obj_ne; eauto).
  destruct (MO _ _ Ha1) as (o2 & Ha2 & _ & Hsame).
  rewrite Hsame in Ha2 by (intros [?|N]; [auto | congruence]). clear Hsame.
  assert (Hts2 : slice_elems (heap w2) (transports oa) = Some ts).
  { destruct (transports oa) as [s|]; [|exact Hts].
    apply MA. simpl. rewrite lookup_insert_ne; [exact Hts|].
    apply not_eq_sym. simpl in Hts. eauto using fresh_arr_ne. }
  eexists _, _, (map TString (all_of ts)), _.
  split.
  { rewrite (HandleStatic_eq _ _ _ _ _ Ha Hts), Hp.
    rewrite (bind_Done _ _ _ _ _ Hu).
    apply (static_search_result_found _ _ _ _ _ _ _ _ _ Ha2 Hts2 Hr Hd Hc). }
  assert (Hp2 : objs (heap w2) !! fresh (dom (objs (heap w2))) = None)
    by apply fresh_obj_None.
  split.
  { destruct (objs (heap w) !! fresh (dom (objs (heap w2)))) as [o|] eqn:E;
      [|reflexivity].
    pose proof (search_world_old w ts _ _ E) as E1.
    destruct (MO _ _ E1) as (o' & E2 & _). congruence. }
  split; [apply lookup_insert_eq|].
  split.
  { cbn [value]. unfold Sprintf_s_slash_s.
    destruct (split_value (value oa)) as [|p0 [|p1 ps]]; reflexivity. }
  split; [cbn; apply lookup_insert_eq|].
  split; [reflexivity|].
  split; [apply all_of_strings|].
  split; [apply libp2p_of_strings|].
  split.
  { cbn. rewrite lookup_insert_ne; [exact Ha2|].
    intros E. rewrite <- E in Ha2. congruence. }
  change (slice_elems (alloc_arr (heap w2) (map TString (all_of ts)))
            (transports oa) = Some ts).
  now apply slice_elems_alloc_arr.
Qed.

End StaticTranslation.

Section Returns.
Context `{Sub : Substrate}.

(** ** Well-formed stores stay well-formed *)

Lemma wf_alloc_arr h ts : wf_heap h → wf_heap (alloc_arr h ts).
Proof.
  intros W l o Ho. destruct (W l o Ho) as [l' Hl'].
  exists l'. now apply slice_elems_alloc_arr.
Qed.

Lemma wf_alloc_obj h o :
  wf_heap h → is_Some (slice_elems h (transports o)) → wf_heap (alloc_obj h o).
Proof.
  intros W Hs l o' Ho'. simpl in Ho'.
  destruct (decide (l = fresh (dom (objs h)))) as [->|Hne].
  - rewrite lookup_insert_eq in Ho'. injection Ho' as <-. exact Hs.
  - rewrite lookup_insert_ne in Ho' by auto. exact (W l o' Ho').
Qed.

Lemma wf_write_obj h a o :
  wf_heap h → is_Some (slice_elems h (transports o)) → wf_heap (write_obj h a o).
Proof.
  intros W Hs l o' Ho'. simpl in Ho'.
  destruct (decide (l = a)) as [->|Hne].
  - rewrite lookup_insert_eq in Ho'. injection Ho' as <-. exact Hs.
  - rewrite lookup_insert_ne in Ho' by auto. exact (W l o' Ho').
Qed.

Lemma wf_replace_transports h a v ts :
  wf_heap h →
  wf_heap (write_obj (alloc_arr h ts) a
             {| value := v; transports := Some (fresh (dom (arrs h))) |}).
Proof.
  intros W. apply wf_write_obj; [now apply wf_alloc_arr|].
  eexists. apply slice_elems_alloc_arr_new.
Qed.

Lemma leader_there_mods P n h h' :
  mods P h h' → leader_there n h → leader_there n h'.
Proof. intros M L l Hl. eapply mods_still; eauto. Qed.

(** ** The calls return *)

Lemma SetTransports_returns a ms w :
  wf_heap (heap w) → is_Some (objs (heap w) !! a) →
  ∃ w', SetTransports a ms w = Done tt w' ∧ wf_heap (heap w').
Proof.
  intros W [o Ho]. eexists. split; [apply (SetTransports_eq _ _ _ _ Ho)|].
  now apply wf_replace_transports.
Qed.

Lemma NewOAddress_of_returns v ts w :
  wf_heap (heap w) →
  ∃ p w', NewOAddress_of v ts w = Done p w' ∧ wf_heap (heap w').
Proof.
  intros W. unfold NewOAddress_of. destruct ts as [|t ts].
  - eexists _, _. split; [apply NewOAddress_eq|].
    apply wf_alloc_obj; [exact W | now exists []].
  - eexists _, _. split.
    + rewrite (bind_Done _ _ _ _ _ (make_slice_eq _ _)). apply NewOAddress_eq.
    + apply wf_alloc_obj; [now apply wf_alloc_arr|].
      eexists. apply slice_elems_alloc_arr_new.
Qed.

Lemma external_Resolve_returns r a w :
  wf_heap (heap w) →
  ∃ res w', ar_Resolve (external_resolver r) a w = Done res w' ∧
            wf_heap (heap w').
Proof.
  intros W. cbn [external_resolver ar_Resolve].
  unfold bind at 1. cbn [emit]. unfold bind at 1. cbn [get_heap].
  unfold bind at 1. cbn [get_ext]. unfold bind at 1. cbn [put_ext].
  match goal with |- context [fst ?x] => destruct (fst x) as [e| |v ts] end.
  - eexists _, _. split; [reflexivity | exact W].
  - eexists _, _. split; [reflexivity | exact W].
  - match goal with |- context [bind (NewOAddress_of v ts) _ ?w1] =>
      destruct (NewOAddress_of_returns v ts w1 W) as (p & w' & E & W')
    end.
    exists (Ok p), w'. split; [|exact W'].
    now rewrite (bind_Done _ _ _ _ _ E).
Qed.

Lemma Resolve_external_returns rs a w :
  wf_heap (heap w) →
  ∃ res w', Resolve (map external_resolver rs) a w = Done res w' ∧
            wf_heap (heap w').
Proof.
  revert w. induction rs as [|r rs IH]; intros w W; cbn [map Resolve].
  - eexists _, _. split; [reflexivity | exact W].
  - destruct (external_Resolve_returns r a w W) as (res & w1 & E & W1).
    rewrite (bind_Done _ _ _ _ _ E). destruct res as [p|e].
    + eexists _, _. split; [reflexivity | exact W1].
    + now apply IH.
Qed.

Lemma GetTransports_returns n a w :
  wf_heap (heap w) → leader_there n (heap w) → is_Some (objs (heap w) !! a) →
  ∃ l w', GetTransports n a w = Done l w' ∧ heap w' = heap w.
Proof.
  intros W L [oa Ha]. destruct (W _ _ Ha) as [ts Hts].
  destruct (libp2p_of ts) as [|ma mas] eqn:E.
  - rewrite (GetTransports_fallback _ _ _ _ _ Ha Hts E).
    destruct (cfg_Leader (config n)) as [leader|] eqn:El.
    + destruct (L _ El) as [ol Hol]. destruct (W _ _ Hol) as [tl Htl].
      eexists _, _. split.
      * now apply LibP2PTransports_eq with (o := ol) (ts := tl).
      * reflexivity.
    + destruct (String.eqb (Type_ n) NodeTypeLeader);
        eexists _, _; (split; [reflexivity|reflexivity]).
  - eexists _, _. split; [|reflexivity].
    apply GetTransports_explicit with (oa := oa) (ts := ts);
      [assumption | assumption | congruence].
Qed.

Lemma Connect_returns n nh t w :
  is_Some (objs (heap w) !! nh) →
  ∃ c w', Connect n nh t w = Done c w'.
Proof.
  intros [o Ho]. unfold Connect. destruct (connectionManager n) as [cm|].
  2:{ eexists _, _. reflexivity. }
  unfold bind at 1. cbn [emit]. unfold bind at 1. cbn [get_heap].
  unfold bind at 1. cbn [get_ext]. unfold bind at 1. cbn [put_ext].
  match goal with |- context [fst ?x] => destruct (fst x) as [c|e] end.
  - erewrite bind_Done by (apply String_eq; exact Ho).
    eexists _, _. reflexivity.
  - destruct (String.eqb e _); eexists _, _; reflexivity.
Qed.

Lemma Send_returns c p w : ∃ r w', Send c p w = Done r w' ∧
  r = fst (conn_Send c p (ext w)).
Proof.
  eexists _, _. split; [|reflexivity].
  unfold Send, bind. cbn [emit get_ext put_ext ret ext]. reflexivity.
Qed.

Lemma Close_returns c w : ∃ w', Close c w = Done tt w'.
Proof.
  eexists. unfold Close, bind. cbn [emit get_ext put_ext ret ext]. reflexivity.
Qed.

Lemma Connect_origin n nh t c w w' :
  Connect n nh t w = Done (Ok c) w' →
  ∃ cm ps h x, connectionManager n = Some cm ∧ fst (cm_Connect cm ps h x) = Ok c.
Proof.
  unfold Connect. destruct (connectionManager n) as [cm|]; [|discriminate].
  intros H. apply bind_inv in H as (u & w1 & _ & H).
  apply bind_inv in H as (h & w2 & _ & H).
  apply bind_inv in H as (x & w3 & _ & H).
  apply bind_inv in H as (u2 & w4 & _ & H).
  destruct (fst (cm_Connect cm _ h x)) as [c0|e] eqn:E.
  - apply bind_inv in H as (s & w5 & _ & H).
    apply bind_inv in H as (u3 & w6 & _ & H).
    apply ret_inv in H as [[= ->] _]. eauto 6.
  - destruct (String.eqb e _); discriminate.
Qed.

(** A response that [Use] returns is the answer of a connection of the
    node to a request for the method. *)
Lemma Use_fuel_response k n a method p o resp w w' :
  Use_fuel k n a method p o w = Done (Ok resp) w' →
  ∃ cm ps h x c sp y,
    connectionManager n = Some cm ∧ fst (cm_Connect cm ps h x) = Ok c ∧
    map_index (sp_Payload sp) "method" = AStr method ∧
    fst (conn_Send c sp y) = Ok resp.
Proof.
  destruct k as [|k]; [discriminate|]. cbn [Use_fuel]. intros H.
  apply bind_inv in H as ([tr|e] & w1 & _ & H).
  2:{ apply bind_inv in H as (u & w2 & _ & H). discriminate. }
  apply bind_inv in H as ([c|e] & w2 & Hc & H).
  2:{ apply bind_inv in H as (u & w3 & _ & H). discriminate. }
  apply Connect_origin in Hc as (cm & ps & h & x & Hcm & Hc).
  apply bind_inv in H as (t & w3 & _ & H).
  apply bind_inv in H as (r & w4 & Hs & H).
  destruct (Send_returns c {| sp_Address := t;
       sp_Payload := [("method", AStr method); ("params", AMap p)] |} w3)
    as (r' & w4' & Hs' & Hr).
  rewrite Hs in Hs'. injection Hs' as <- _.
  destruct r as [resp'|e].
  2:{ apply bind_inv in H as (u & w5 & _ & H).
      apply bind_inv in H as (u' & w6 & _ & H). discriminate. }
  apply bind_inv in H as (u & w5 & _ & H).
  apply bind_inv in H as (u' & w6 & _ & H).
  apply ret_inv in H as [[= ->] _].
  exists cm, ps, h, x, c. eexists _, _.
  split; [exact Hcm|]. split; [exact Hc|]. split; [|symmetry; exact Hr].
  reflexivity.
Qed.

Lemma static_search_result_returns a r w :
  wf_heap (heap w) → is_Some (objs (heap w) !! a) →
  match r with
  | Err _ => True
  | Ok resp => match resp_Result resp with ANil | AMap _ => True | _ => False end
  end →
  ∃ p w', static_search_result a r w = Done (Ok p) w' ∧ wf_heap (heap w').
Proof.
  intros W [oa Ha] Hr. destruct (W _ _ Ha) as [ts Hts].
  assert (Miss : match r with Err _ => True | Ok resp => no_result resp end →
            ∃ p w', static_search_result a r w = Done (Ok p) w' ∧ wf_heap (heap w')).
  { intros Hn. destruct (static_search_result_miss a r w Hn) as (w' & E & [Qh _]).
    exists a, w'. split; [exact E|]. now rewrite Qh. }
  destruct r as [resp|err]; [|now apply Miss].
  unfold no_result in Miss.
  destruct (resp_Result resp) as [| | | | | |m] eqn:Er; try contradiction.
  { now apply Miss. }
  destruct (map_index m "data") as [| | | | |l|] eqn:Ed; try (now apply Miss).
  destruct l as [|first rest]; [now apply Miss|].
  destruct first as [| | | | | |fr]; try (now apply Miss).
  destruct (map_index fr "address") as [| | |canon| | |] eqn:Ea;
    try (now apply Miss).
  eexists _, _. split.
  - apply (static_search_result_found _ _ _ _ _ _ _ _ _ Ha Hts Er Ed Ea).
  - apply wf_alloc_obj; [now apply wf_alloc_arr|].
    eexists. apply slice_elems_alloc_arr_new.
Qed.

Lemma wf_search_world w ts : wf_heap (heap w) → wf_heap (heap (search_world w ts)).
Proof.
  intros W. unfold search_world. cbn [heap with_heap].
  apply wf_write_obj.
  - apply wf_alloc_arr, wf_alloc_obj; [exact W | now exists []].
  - eexists. simpl. apply lookup_insert_eq.
Qed.

(** [Use] returns once static translation has. *)
Lemma Use_fuel_S_returns k n a m p o target w w1 :
  HandleStaticAddressTranslation (Use_fuel k n) a w = Done (Ok target) w1 →
  wf_heap (heap w1) → leader_there n (heap w1) →
  is_Some (objs (heap w1) !! target) →
  ∃ r w', Use_fuel (S k) n a m p o w = Done r w' ∧ wf_heap (heap w').
Proof.
  intros HS W1 L1 T1. cbn [Use_fuel].
  destruct (Resolve_external_returns (addressResolution n) target w1 W1)
    as (res & w2 & ER & W2).
  pose proof (Resolve_external_grows _ _ _ _ _ ER T1) as ([_ M2] & q & -> & Sq & _).
  assert (L2 : leader_there n (heap w2)) by eauto using leader_there_mods.
  assert (T2 : is_Some (objs (heap w2) !! target)) by eauto using mods_still.
  destruct (GetTransports_returns n q w2 W2 L2 Sq) as (lts & w3 & EG & H3).
  assert (W3 : wf_heap (heap w3)) by now rewrite H3.
  assert (Sq3 : is_Some (objs (heap w3) !! q)) by now rewrite H3.
  destruct (SetTransports_returns q lts w3 W3 Sq3) as (w4 & ES & W4).
  pose proof (SetTransports_grows (fun _ => True) _ _ _ _ _ ES I) as [[_ M4] _].
  assert (T4 : is_Some (objs (heap w4) !! target)).
  { eapply mods_still; [exact M4|]. now rewrite H3. }
  assert (Sq4 : is_Some (objs (heap w4) !! q)) by eauto using mods_still.
  assert (ET : TranslateAddress (Use_fuel k n) n a w
               = Done (Ok {| NextHopAddress := q; TargetAddress := target |}) w4).
  { unfold TranslateAddress.
    rewrite (bind_Done _ _ _ _ _ HS), (bind_Done _ _ _ _ _ ER).
    rewrite (bind_Done _ _ _ _ _ EG). now rewrite (bind_Done _ _ _ _ _ ES). }
  rewrite (bind_Done _ _ _ _ _ ET). cbn [NextHopAddress TargetAddress].
  destruct (Connect_returns n q target w4 Sq4) as (c & w5 & EC).
  rewrite (bind_Done _ _ _ _ _ EC).
  pose proof (Connect_quiet _ _ _ _ _ _ EC) as [H5 _].
  assert (W5 : wf_heap (heap w5)) by now rewrite H5.
  destruct c as [conn|err].
  2:{ eexists _, _. split; [reflexivity | exact W5]. }
  destruct T4 as [ot Hot]. rewrite <- H5 in Hot.
  rewrite (bind_Done _ _ _ _ _ (String_eq _ _ _ Hot)).
  match goal with |- context [Send conn ?sp] =>
    destruct (Send_returns conn sp w5) as (r & w6 & ESend & _);
    pose proof (Send_quiet _ _ _ _ _ ESend) as [H6 _]
  end.
  rewrite (bind_Done _ _ _ _ _ ESend).
  destruct r as [resp|err].
  - rewrite (bind_Done _ _ _ _ _ (incrementSuccessCount_eq _)).
    match goal with |- context [bind (Close conn) _ ?w7] =>
      destruct (Close_returns conn w7) as (w8 & EClose);
      pose proof (Close_quiet _ _ _ _ EClose) as [H8 _]
    end.
    rewrite (bind_Done _ _ _ _ _ EClose).
    eexists _, _. split; [reflexivity|]. cbn [ret heap]. rewrite H8. cbn.
    now rewrite H6.
  - rewrite (bind_Done _ _ _ _ _ (incrementErrorCount_eq _)).
    match goal with |- context [bind (Close conn) _ ?w7] =>
      destruct (Close_returns conn w7) as (w8 & EClose);
      pose proof (Close_quiet _ _ _ _ EClose) as [H8 _]
    end.
    rewrite (bind_Done _ _ _ _ _ EClose).
    eexists _, _. split; [reflexivity|]. cbn [ret heap]. rewrite H8. cbn.
    now rewrite H6.
Qed.

Lemma Use_fuel_under_returns k n a oa m p o w :
  wf_heap (heap w) → leader_there n (heap w) →
  objs (heap w) !! a = Some oa →
  strings.HasPrefix (value oa) "o://leader" = true →
  ∃ r w', Use_fuel (S k) n a m p o w = Done r w' ∧ wf_heap (heap w').
Proof.
  intros W L Ha Hp.
  apply Use_fuel_S_returns with (target := a) (w1 := w); eauto.
  now apply HandleStatic_under with (oa := oa).
Qed.

Lemma HandleStatic_returns k n a w :
  wf_heap (heap w) → leader_there n (heap w) → answers_objects n →
  is_Some (objs (heap w) !! a) →
  ∃ p w1,
    HandleStaticAddressTranslation (Use_fuel (S k) n) a w = Done (Ok p) w1 ∧
    wf_heap (heap w1) ∧ leader_there n (heap w1) ∧
    is_Some (objs (heap w1) !! p).
Proof.
  intros W L A [oa Ha]. destruct (W _ _ Ha) as [ts Hts].
  assert (Main : ∃ p w1,
            HandleStaticAddressTranslation (Use_fuel (S k) n) a w = Done (Ok p) w1 ∧
            wf_heap (heap w1)).
  { rewrite (HandleStatic_eq _ _ _ _ _ Ha Hts).
    destruct (strings.HasPrefix (value oa) "o://leader") eqn:Hp.
    { eexists _, _. split; [reflexivity | exact W]. }
    destruct (search_world_addr w ts) as (os & Hs & Hv).
    destruct (search_world_grows w ts) as [_ M0].
    destruct (Use_fuel_under_returns k n (search_addr w) os "search"
                [("staticAddress", AStr (root_value (value oa)))] search_options
                (search_world w ts))
      as (r & w2 & EU & W2).
    - now apply wf_search_world.
    - eauto using leader_there_mods.
    - exact Hs.
    - now rewrite Hv.
    - rewrite (bind_Done _ _ _ _ _ EU).
      pose proof (Use_fuel_effect _ _ _ _ _ _ _ _ _ EU) as (_ & _ & _ & M2 & _).
      apply static_search_result_returns; [exact W2| |].
      + eapply mods_still; [exact M2|]. exists oa. now apply search_world_old.
      + destruct r as [resp|err]; [|exact I].
        apply Use_fuel_response in EU
          as (cm & ps & h & x & c & sp & y & Hcm & Hc & Hm & Hsend).
        exact (A _ _ _ _ _ _ _ _ Hcm Hc Hm Hsend). }
  destruct Main as (p & w1 & E & W1). exists p, w1.
  split; [exact E|]. split; [exact W1|].
  apply HandleStatic_effect in E
    as (_ & _ & p' & _ & [= <-] & _ & Sp & M & _);
    [|intros ? ? ? ? ? ? ?; apply Use_fuel_effect].
  split; [eauto using leader_there_mods | exact Sp].
Qed.

(** [Use] returns: on a well-formed store, for an address that is there,
    with a registry that answers searches with objects, a dispatch ends
    with a response or an error, not with a panic, and leaves a store on
    which the next call returns as well. *)
Lemma Use_returns n a m p o w :
  wf_heap (heap w) → leader_there n (heap w) → answers_objects n →
  is_Some (objs (heap w) !! a) →
  ∃ r w', Use n a m p o w = Done r w' ∧
          wf_heap (heap w') ∧ leader_there n (heap w') ∧
          is_Some (objs (heap w') !! a).
Proof.
  intros W L A Sa.
  destruct (HandleStatic_returns 0 n a w W L A Sa) as (t & w1 & E & W1 & L1 & St).
  destruct (Use_fuel_S_returns 1 n a m p o t w w1 E W1 L1 St) as (r & w' & EU & W').
  exists r, w'. split; [exact EU|]. split; [exact W'|].
  apply Use_fuel_effect in EU as (_ & _ & _ & M & _).
  split; [eauto using leader_there_mods | eauto using mods_still].
Qed.

Lemma Unregister_returns n w :
  wf_heap (heap w) → leader_there n (heap w) → answers_objects n →
  ∃ r w', Unregister n w = Done r w' ∧
          wf_heap (heap w') ∧ leader_there n (heap w').
Proof.
  intros W L A. unfold Unregister.
  destruct (String.eqb (Type_ n) NodeTypeLeader).
  { eexists _, _. split; [reflexivity|]. split; assumption. }
  rewrite (bind_Done _ _ _ _ _ (NewOAddress_eq _ _ _)).
  match goal with |- context [Use n ?a ?m ?p ?o] =>
    match goal with |- context [bind _ _ ?w1] =>
      destruct (Use_returns n a m p o w1) as (r & w2 & E & W2 & L2 & _)
    end
  end.
  - apply wf_alloc_obj; [exact W | now exists []].
  - eapply leader_there_mods; [apply (mods_alloc_obj (fun _ => False))|exact L].
  - exact A.
  - eexists. apply lookup_insert_eq.
  - rewrite (bind_Done _ _ _ _ _ E).
    destruct r; eexists _, _; (split; [reflexivity|]); split; assumption.
Qed.

Lemma returns_bind {A B} (m : M A) (k : A → M B) w :
  returns m w → (∀ a w1, m w = Done a w1 → returns (k a) w1) →
  returns (bind m k) w.
Proof.
  intros (a & w1 & E) Hk. unfold returns.
  rewrite (bind_Done _ _ _ _ _ E). now apply Hk.
Qed.

Lemma returns_ret {A} (a : A) w : returns (ret a) w.
Proof. eexists _, _. reflexivity. Qed.

Lemma returns_log lvl msg w : returns (log lvl msg) w.
Proof. eexists _, _. reflexivity. Qed.

Lemma returns_setState s w : returns (setState s) w.
Proof. eexists _, _. reflexivity. Qed.

Lemma returns_addErrors es w : returns (addErrors es) w.
Proof.
  revert w. induction es as [|e es IH]; intros w; cbn [addErrors].
  - apply returns_ret.
  - apply returns_bind; [eexists _, _; reflexivity | intros; apply IH].
Qed.

Lemma Stop_returns n w :
  wf_heap (heap w) → leader_there n (heap w) → answers_objects n →
  returns (Stop n) w.
Proof.
  intros W L A. unfold Stop.
  apply returns_bind; [apply returns_log|]. intros u0 w0 H0.
  apply log_inv in H0 as [Hh0 _].
  apply returns_bind; [apply returns_setState|]. intros u1 w1 H1.
  apply setState_inv in H1 as (Hh1 & _).
  apply returns_bind.
  { destruct (Unregister_returns n w1) as (r & w2 & E & _);
      [rewrite Hh1, Hh0; assumption..| assumption |].
    now exists r, w2. }
  intros unreg w2 _. apply returns_bind.
  { destruct (p2pNode n); eexists _, _; reflexivity. }
  intros closed w3 _. destruct (0 <? _)%nat.
  - apply returns_bind; [apply returns_setState|]. intros _ w4 _.
    apply returns_bind; [apply returns_addErrors|]. intros _ w5 _.
    apply returns_ret.
  - apply returns_bind; [apply returns_setState|]. intros _ w4 _.
    apply returns_bind; [apply returns_log|]. intros _ w5 _.
    apply returns_ret.
Qed.

End Returns.

Section CopyOnWrite.
Context `{Sub : Substrate}.

(** ** Which operations copy and which write in place *)

(** C2.  [WithPath] and [WithTransports] return a new address and leave
    every address there is as it was.  [SetTransports] and
    [SetTransportsFromStrings] return nothing: they replace the transports
    of the receiver in place and leave its value and every other address as
    they were.  [TranslateAddress], and so [Use], sets the transports of the
    next hop with [SetTransports]; of the addresses there were before the
    call only the one passed in may have other transports afterwards, and
    every one has the value it had. *)
Theorem address_updates :
  (∀ a o path w,
     objs (heap w) !! a = Some o →
     ∃ b w', WithPath a path w = Done b w' ∧
             objs (heap w) !! b = None ∧
             objs (heap w') !! b
             = Some {| value := with_path_value (value o) path;
                       transports := transports o |} ∧
             grows (fun _ => False) w w') ∧
  (∀ a o s w,
     objs (heap w) !! a = Some o →
     ∃ b w', WithTransports a s w = Done b w' ∧
             objs (heap w) !! b = None ∧
             objs (heap w') !! b = Some {| value := value o; transports := s |} ∧
             grows (fun _ => False) w w') ∧
  (∀ a o ms w,
     objs (heap w) !! a = Some o →
     ∃ w', SetTransports a ms w = Done tt w' ∧
           grows (eq a) w w' ∧
           transports_of a w' = Done (map TMultiaddr ms) w') ∧
  (∀ a o ss w,
     objs (heap w) !! a = Some o →
     ∃ w', SetTransportsFromStrings a ss w = Done tt w' ∧
           grows (eq a) w w' ∧
           transports_of a w' = Done (map TString ss) w') ∧
  (∀ k n a w r w',
     TranslateAddress (Use_fuel k n) n a w = Done r w' →
     mods (own_or_new (heap w) a) (heap w) (heap w')) ∧
  (∀ n a m p o w r w',
     Use n a m p o w = Done r w' →
     mods (own_or_new (heap w) a) (heap w) (heap w')).
Proof.
  split; [|split; [|split; [|split; [|split]]]].
  - intros a o path w Ha. eexists _, _.
    split; [apply (WithPath_eq _ _ _ _ Ha)|].
    split; [apply fresh_obj_None|]. split; [apply lookup_insert_eq|].
    split; [reflexivity | apply mods_alloc_obj].
  - intros a o s w Ha. eexists _, _.
    split; [apply (WithTransports_eq _ _ _ _ Ha)|].
    split; [apply fresh_obj_None|]. split; [apply lookup_insert_eq|].
    split; [reflexivity | apply mods_alloc_obj].
  - intros a o ms w Ha.
    destruct (SetTransports_reads a o ms w Ha) as (w' & E & R & _).
    exists w'. split; [exact E|]. split; [|exact R].
    now apply (SetTransports_grows (eq a)) in E as [G _].
  - intros a o ss w Ha.
    destruct (SetTransportsFromStrings_reads a o ss w Ha) as (w' & E & R & _).
    exists w'. split; [exact E|]. split; [|exact R].
    rewrite (SetTransportsFromStrings_eq _ _ _ _ Ha) in E. injection E as <-.
    split; [reflexivity|]. simpl.
    eapply mods_trans; [apply mods_alloc_arr|].
    now apply mods_write_obj with (o := o).
  - intros k n a w r w' H.
    apply TranslateAddress_effect in H as (_ & _ & _ & _ & _ & M & _);
      [exact M|].
    intros ? ? ? ? ? ? ?. apply Use_fuel_effect.
  - intros n a m p o w r w' H.
    now apply Use_fuel_effect in H as (_ & _ & _ & M & _).
Qed.

End CopyOnWrite.

Section StopFacts.
Context `{Sub : Substrate}.

(** ** Stop *)

(** C8.  [Stop] sets [Stopping], unregisters and closes the host, whatever
    the state was, and it returns: on a well-formed store, with a registry
    that answers searches with objects, the call ends with nil or with an
    error value.  When the unregistration and the closing of the host both
    succeed it returns nil and the node is [Stopped]; when either fails, the
    node is in [Error], each failure is appended to the error log, and the
    call returns them as one error. *)
Theorem Stop_outcome n w :
  (wf_heap (heap w) → leader_there n (heap w) → answers_objects n →
   returns (Stop n) w) ∧
  (∀ r w',
     Stop n w = Done r w' →
     ∃ w2 unregistered closed,
       Unregister n (stopping w) = Done unregistered w2 ∧
       closed = match p2pNode n with
                | None => None
                | Some h => fst (host_Close h (ext w2))
                end ∧
       errors (vars w')
       = (errors (vars w) ++ shutdown_errors unregistered closed)%list ∧
       match shutdown_errors unregistered closed with
       | [] => r = None ∧ state (vars w') = NodeStateStopped
       | errs =>
           r = Some ("errors during shutdown: " ++ format_errors errs) ∧
           state (vars w') = NodeStateError
       end).
Proof.
  split; [apply Stop_returns|]. intros r w'.
  unfold Stop. intros H.
  apply bind_inv in H as (u0 & w0 & H0 & H). injection H0 as _ <-.
  apply bind_inv in H as (u1 & w1 & H1 & H). injection H1 as _ <-.
  apply bind_inv in H as (unreg & w2 & H2 & H).
  pose proof (Unregister_counted _ _ _ _ H2) as (S2 & E2 & _).
  exists w2, unreg.
  apply bind_inv in H as (closed & w3 & H3 & H).
  assert (C : closed = match p2pNode n with
                       | None => None
                       | Some h => fst (host_Close h (ext w2))
                       end ∧ vars w3 = vars w2).
  { destruct (p2pNode n) as [h|].
    - apply bind_inv in H3 as (u & w4 & H4 & H3). injection H4 as _ <-.
      apply bind_inv in H3 as (x & w4 & H4 & H3). injection H4 as <- <-.
      apply bind_inv in H3 as (u' & w4 & H4 & H3). injection H4 as _ <-.
      apply ret_inv in H3 as [-> ->]. split; reflexivity.
    - apply ret_inv in H3 as [-> ->]. split; reflexivity. }
  destruct C as [C V3]. exists closed.
  split; [exact H2|]. split; [exact C|]. clear C.
  set (errs := match closed with Some _ => _ | None => _ end) in H.
  assert (Eq : errs = shutdown_errors unreg closed).
  { subst errs. unfold shutdown_errors. now destruct unreg, closed. }
  rewrite Eq in H. clear errs Eq.
  destruct (shutdown_errors unreg closed) as [|e es].
  - cbn in H. apply ret_inv in H as [-> ->]. cbn.
    rewrite app_nil_r, V3, E2. repeat split.
  - cbn [List.length Nat.ltb Nat.leb] in H.
    apply bind_inv in H as (u & w4 & H4 & H). injection H4 as _ <-.
    apply bind_inv in H as (u' & w5 & H5 & H).
    apply addErrors_inv in H5 as (_ & _ & S5 & E5).
    apply ret_inv in H as [-> ->]. cbn in S5, E5.
    rewrite E5, S5, V3, E2. repeat split.
Qed.

End StopFacts.

Section StringFacts.

(** ** Prefixes, suffixes, splitting and joining *)

Lemma substring_all (s : string) : String.substring 0 (String.length s) s = s.
Proof.
  induction s as [|c s IH]; [reflexivity|]. cbn. now rewrite IH.
Qed.

Lemma substring_skip (p s : string) (n : nat) :
  String.substring (String.length p) n (p ++ s) = String.substring 0 n s.
Proof. induction p as [|c p IH]; [reflexivity | exact IH]. Qed.

Lemma length_append (a b : string) :
  String.length (a ++ b) = (String.length a + String.length b)%nat.
Proof.
  induction a as [|c a IH]; [reflexivity|].
  change (S (String.length (a ++ b)) = S (String.length a + String.length b)).
  now rewrite IH.
Qed.

Lemma prefix_append (p s : string) : String.prefix p (p ++ s) = true.
Proof.
  induction p as [|c p IH]; [now destruct s|].
  change (String c p ++ s) with (String c (p ++ s)).
  cbn [String.prefix]. destruct (ascii_dec c c); [exact IH | contradiction].
Qed.

Lemma prefix_split (p s : string) :
  String.prefix p s = true → ∃ r, s = p ++ r.
Proof.
  revert s. induction p as [|c p IH]; intros s H; [now exists s|].
  destruct s as [|d s]; [discriminate|]. cbn [String.prefix] in H.
  destruct (ascii_dec c d) as [->|]; [|discriminate].
  destruct (IH _ H) as [r ->]. now exists r.
Qed.

Lemma HasPrefix_append (p s : string) : strings.HasPrefix (p ++ s) p = true.
Proof. apply prefix_append. Qed.

Lemma TrimPrefix_append (p s : string) : strings.TrimPrefix (p ++ s) p = s.
Proof.
  unfold strings.TrimPrefix. rewrite HasPrefix_append, substring_skip.
  rewrite length_append. replace (_ + _ - _)%nat with (String.length s) by lia.
  apply substring_all.
Qed.

Lemma TrimPrefix_no (p s : string) :
  strings.HasPrefix s p = false → strings.TrimPrefix s p = s.
Proof. unfold strings.TrimPrefix. now intros ->. Qed.

(** A value either starts with the scheme and is the scheme and its
    paths, or is its own paths. *)
Lemma paths_value_cases (v : string) :
  (strings.HasPrefix v "o://" = true ∧ v = "o://" ++ paths_value v) ∨
  (strings.HasPrefix v "o://" = false ∧ paths_value v = v).
Proof.
  unfold paths_value.
  destruct (strings.HasPrefix v "o://") eqn:E.
  - left. split; [reflexivity|]. apply prefix_split in E as [r ->].
    now rewrite TrimPrefix_append.
  - right. split; [reflexivity | now apply TrimPrefix_no].
Qed.

Lemma SplitByte_nonempty (s : string) (sep : ascii) : strings.SplitByte s sep ≠ [].
Proof.
  destruct s as [|c s]; [discriminate|]. cbn [strings.SplitByte].
  destruct (Ascii.eqb c sep); [discriminate|].
  destruct (strings.SplitByte s sep); discriminate.
Qed.

Lemma SplitByte_cons_other c s sep :
  Ascii.eqb c sep = false →
  ∃ x xs, strings.SplitByte s sep = x :: xs ∧
          strings.SplitByte (String c s) sep = String c x :: xs.
Proof.
  intros H. cbn [strings.SplitByte]. rewrite H.
  destruct (strings.SplitByte s sep) as [|x xs] eqn:E.
  - now apply SplitByte_nonempty in E.
  - now exists x, xs.
Qed.

(** Joining what was split gives the string back. *)
Lemma Join_SplitByte (s : string) (sep : ascii) :
  strings.Join (strings.SplitByte s sep) (String sep "") = s.
Proof.
  induction s as [|c s IH]; [reflexivity|].
  destruct (Ascii.eqb c sep) eqn:E.
  - apply Ascii.eqb_eq in E as ->. cbn [strings.SplitByte]. rewrite Ascii.eqb_refl.
    destruct (strings.SplitByte s sep) as [|x xs] eqn:Es.
    + now apply SplitByte_nonempty in Es.
    + change (strings.Join ("" :: x :: xs) (String sep ""))
        with (String sep (strings.Join (x :: xs) (String sep ""))).
      now rewrite IH.
  - destruct (SplitByte_cons_other c s sep E) as (x & xs & Es & ->).
    rewrite Es in IH. destruct xs as [|y ys].
    + cbn in IH |- *. now rewrite IH.
    + change (strings.Join (String c x :: y :: ys) (String sep ""))
        with (String c (strings.Join (x :: y :: ys) (String sep ""))).
      now rewrite IH.
Qed.

(** Splitting two strings joined by the separator. *)
Lemma SplitByte_append (a b : string) (sep : ascii) :
  strings.SplitByte (a ++ String sep b) sep
  = (strings.SplitByte a sep ++ strings.SplitByte b sep)%list.
Proof.
  induction a as [|c a IH].
  - change ("" ++ String sep b) with (String sep b).
    cbn [strings.SplitByte]. now rewrite Ascii.eqb_refl.
  - change (String c a ++ String sep b) with (String c (a ++ String sep b)).
    destruct (Ascii.eqb c sep) eqn:E.
    + cbn [strings.SplitByte]. rewrite E, IH. reflexivity.
    + destruct (SplitByte_cons_other c a sep E) as (x & xs & Ea & ->).
      cbn [strings.SplitByte]. rewrite E, IH, Ea. reflexivity.
Qed.

End StringFacts.

Section AddressMore.
Context `{Sub : Substrate}.

(** ** Segments *)

Lemma append_nil_r (s : string) : s ++ "" = s.
Proof.
  induction s as [|c s IH]; [reflexivity|].
  change (String c (s ++ "") = String c s). now rewrite IH.
Qed.

Lemma has_byte_SplitByte s sep :
  has_byte s sep = false → strings.SplitByte s sep = [s].
Proof.
  induction s as [|c s IH]; cbn [has_byte strings.SplitByte]; [reflexivity|].
  intros H. apply orb_false_elim in H as [H1 H2]. now rewrite H1, (IH H2).
Qed.

Lemma SplitByte_free s sep :
  Forall (fun x => has_byte x sep = false) (strings.SplitByte s sep).
Proof.
  induction s as [|c s IH]; [repeat constructor|].
  cbn [strings.SplitByte]. destruct (Ascii.eqb c sep) eqn:E.
  - constructor; [reflexivity | exact IH].
  - destruct (strings.SplitByte s sep) as [|x xs].
    + repeat constructor. cbn [has_byte]. now rewrite E.
    + inversion IH; subst. constructor; [|assumption].
      cbn [has_byte]. now rewrite E.
Qed.

Lemma paths_value_scheme (p : string) : paths_value ("o://" ++ p) = p.
Proof. apply TrimPrefix_append. Qed.

Lemma validate_value_paths (v : string) :
  validate_value v = true → v = "o://" ++ paths_value v.
Proof.
  intros H. destruct (paths_value_cases v) as [[_ E]|[E _]]; [exact E|].
  unfold validate_value in H. congruence.
Qed.

Lemma split_value_nonempty (v : string) :
  paths_value v ≠ "" → split_value v = strings.SplitByte (paths_value v) slash.
Proof.
  intros H. unfold split_value.
  destruct (String.eqb (paths_value v) "") eqn:E; [|reflexivity].
  now apply String.eqb_eq in E.
Qed.

Lemma split_value_empty (v : string) : paths_value v = "" → split_value v = [].
Proof. intros H. unfold split_value. now rewrite H. Qed.

Lemma append_slash_nonempty (a b : string) : a ++ String slash b ≠ "".
Proof. destruct a; discriminate. Qed.

Lemma root_value_cases (v : string) :
  (paths_value v = "" ∧ root_value v = v) ∨
  (paths_value v ≠ "" ∧
   ∃ x xs, strings.SplitByte (paths_value v) slash = x :: xs ∧
           has_byte x slash = false ∧ root_value v = "o://" ++ x).
Proof.
  unfold root_value.
  destruct (String.eqb (paths_value v) "") eqn:E.
  - left. now apply String.eqb_eq in E.
  - right. apply String.eqb_neq in E. split; [exact E|].
    pose proof (SplitByte_free (paths_value v) slash) as F.
    destruct (strings.SplitByte (paths_value v) slash) as [|x xs] eqn:Es.
    + now apply SplitByte_nonempty in Es.
    + inversion F; subst. eauto.
Qed.

(** X1.  [Root] is idempotent: the root of an address is its own root.
    This holds for every value, with or without the scheme, with or without
    a path. *)
Theorem Root_idempotent (v : string) :
  root_value (root_value v) = root_value v.
Proof.
  destruct (root_value_cases v) as [[_ E]|(_ & x & xs & _ & F & E)]; rewrite E.
  - exact E.
  - unfold root_value. rewrite paths_value_scheme.
    destruct (String.eqb x "") eqn:Ex; [reflexivity|].
    now rewrite (has_byte_SplitByte _ _ F).
Qed.

(** X2.  The components of an address, joined by slashes, are its path,
    and with the scheme in front they are the value of a valid address. *)
Theorem SplitAddress_round_trip a o w :
  objs (heap w) !! a = Some o →
  ∃ parts,
    SplitAddress a w = Done parts w ∧
    Paths a w = Done (strings.Join parts "/") w ∧
    (validate_value (value o) = true →
     value o = "o://" ++ strings.Join parts "/").
Proof.
  intros H. exists (split_value (value o)).
  assert (J : strings.Join (split_value (value o)) "/" = paths_value (value o)).
  { unfold split_value.
    destruct (String.eqb (paths_value (value o)) "") eqn:E.
    - apply String.eqb_eq in E. now rewrite E.
    - apply (Join_SplitByte _ slash). }
  split; [now apply SplitAddress_eq|]. split.
  - unfold Paths, bind. rewrite (deref_Some _ _ _ H), J. reflexivity.
  - intros V. rewrite J. now apply validate_value_paths.
Qed.

Lemma Paths_eq a o w :
  objs (heap w) !! a = Some o → Paths a w = Done (paths_value (value o)) w.
Proof. intros H. unfold Paths, bind. now rewrite (deref_Some _ _ _ H). Qed.

(** X3.  The components of a child address are the components of the
    parent's path followed by those of the child's path, each path split
    as it is: an empty path gives one empty component, so a parent that is
    only the scheme, or a child without path, leaves an empty component in
    the result.  The new address has no transports. *)
Theorem ChildAddress_segments parent child op oc w :
  objs (heap w) !! parent = Some op →
  objs (heap w) !! child = Some oc →
  ∃ l w',
    ChildAddress parent child w = Done l w' ∧
    objs (heap w) !! l = None ∧
    SplitAddress l w'
    = Done (strings.SplitByte (paths_value (value op)) slash ++
            strings.SplitByte (paths_value (value oc)) slash)%list w' ∧
    transports_of l w' = Done [] w'.
Proof.
  intros Hp Hc. unfold ChildAddress.
  rewrite (bind_Done _ _ _ _ _ (Paths_eq _ _ _ Hp)).
  rewrite (bind_Done _ _ _ _ _ (Paths_eq _ _ _ Hc)).
  set (pp := paths_value (value op)). set (cp := paths_value (value oc)).
  assert (Split : ∀ v,
    paths_value v = pp ++ String slash cp →
    ∃ l w', NewOAddress v None w = Done l w' ∧
      objs (heap w) !! l = None ∧
      SplitAddress l w'
      = Done (strings.SplitByte pp slash ++ strings.SplitByte cp slash)%list w' ∧
      transports_of l w' = Done [] w').
  { intros v Pv. rewrite NewOAddress_eq. eexists _, _. split; [reflexivity|].
    split; [apply fresh_obj_None|].
    assert (L : objs (heap (with_heap w
                (alloc_obj (heap w) {| value := v; transports := None |})))
              !! fresh (dom (objs (heap w)))
              = Some {| value := v; transports := None |})
      by apply lookup_insert_eq.
    split.
    - rewrite (SplitAddress_eq _ _ _ L). cbn [value].
      rewrite split_value_nonempty
        by (rewrite Pv; apply append_slash_nonempty).
      rewrite Pv. now rewrite (SplitByte_append pp cp slash).
    - now apply (transports_of_eq _ _ _ _ L). }
  destruct (String.eqb pp "") eqn:E; cbn [negb].
  - apply String.eqb_eq in E.
    rewrite (bind_Done _ _ _ _ _ (String_eq _ _ _ Hp)).
    apply Split. unfold Sprintf_s_slash_s. rewrite E.
    change ("" ++ String slash cp) with ("/" ++ cp).
    destruct (paths_value_cases (value op)) as [[_ V]|[_ V]]; fold pp in V.
    + rewrite V, E, append_assoc. apply paths_value_scheme.
    + rewrite <- V. fold pp. rewrite E. apply TrimPrefix_no. reflexivity.
  - apply Split. apply paths_value_scheme.
Qed.

End AddressMore.

Section PathFacts.
Context `{Sub : Substrate}.

(** ** Trailing slashes *)

Lemma HasSuffix_slash_cons c t :
  t ≠ "" → strings.HasSuffix (String c t) "/" = strings.HasSuffix t "/".
Proof.
  destruct t as [|d t]; [contradiction|]. intros _.
  unfold strings.HasSuffix.
  change (String.length "/") with 1%nat.
  change (String.length (String c (String d t))) with (S (S (String.length t))).
  change (String.length (String d t)) with (S (String.length t)).
  replace (S (S (String.length t)) - 1)%nat with (S (String.length t)) by lia.
  replace (S (String.length t) - 1)%nat with (String.length t) by lia.
  reflexivity.
Qed.

Lemma HasSuffix_slash_inv s :
  strings.HasSuffix s "/" = true → ∃ q, s = q ++ "/".
Proof.
  induction s as [|c s IH]; [discriminate|].
  destruct s as [|d s].
  - unfold strings.HasSuffix. cbn. intros H.
    destruct (Ascii.eqb c "/") eqn:E; [|discriminate].
    apply Ascii.eqb_eq in E as ->. now exists "".
  - rewrite HasSuffix_slash_cons by discriminate. intros H.
    destruct (IH H) as [q E]. exists (String c q). now rewrite E.
Qed.

Lemma has_byte_append a b c :
  has_byte (a ++ b) c = has_byte a c || has_byte b c.
Proof.
  induction a as [|d a IH]; [reflexivity|].
  change (String d a ++ b) with (String d (a ++ b)).
  cbn [has_byte]. now rewrite IH, orb_assoc.
Qed.

Lemma slash_free_no_suffix s :
  slash_free s → strings.HasSuffix s "/" = false.
Proof.
  intros F. destruct (strings.HasSuffix s "/") eqn:E; [|reflexivity].
  apply HasSuffix_slash_inv in E as [q ->].
  unfold slash_free in F. rewrite has_byte_append in F.
  apply orb_false_elim in F as [_ F]. discriminate.
Qed.

Lemma slash_free_no_prefix s :
  slash_free s → strings.HasPrefix s "/" = false.
Proof.
  destruct s as [|c s]; [reflexivity|]. unfold slash_free. cbn [has_byte].
  intros F. apply orb_false_elim in F as [F _].
  unfold strings.HasPrefix. cbn [String.prefix].
  destruct (ascii_dec "/" c) as [<-|]; [discriminate | reflexivity].
Qed.

Lemma HasSuffix_scheme p :
  p ≠ "" → strings.HasSuffix ("o://" ++ p) "/" = strings.HasSuffix p "/".
Proof.
  intros N.
  change ("o://" ++ p) with (String "o" (String ":" (String "/" (String "/" p)))).
  now rewrite !HasSuffix_slash_cons by (try discriminate; exact N).
Qed.

(** ** What [WithPath] does to the components *)

Lemma split_with_path v path :
  validate_value v = true → paths_value v ≠ "" →
  strings.HasSuffix v "/" = false → strings.HasPrefix path "/" = false →
  split_value (with_path_value v path)
  = (split_value v ++ strings.SplitByte path slash)%list.
Proof.
  intros V N S P. rewrite (with_path_value_neither _ _ S P).
  rewrite (split_value_nonempty v N).
  rewrite (validate_value_paths v V) at 1. rewrite append_assoc.
  change ("/" ++ path) with (String slash path).
  rewrite split_value_nonempty; rewrite paths_value_scheme;
    [|apply append_slash_nonempty].
  apply SplitByte_append.
Qed.

Lemma method_value_last v l m : split_value v = (l ++ [m])%list → method_value v = m.
Proof.
  intros E. unfold method_value, part. rewrite E, length_app.
  cbn [List.length]. replace (List.length l + 1 - 1)%nat with (List.length l) by lia.
  replace (0 <? List.length l + 1)%nat with true
    by (symmetry; apply Nat.ltb_lt; lia).
  apply nth_middle.
Qed.

Lemma method_with_path v m :
  validate_value v = true → slash_free m →
  method_value (with_path_value v m) = m.
Proof.
  intros V F.
  pose proof (slash_free_no_prefix m F) as P.
  pose proof (validate_value_paths v V) as E.
  destruct (String.eqb (paths_value v) "") eqn:Ep.
  - (* the receiver is the scheme alone *)
    apply String.eqb_eq in Ep. rewrite Ep, append_nil_r in E.
    rewrite with_path_value_one by (left; now rewrite E).
    rewrite E. unfold method_value, split_value. rewrite paths_value_scheme.
    destruct (String.eqb m "") eqn:Em.
    + apply String.eqb_eq in Em. now rewrite Em.
    + now rewrite (has_byte_SplitByte _ _ F).
  - apply String.eqb_neq in Ep.
    destruct (strings.HasSuffix v "/") eqn:S.
    + rewrite with_path_value_one by now left.
      rewrite E in S. rewrite (HasSuffix_scheme _ Ep) in S.
      apply HasSuffix_slash_inv in S as [q Eq].
      apply (method_value_last _ (strings.SplitByte q slash)).
      rewrite E, Eq, !append_assoc.
      change ("/" ++ m) with (String slash m).
      rewrite split_value_nonempty; rewrite paths_value_scheme;
        [|apply append_slash_nonempty].
      now rewrite SplitByte_append, (has_byte_SplitByte _ _ F).
    + apply (method_value_last _ (split_value v)).
      now rewrite (split_with_path v m V Ep S P), (has_byte_SplitByte _ _ F).
Qed.

End PathFacts.

Section AddressProps.
Context `{Sub : Substrate}.

Lemma HasSuffix_append a b :
  b ≠ "" → strings.HasSuffix (a ++ b) "/" = strings.HasSuffix b "/".
Proof.
  intros N. induction a as [|c a IH]; [reflexivity|].
  change (String c a ++ b) with (String c (a ++ b)).
  rewrite HasSuffix_slash_cons; [exact IH|].
  destruct a; [exact N | discriminate].
Qed.

Lemma new_address_there v s w :
  objs (heap (with_heap w (alloc_obj (heap w) {| value := v; transports := s |})))
    !! fresh (dom (objs (heap w)))
  = Some {| value := v; transports := s |}.
Proof. apply lookup_insert_eq. Qed.

Lemma GetMethod_eq a o w :
  objs (heap w) !! a = Some o → GetMethod a w = Done (method_value (value o)) w.
Proof. intros H. unfold GetMethod, bind. now rewrite (deref_Some _ _ _ H). Qed.

Lemma CustomTransports_eq a o ts w :
  objs (heap w) !! a = Some o →
  slice_elems (heap w) (transports o) = Some ts →
  CustomTransports a w = Done (custom_of ts) w.
Proof.
  intros H1 H2. unfold CustomTransports.
  now rewrite (bind_Done _ _ _ _ _ (transports_of_eq _ _ _ _ H1 H2)).
Qed.

Lemma Equals_eq a b oa ob w :
  objs (heap w) !! a = Some oa → objs (heap w) !! b = Some ob →
  Equals a b w = Done (String.eqb (value oa) (value ob)) w.
Proof.
  intros Ha Hb. unfold Equals.
  rewrite (bind_Done _ _ _ _ _ (deref_Some _ _ _ Ha)).
  now rewrite (bind_Done _ _ _ _ _ (deref_Some _ _ _ Hb)).
Qed.

Lemma libp2p_of_multiaddrs (ms : list Multiaddr) :
  libp2p_of (map TMultiaddr ms) = ms.
Proof. induction ms as [|m ms IH]; [reflexivity | cbn; now rewrite IH]. Qed.

Lemma custom_of_multiaddrs (ms : list Multiaddr) :
  custom_of (map TMultiaddr ms) = [].
Proof. induction ms as [|m ms IH]; [reflexivity | exact IH]. Qed.

Lemma all_of_multiaddrs (ms : list Multiaddr) :
  all_of (map TMultiaddr ms) = map ma_String ms.
Proof. induction ms as [|m ms IH]; [reflexivity | cbn; now rewrite IH]. Qed.

Lemma custom_of_strings (ss : list string) : custom_of (map TString ss) = ss.
Proof. induction ss as [|m ss IH]; [reflexivity | cbn; now rewrite IH]. Qed.

(** X4.  [WithPath] on a valid address appends the components of the path
    to those of the receiver, where the receiver has a path and does not
    end with a slash and the path does not begin with one; on the scheme
    alone the components are those of the path. *)
Theorem WithPath_segments a o path w :
  objs (heap w) !! a = Some o →
  validate_value (value o) = true →
  ∃ b w',
    WithPath a path w = Done b w' ∧
    (paths_value (value o) ≠ "" →
     strings.HasSuffix (value o) "/" = false →
     strings.HasPrefix path "/" = false →
     SplitAddress b w'
     = Done (split_value (value o) ++ strings.SplitByte path slash)%list w') ∧
    (paths_value (value o) = "" → path ≠ "" →
     SplitAddress b w' = Done (strings.SplitByte path slash) w').
Proof.
  intros H V. rewrite (WithPath_eq _ _ _ _ H). eexists _, _.
  split; [reflexivity|]. split.
  - intros N S P. rewrite (SplitAddress_eq _ _ _ (new_address_there _ _ _)).
    cbn [value]. now rewrite split_with_path.
  - intros E N. rewrite (SplitAddress_eq _ _ _ (new_address_there _ _ _)).
    cbn [value]. pose proof (validate_value_paths _ V) as Ev.
    rewrite E, append_nil_r in Ev.
    rewrite with_path_value_one by (left; now rewrite Ev).
    rewrite Ev, split_value_nonempty; now rewrite paths_value_scheme.
Qed.

(** X5.  The method of an address built with [WithPath] from a valid
    address and a name without slash is that name: [GetMethod] undoes
    [WithPath], whether or not the receiver ends with a slash. *)
Theorem GetMethod_WithPath a o m w :
  objs (heap w) !! a = Some o →
  validate_value (value o) = true →
  slash_free m →
  ∃ b w', WithPath a m w = Done b w' ∧ GetMethod b w' = Done m w'.
Proof.
  intros H V F. rewrite (WithPath_eq _ _ _ _ H). eexists _, _.
  split; [reflexivity|].
  rewrite (GetMethod_eq _ _ _ (new_address_there _ _ _)). cbn [value].
  now rewrite method_with_path.
Qed.

(** X6.  A tool address built from a root [o://r] by two calls of
    [WithPath], first with [tool] or [tools] and then with the name: it is
    a tool address, and both [GetToolName] and [GetMethod] give the name
    back. *)
Theorem tool_address_name r kind n :
  slash_free r → r ≠ "" → kind = "tool" ∨ kind = "tools" → slash_free n →
  let v := with_path_value (with_path_value ("o://" ++ r) kind) n in
  split_value v = [r; kind; n] ∧
  is_tool_value v = true ∧ tool_name_value v = n ∧ method_value v = n.
Proof.
  intros Fr Nr K Fn v.
  assert (Fk : slash_free kind) by (destruct K as [-> | ->]; reflexivity).
  assert (Nk : kind ≠ "") by (destruct K as [-> | ->]; discriminate).
  assert (S1 : split_value (with_path_value ("o://" ++ r) kind) = [r; kind]).
  { rewrite split_with_path.
    - rewrite split_value_nonempty; rewrite paths_value_scheme; [|exact Nr].
      now rewrite !has_byte_SplitByte.
    - apply HasPrefix_append.
    - now rewrite paths_value_scheme.
    - rewrite HasSuffix_scheme by exact Nr. now apply slash_free_no_suffix.
    - now apply slash_free_no_prefix. }
  assert (E1 : with_path_value ("o://" ++ r) kind = "o://" ++ (r ++ "/" ++ kind)).
  { rewrite with_path_value_neither.
    - apply append_assoc.
    - rewrite HasSuffix_scheme by exact Nr. now apply slash_free_no_suffix.
    - now apply slash_free_no_prefix. }
  assert (S2 : split_value v = [r; kind; n]).
  { unfold v. rewrite split_with_path.
    - now rewrite S1, (has_byte_SplitByte _ _ Fn).
    - rewrite E1. apply HasPrefix_append.
    - rewrite E1, paths_value_scheme. apply append_slash_nonempty.
    - rewrite E1, HasSuffix_scheme by apply append_slash_nonempty.
      rewrite <- append_assoc, HasSuffix_append by exact Nk.
      now apply slash_free_no_suffix.
    - now apply slash_free_no_prefix. }
  assert (T : is_tool_value v = true).
  { unfold is_tool_value. rewrite S2. destruct K as [-> | ->]; reflexivity. }
  split; [exact S2|]. split; [exact T|]. split.
  - unfold tool_name_value. rewrite T, S2. reflexivity.
  - now apply (method_value_last v [r; kind]).
Qed.

(** X7.  What the three views of the transports show after each setter:
    after [SetTransports] the libp2p view is the list given, the custom
    view is empty and the string view is the list printed; after
    [SetTransportsFromStrings] the custom and the string view are the list
    given and the libp2p view is empty. *)
Theorem setters_and_views a o w :
  objs (heap w) !! a = Some o →
  (∀ ms, ∃ w',
     SetTransports a ms w = Done tt w' ∧
     LibP2PTransports a w' = Done ms w' ∧
     CustomTransports a w' = Done [] w' ∧
     AllTransports a w' = Done (map ma_String ms) w') ∧
  (∀ ss, ∃ w',
     SetTransportsFromStrings a ss w = Done tt w' ∧
     LibP2PTransports a w' = Done [] w' ∧
     CustomTransports a w' = Done ss w' ∧
     AllTransports a w' = Done ss w').
Proof.
  intros H. split.
  - intros ms. rewrite (SetTransports_eq _ _ _ _ H). eexists.
    split; [reflexivity|].
    set (w' := with_heap w _).
    assert (Ha : objs (heap w') !! a
                 = Some {| value := value o;
                           transports := Some (fresh (dom (arrs (heap w)))) |})
      by apply lookup_insert_eq.
    assert (Hs : slice_elems (heap w') (Some (fresh (dom (arrs (heap w)))))
                 = Some (map TMultiaddr ms)) by apply lookup_insert_eq.
    rewrite (LibP2PTransports_eq _ _ _ _ Ha Hs),
            (CustomTransports_eq _ _ _ _ Ha Hs), (AllTransports_eq _ _ _ _ Ha Hs).
    now rewrite libp2p_of_multiaddrs, custom_of_multiaddrs, all_of_multiaddrs.
  - intros ss. rewrite (SetTransportsFromStrings_eq _ _ _ _ H). eexists.
    split; [reflexivity|].
    set (w' := with_heap w _).
    assert (Ha : objs (heap w') !! a
                 = Some {| value := value o;
                           transports := Some (fresh (dom (arrs (heap w)))) |})
      by apply lookup_insert_eq.
    assert (Hs : slice_elems (heap w') (Some (fresh (dom (arrs (heap w)))))
                 = Some (map TString ss)) by apply lookup_insert_eq.
    rewrite (LibP2PTransports_eq _ _ _ _ Ha Hs),
            (CustomTransports_eq _ _ _ _ Ha Hs), (AllTransports_eq _ _ _ _ Ha Hs).
    now rewrite libp2p_of_strings, custom_of_strings, all_of_strings.
Qed.

(** X8.  The libp2p view and the custom view partition the string view:
    every string of [AllTransports] is a printed multiaddr of
    [LibP2PTransports] or a string of [CustomTransports], and the other way
    round, and the lengths add up.  Elements that are neither are in no
    view. *)
Theorem views_partition a o ts w :
  objs (heap w) !! a = Some o →
  slice_elems (heap w) (transports o) = Some ts →
  ∃ l c all,
    LibP2PTransports a w = Done l w ∧
    CustomTransports a w = Done c w ∧
    AllTransports a w = Done all w ∧
    List.length all = (List.length l + List.length c)%nat ∧
    (List.length all ≤ List.length ts)%nat ∧
    (∀ s, s ∈ all ↔ s ∈ map ma_String l ∨ s ∈ c).
Proof.
  intros H1 H2. exists (libp2p_of ts), (custom_of ts), (all_of ts).
  split; [now apply (LibP2PTransports_eq _ _ _ _ H1)|].
  split; [now apply (CustomTransports_eq _ _ _ _ H1)|].
  split; [now apply (AllTransports_eq _ _ _ _ H1)|].
  clear H1 H2. split; [|split].
  - induction ts as [|[m|s|x] ts IH]; cbn [all_of libp2p_of custom_of List.length];
      lia.
  - induction ts as [|[m|s|x] ts IH]; cbn [all_of List.length]; lia.
  - intros s. induction ts as [|[m|s'|x] ts IH];
      cbn [all_of libp2p_of custom_of map].
    + rewrite !elem_of_nil. tauto.
    + rewrite !elem_of_cons, IH. tauto.
    + rewrite !elem_of_cons, IH. tauto.
    + exact IH.
Qed.

Lemma Replace1_prefix old new s :
  old ≠ "" → Replace1 (old ++ s) old new = new ++ s.
Proof.
  intros N. destruct old as [|c old]; [contradiction|].
  change (String c old ++ s) with (String c (old ++ s)).
  cbn [Replace1].
  change (String c (old ++ s)) with (String c old ++ s).
  rewrite HasPrefix_append, substring_skip, length_append.
  replace (_ + _ - _)%nat with (String.length s) by lia.
  now rewrite substring_all.
Qed.

(** X9.  From an address to its protocol form and back: for a valid
    address whose protocol form a multiaddr prints, [FromMultiaddr] of that
    multiaddr is a new address without transports that [Equals] the
    original one. *)
Theorem FromMultiaddr_Protocol a o ma w :
  objs (heap w) !! a = Some o →
  validate_value (value o) = true →
  ma_String ma = protocol_value (value o) →
  ∃ b w',
    FromMultiaddr ma w = Done b w' ∧
    objs (heap w) !! b = None ∧
    String_ b w' = Done (value o) w' ∧
    Equals a b w' = Done true w' ∧
    transports_of b w' = Done [] w'.
Proof.
  intros H V P. unfold FromMultiaddr. rewrite NewOAddress_eq.
  eexists _, _. split; [reflexivity|]. split; [apply fresh_obj_None|].
  assert (E : Replace1 (ma_String ma) "/o/" "o://" = value o).
  { rewrite P. unfold protocol_value.
    rewrite (validate_value_paths _ V) at 1.
    rewrite Replace1_prefix by discriminate.
    rewrite Replace1_prefix by discriminate.
    symmetry. now apply validate_value_paths. }
  rewrite E.
  pose proof (new_address_there (value o) None w) as Hb.
  assert (Ha : objs (heap (with_heap w
                 (alloc_obj (heap w) {| value := value o; transports := None |})))
               !! a = Some o).
  { cbn. rewrite lookup_insert_ne; [exact H|].
    apply not_eq_sym. eapply fresh_obj_ne; eauto. }
  split; [now rewrite (String_eq _ _ _ Hb)|]. split.
  - rewrite (Equals_eq _ _ _ _ _ Ha Hb). cbn [value].
    now rewrite String.eqb_refl.
  - now apply (transports_of_eq _ _ _ _ Hb).
Qed.

(** X10.  [ParseOAddress] accepts what [Validate] accepts: a value with
    the scheme gives a new valid address with that value and no
    transports, any other value gives the error and leaves the store as
    it was. *)
Theorem ParseOAddress_validates v w :
  ∃ r w',
    ParseOAddress v w = Done r w' ∧
    is_ok r = validate_value v ∧
    match r with
    | Ok b =>
        objs (heap w) !! b = None ∧
        Validate b w' = Done true w' ∧
        String_ b w' = Done v w' ∧
        transports_of b w' = Done [] w'
    | Err e => e = "invalid o-address: must start with o://" ∧ w' = w
    end.
Proof.
  unfold ParseOAddress, validate_value.
  destruct (strings.HasPrefix v "o://") eqn:E; cbn [negb].
  - rewrite (bind_Done _ _ _ _ _ (NewOAddress_eq _ _ _)).
    eexists _, _. split; [reflexivity|]. split; [reflexivity|].
    pose proof (new_address_there v None w) as Hb.
    split; [apply fresh_obj_None|]. split; [|split].
    + unfold Validate. rewrite (bind_Done _ _ _ _ _ (deref_Some _ _ _ Hb)).
      cbn [value]. unfold validate_value. now rewrite E.
    + now rewrite (String_eq _ _ _ Hb).
    + now apply (transports_of_eq _ _ _ _ Hb).
  - eexists _, _. split; [reflexivity|]. split; [reflexivity|]. split; reflexivity.
Qed.

End AddressProps.

Section DispatchProps.
Context `{Sub : Substrate}.

(** ** What a dispatch can return *)

Lemma HandleStatic_vars use a res w w' :
  HandleStaticAddressTranslation use a w = Done res w' →
  ∃ oa, objs (heap w) !! a = Some oa ∧
    if strings.HasPrefix (value oa) "o://leader" then vars w' = vars w
    else ∃ ts rr w2,
      use (search_addr w) "search"
          [("staticAddress", AStr (root_value (value oa)))] search_options
          (search_world w ts) = Done rr w2 ∧
      vars w' = vars w2.
Proof.
  intros H. apply HandleStatic_inv in H as (oa & Ha & H).
  exists oa. split; [exact Ha|].
  destruct (strings.HasPrefix (value oa) "o://leader").
  - now destruct H as [_ ->].
  - destruct H as (ts & _ & H).
    apply bind_inv in H as (rr & w2 & H1 & H2).
    apply static_search_result_grows in H2 as ([V _] & _).
    eauto.
Qed.

(** The translation of an address for a dispatch: it gives a result, the
    next hop is in the store with multiaddr transports only, and the fields
    of the node are those the nested search left. *)
Lemma TranslateAddress_inv use n a res w w' :
  dispatches use →
  TranslateAddress use n a w = Done res w' →
  ∃ oa tr lts,
    objs (heap w) !! a = Some oa ∧ res = Ok tr ∧
    transports_of (NextHopAddress tr) w' = Done (map TMultiaddr lts) w' ∧
    (addressResolution n = [] → NextHopAddress tr = TargetAddress tr) ∧
    (strings.HasPrefix (value oa) "o://leader" = true → TargetAddress tr = a) ∧
    if strings.HasPrefix (value oa) "o://leader" then vars w' = vars w
    else ∃ ts rr w2,
      use (search_addr w) "search"
          [("staticAddress", AStr (root_value (value oa)))] search_options
          (search_world w ts) = Done rr w2 ∧
      vars w' = vars w2.
Proof.
  intros Huse H. unfold TranslateAddress in H.
  apply bind_inv in H as (r1 & w1 & H1 & H).
  pose proof (HandleStatic_vars _ _ _ _ _ H1) as (oa & Ha & V1).
  pose proof (HandleStatic_inv _ _ _ _ _ H1) as (oa' & Ha' & I1).
  assert (oa' = oa) as -> by congruence.
  apply (HandleStatic_effect _ _ _ _ _ Huse) in H1
    as (_ & _ & p & _ & -> & _ & Sp & _).
  apply bind_inv in H as (r2 & w2 & H2 & H).
  pose proof H2 as H2'.
  apply Resolve_external_grows in H2 as ([V2 _] & q & -> & [oq Sq] & _);
    [|exact Sp].
  apply bind_inv in H as (lts & w3 & H3 & H).
  apply GetTransports_quiet in H3 as [Hh3 V3].
  apply bind_inv in H as (u & w4 & H4 & H).
  apply ret_inv in H as [-> ->].
  rewrite <- Hh3 in Sq.
  destruct (SetTransports_reads q oq lts w3 Sq) as (w5 & E5 & T5 & _).
  rewrite E5 in H4. injection H4 as <- <-.
  exists oa, {| NextHopAddress := q; TargetAddress := p |}, lts.
  split; [exact Ha|]. split; [reflexivity|]. split; [exact T5|].
  assert (V : vars w5 = vars w1).
  { rewrite (SetTransports_eq _ _ _ _ Sq) in E5. injection E5 as <-.
    cbn. now rewrite V3, V2. }
  split; [|split].
  - intros R. rewrite R in H2'. cbn in H2'. now injection H2' as ->.
  - intros U. rewrite U in I1. destruct I1 as [I1 _]. now injection I1 as ->.
  - destruct (strings.HasPrefix (value oa) "o://leader").
    + now rewrite V.
    + destruct V1 as (ts & rr & w2' & E & V1). exists ts, rr, w2'.
      split; [exact E | now rewrite V].
Qed.

Lemma dispatches_Use_fuel k n : dispatches (Use_fuel k n).
Proof. intros s m p o w1 r w2. apply Use_fuel_effect. Qed.

(** X11.  What translation leaves for the connection: [TranslateAddress]
    never fails, and the next hop it returns has the transports that
    [SetTransports] stored, multiaddrs only, so that no string hint reaches
    the connection manager; without resolvers the next hop is the target,
    and for an address under the registry root the target is the address
    given. *)
Theorem TranslateAddress_next_hop k n a res w w' :
  TranslateAddress (Use_fuel k n) n a w = Done res w' →
  ∃ oa tr lts,
    objs (heap w) !! a = Some oa ∧ res = Ok tr ∧
    transports_of (NextHopAddress tr) w' = Done (map TMultiaddr lts) w' ∧
    LibP2PTransports (NextHopAddress tr) w' = Done lts w' ∧
    CustomTransports (NextHopAddress tr) w' = Done [] w' ∧
    (addressResolution n = [] → NextHopAddress tr = TargetAddress tr) ∧
    (strings.HasPrefix (value oa) "o://leader" = true → TargetAddress tr = a).
Proof.
  intros H.
  apply (TranslateAddress_inv _ _ _ _ _ _ (dispatches_Use_fuel k n)) in H
    as (oa & tr & lts & Ha & -> & T & R & U & _).
  exists oa, tr, lts. split; [exact Ha|]. split; [reflexivity|].
  split; [exact T|].
  unfold LibP2PTransports, CustomTransports.
  rewrite !(bind_Done _ _ _ _ _ T).
  now rewrite libp2p_of_multiaddrs, custom_of_multiaddrs.
Qed.

Lemma Connect_errors n nh t e w w' :
  Connect n nh t w = Done (Err e) w' →
  (connectionManager n = None ∧ e = "connection manager not initialized") ∨
  e = "cannot dial self - ensure you're not connecting directly through the leader node" ∨
  (∃ x, e = "connection failed: " ++ x).
Proof.
  unfold Connect. intros H. destruct (connectionManager n) as [cm|].
  2:{ apply ret_inv in H as [[= ->] _]. now left. }
  right.
  apply bind_inv in H as (u & w1 & H1 & H). injection H1 as _ <-.
  apply bind_inv in H as (h & w2 & H2 & H). injection H2 as <- <-.
  apply bind_inv in H as (x & w2 & H2 & H). injection H2 as <- <-.
  apply bind_inv in H as (u2 & w2 & H2 & H). injection H2 as _ <-.
  destruct (fst (cm_Connect cm _ _ _)) as [c|err].
  - apply bind_inv in H as (s & w3 & _ & H).
    apply bind_inv in H as (u3 & w4 & _ & H). now apply ret_inv in H as [[=] _].
  - destruct (String.eqb err "Can not dial self").
    + apply ret_inv in H as [[= ->] _]. now left.
    + apply ret_inv in H as [[= ->] _]. right. now exists err.
Qed.

Lemma Use_fuel_errors k n a m p o w e w' :
  Use_fuel k n a m p o w = Done (Err e) w' →
  (connectionManager n = None ∧ e = no_manager) ∨
  e = dial_self ∨
  (∃ x, e = "failed to connect: connection failed: " ++ x) ∨
  (∃ x, e = "failed to send request: " ++ x).
Proof.
  destruct k as [|k]; [discriminate|]. cbn [Use_fuel]. intros H.
  apply bind_inv in H as (r1 & w1 & H1 & H).
  apply (TranslateAddress_inv _ _ _ _ _ _ (dispatches_Use_fuel k n)) in H1
    as (_ & tr & _ & _ & -> & _).
  apply bind_inv in H as (c & w2 & H2 & H).
  destruct c as [connection|err].
  - right. right. right.
    apply bind_inv in H as (t & w3 & _ & H).
    apply bind_inv in H as (r3 & w4 & _ & H).
    destruct r3 as [response|err].
    + apply bind_inv in H as (u & w5 & _ & H).
      apply bind_inv in H as (u2 & w6 & _ & H).
      now apply ret_inv in H as [[=] _].
    + apply bind_inv in H as (u & w5 & _ & H).
      apply bind_inv in H as (u2 & w6 & _ & H).
      apply ret_inv in H as [[= ->] _]. now exists err.
  - apply bind_inv in H as (u & w3 & _ & H).
    apply ret_inv in H as [[= ->] _].
    apply Connect_errors in H2 as [[N ->]|[->|[x ->]]].
    + left. now split.
    + right. now left.
    + right. right. left. now exists x.
Qed.

(** X12.  The errors of [Use]: a dispatch that fails has failed to
    connect (no connection manager, a dial to the node itself, or another
    connection failure) or to send.  The error for a failed translation is
    never returned, since translation does not fail. *)
Theorem Use_errors n a m p o w e w' :
  Use n a m p o w = Done (Err e) w' →
  (connectionManager n = None ∧ e = no_manager) ∨
  e = dial_self ∨
  (∃ x, e = "failed to connect: connection failed: " ++ x) ∨
  (∃ x, e = "failed to send request: " ++ x).
Proof. apply Use_fuel_errors. Qed.

Lemma Use_fuel_no_manager k n :
  connectionManager n = None →
  ∀ a m p o r w w',
    Use_fuel k n a m p o w = Done r w' →
    ∃ oa, objs (heap w) !! a = Some oa ∧ r = Err no_manager ∧
          vars w' = bumps (repeat false (invocations_for (value oa))) (vars w).
Proof.
  intros N. induction k as [|k IH]; intros a m p o r w w' H; [discriminate|].
  cbn [Use_fuel] in H.
  apply bind_inv in H as (r1 & w1 & H1 & H).
  apply (TranslateAddress_inv _ _ _ _ _ _ (dispatches_Use_fuel k n)) in H1
    as (oa & tr & _ & Ha & -> & _ & _ & _ & V).
  unfold Connect in H. rewrite N in H.
  apply bind_inv in H as (c & w2 & H2 & H). apply ret_inv in H2 as [-> ->].
  apply bind_inv in H as (u & w3 & H3 & H).
  rewrite incrementErrorCount_eq in H3. injection H3 as _ <-.
  apply ret_inv in H as [-> ->].
  exists oa. split; [exact Ha|]. split; [reflexivity|].
  unfold invocations_for. cbn [vars with_vars].
  destruct (strings.HasPrefix (value oa) "o://leader").
  - now rewrite V.
  - destruct V as (ts & rr & w2 & E & V).
    apply IH in E as (os & Hs & _ & Vs).
    destruct (search_world_addr w ts) as (os' & Hs' & Hval).
    assert (os = os') as -> by congruence. rewrite Hval in Vs.
    rewrite V, Vs. reflexivity.
Qed.

(** X13.  A node without connection manager, which is every node as
    [NewCoreNode] builds it: each call of [Use] that returns has failed at
    the connection with the same error, the success counter is as it was,
    and the error counter was incremented once for the call and once for
    the registry search of an address outside the registry root.  On a
    well-formed store the call does return. *)
Theorem Use_without_manager n a m p o w :
  connectionManager n = None →
  (∀ r w',
     Use n a m p o w = Done r w' →
     ∃ oa, objs (heap w) !! a = Some oa ∧ r = Err no_manager ∧
           vars w' = bumps (repeat false (invocations_for (value oa))) (vars w) ∧
           successCount (vars w') = successCount (vars w)) ∧
  (wf_heap (heap w) → leader_there n (heap w) →
   is_Some (objs (heap w) !! a) → returns (Use n a m p o) w).
Proof.
  intros N. split.
  - intros r w' H.
    apply (Use_fuel_no_manager _ _ N) in H as (oa & Ha & -> & V).
    exists oa. split; [exact Ha|]. split; [reflexivity|]. split; [exact V|].
    rewrite V. unfold invocations_for.
    destruct (strings.HasPrefix (value oa) "o://leader"); reflexivity.
  - intros W L Sa.
    destruct (Use_returns n a m p o w W L) as (r & w' & E & _); [|exact Sa|].
    + intros cm ps h x c sp y resp C. congruence.
    + now exists r, w'.
Qed.

Lemma Send_events c sp r w w' :
  Send c sp w = Done r w' → events w' = (events w ++ [EvSend sp])%list.
Proof.
  unfold Send, bind, emit, get_ext, put_ext, ret. cbn.
  now intros [= _ <-].
Qed.

Lemma Close_events c u w w' :
  Close c w = Done u w' → events w' = (events w ++ [EvConnClose])%list.
Proof.
  unfold Close, bind, emit, get_ext, put_ext. cbn. intros H.
  injection H as _ <-. reflexivity.
Qed.

Lemma Use_fuel_closes k n a m p o r w w' :
  Use_fuel k n a m p o w = Done r w' →
  is_ok r = true ∨ (∃ x, r = Err ("failed to send request: " ++ x)) →
  ∃ evs target,
    events w'
    = (evs ++ [EvSend {| sp_Address := target;
                         sp_Payload := [("method", AStr m);
                                        ("params", AMap p)] |};
               EvConnClose])%list.
Proof.
  destruct k as [|k]; [discriminate|]. cbn [Use_fuel]. intros H R.
  apply bind_inv in H as (r1 & w1 & H1 & H).
  apply (TranslateAddress_inv _ _ _ _ _ _ (dispatches_Use_fuel k n)) in H1
    as (_ & tr & _ & _ & -> & _).
  apply bind_inv in H as (c & w2 & H2 & H).
  destruct c as [connection|err].
  2:{ apply bind_inv in H as (u & w3 & _ & H).
      apply ret_inv in H as [-> _].
      destruct R as [R|[x R]]; [discriminate|].
      injection R as R. cbn [String.append] in R. discriminate. }
  apply bind_inv in H as (t & w3 & H3 & H). apply String_inv in H3 as [-> _].
  apply bind_inv in H as (r3 & w3 & H3 & H).
  apply Send_events in H3.
  assert (E : events w' = (events w3 ++ [EvConnClose])%list).
  { destruct r3 as [response|err];
      apply bind_inv in H as (u & w4 & H4 & H);
      [rewrite incrementSuccessCount_eq in H4
      |rewrite incrementErrorCount_eq in H4];
      injection H4 as _ <-;
      apply bind_inv in H as (u2 & w5 & H5 & H);
      apply Close_events in H5; apply ret_inv in H as [_ ->]; exact H5. }
  exists (events w2), t. now rewrite E, H3, <- app_assoc.
Qed.

(** X26.  The connection of a dispatch is closed: when [Use] returns a
    response, or the error of a failed send, the last two things the node
    did to the outside are the send, with the method and the parameters of
    the call in the payload, and the closing of the connection. *)
Theorem Use_closes_connection n a m p o r w w' :
  Use n a m p o w = Done r w' →
  is_ok r = true ∨ (∃ x, r = Err ("failed to send request: " ++ x)) →
  ∃ evs target,
    events w'
    = (evs ++ [EvSend {| sp_Address := target;
                         sp_Payload := [("method", AStr m);
                                        ("params", AMap p)] |};
               EvConnClose])%list.
Proof. apply Use_fuel_closes. Qed.

(** ** The resolver chain: transports *)


End DispatchProps.

Section LifecycleProps.
Context `{Sub : Substrate}.

(** ** Start *)

Lemma Start_inv n r w w' :
  Start n w = Done r w' →
  r = None ∧ errors (vars w') = errors (vars w) ∧
  state (vars w') = started (state (vars w)).
Proof.
  unfold Start, started. intros H.
  apply bind_inv in H as (s & w0 & H0 & H).
  unfold State in H0. apply bind_inv in H0 as (v & w1 & H0 & H1).
  injection H0 as <- <-. apply ret_inv in H1 as [-> ->].
  destruct (NodeState_eqb (state (vars w)) NodeStateStopped).
  2:{ cbn in H. apply ret_inv in H as [-> ->]. repeat split. }
  cbn [negb] in H.
  apply bind_inv in H as (u & w1 & H1 & H). injection H1 as _ <-.
  apply bind_inv in H as (ri & w2 & H2 & H).
  unfold Initialize in H2. apply bind_inv in H2 as (u2 & w3 & H3 & H2).
  injection H3 as _ <-. apply ret_inv in H2 as [-> ->].
  apply bind_inv in H as (rr & w2 & H2 & H).
  apply Register_counted in H2 as (_ & E2 & _). cbn in E2.
  apply bind_inv in H as (u3 & w3 & H3 & H).
  assert (V3 : vars w3 = vars w2).
  { destruct rr; [now apply log_inv in H3 as [_ V] | now apply ret_inv in H3 as [_ ->]]. }
  apply bind_inv in H as (u4 & w4 & H4 & H). injection H4 as _ <-.
  apply bind_inv in H as (u5 & w5 & H5 & H). injection H5 as _ <-.
  apply ret_inv in H as [-> ->]. cbn. rewrite V3. repeat split. exact E2.
Qed.




Lemma Register_standalone n :
  Type_ n = NodeTypeLeader ∨ cfg_Leader (config n) = None →
  ∃ msgs, ∀ w,
    Register n w
    = Done None (logged w (map (fun lm => EvLog (fst lm) (snd lm)) msgs)).
Proof.
  intros C. unfold Register.
  destruct (String.eqb (Type_ n) NodeTypeLeader) eqn:E.
  - exists [(LDebug, "Skipping registration - node is leader")]. reflexivity.
  - destruct C as [C|C]; [rewrite C in E; discriminate|]. rewrite C.
    exists [(LDebug, "Registering node...");
            (LWarn, "No leader configured, skipping registration")].
    intros w. unfold bind, log, emit, ret, logged. cbn.
    now rewrite <- app_assoc.
Qed.

(** X16.  A leader, or a node with no leader configured, starts without a
    dispatch: from [Stopped], [Start] returns nil with the node [Running],
    and the store, the collaborators' state and the counters are as they
    were; it has only written to the log. *)
Theorem Start_standalone n w :
  state (vars w) = NodeStateStopped →
  Type_ n = NodeTypeLeader ∨ cfg_Leader (config n) = None →
  ∃ msgs,
    Start n w
    = Done None
        {| heap := heap w;
           vars := {| state := NodeStateRunning; errors := errors (vars w);
                      successCount := successCount (vars w);
                      errorCount := errorCount (vars w) |};
           ext := ext w;
           events :=
             (events w ++ map (fun lm => EvLog (fst lm) (snd lm)) msgs)%list |}.
Proof.
  intros S C. destruct (Register_standalone n C) as (msgs & R).
  exists ((LDebug, "Initializing core node...") :: msgs
          ++ [(LInfo, "Node started successfully")])%list.
  unfold Start. erewrite bind_Done by reflexivity.
  rewrite S. cbn [NodeState_eqb negb].
  erewrite bind_Done by reflexivity.
  erewrite bind_Done by reflexivity.
  cbv beta iota.
  rewrite (bind_Done _ _ _ _ _ (R _)).
  erewrite bind_Done by reflexivity.
  erewrite bind_Done by reflexivity.
  erewrite bind_Done by reflexivity.
  unfold ret, logged. cbn. rewrite map_app. cbn.
  now rewrite <- !app_assoc.
Qed.

(** ** Stop *)

Lemma Stop_inv n r w w' :
  Stop n w = Done r w' →
  ∃ w2 unregistered closed,
    Unregister n (stopping w) = Done unregistered w2 ∧
    closed = match p2pNode n with
             | None => None
             | Some h => fst (host_Close h (ext w2))
             end ∧
    errors (vars w')
    = (errors (vars w) ++ shutdown_errors unregistered closed)%list ∧
    match shutdown_errors unregistered closed with
    | [] => r = None ∧ state (vars w') = NodeStateStopped
    | errs =>
        r = Some ("errors during shutdown: " ++ format_errors errs) ∧
        state (vars w') = NodeStateError
    end.
Proof.
  unfold Stop. intros H.
  apply bind_inv in H as (u0 & w0 & H0 & H). injection H0 as _ <-.
  apply bind_inv in H as (u1 & w1 & H1 & H). injection H1 as _ <-.
  apply bind_inv in H as (unreg & w2 & H2 & H).
  pose proof (Unregister_counted _ _ _ _ H2) as (S2 & E2 & _).
  exists w2, unreg.
  apply bind_inv in H as (closed & w3 & H3 & H).
  assert (C : closed = match p2pNode n with
                       | None => None
                       | Some h => fst (host_Close h (ext w2))
                       end ∧ vars w3 = vars w2).
  { destruct (p2pNode n) as [h|].
    - apply bind_inv in H3 as (u & w4 & H4 & H3). injection H4 as _ <-.
      apply bind_inv in H3 as (x & w4 & H4 & H3). injection H4 as <- <-.
      apply bind_inv in H3 as (u' & w4 & H4 & H3). injection H4 as _ <-.
      apply ret_inv in H3 as [-> ->]. split; reflexivity.
    - apply ret_inv in H3 as [-> ->]. split; reflexivity. }
  destruct C as [C V3]. exists closed.
  split; [exact H2|]. split; [exact C|]. clear C.
  set (errs := match closed with Some _ => _ | None => _ end) in H.
  assert (Eq : errs = shutdown_errors unreg closed).
  { subst errs. unfold shutdown_errors. now destruct unreg, closed. }
  rewrite Eq in H. clear errs Eq.
  destruct (shutdown_errors unreg closed) as [|e es].
  - cbn in H. apply ret_inv in H as [-> ->]. cbn.
    rewrite app_nil_r, V3, E2. repeat split.
  - cbn [List.length Nat.ltb Nat.leb] in H.
    apply bind_inv in H as (u & w4 & H4 & H). injection H4 as _ <-.
    apply bind_inv in H as (u' & w5 & H5 & H).
    apply addErrors_inv in H5 as (_ & _ & S5 & E5).
    apply ret_inv in H as [-> ->]. cbn in S5, E5.
    rewrite E5, S5, V3, E2. repeat split.
Qed.

Lemma Unregister_no_manager n r w w' :
  connectionManager n = None →
  String.eqb (Type_ n) NodeTypeLeader = false →
  Unregister n w = Done r w' → r = Some no_manager.
Proof.
  intros N T. unfold Unregister. rewrite T. intros H.
  apply bind_inv in H as (reg & w2 & _ & H).
  apply bind_inv in H as (ru & w3 & H3 & H).
  apply (Use_fuel_no_manager _ _ N) in H3 as (_ & _ & -> & _).
  apply bind_inv in H as (u & w4 & _ & H).
  now apply ret_inv in H as [-> _].
Qed.

(** X17.  A node that is no leader and has no connection manager cannot
    stop cleanly: every [Stop] that returns has failed to unregister,
    returns the shutdown error, appends the failure to the error log and
    leaves the node in [Error]; and a [Start] after it leaves it there. *)
Theorem Stop_without_manager n r w w' :
  connectionManager n = None →
  String.eqb (Type_ n) NodeTypeLeader = false →
  Stop n w = Done r w' →
  ∃ closed,
    r = Some ("errors during shutdown: "
              ++ format_errors (shutdown_errors (Some no_manager) closed)) ∧
    state (vars w') = NodeStateError ∧
    errors (vars w')
    = (errors (vars w) ++ shutdown_errors (Some no_manager) closed)%list ∧
    (p2pNode n = None → closed = None) ∧
    (∀ r2 w2, Start n w' = Done r2 w2 →
              r2 = None ∧ state (vars w2) = NodeStateError).
Proof.
  intros N T H.
  apply Stop_inv in H as (w2 & unreg & closed & U & C & E & M).
  apply (Unregister_no_manager _ _ _ _ N T) in U as ->.
  exists closed. cbn [shutdown_errors app] in M. destruct M as [-> S].
  split; [reflexivity|]. split; [exact S|]. split; [exact E|]. split.
  - intros P. now rewrite P in C.
  - intros r2 w3 H. apply Start_inv in H as (-> & _ & S3).
    split; [reflexivity|]. now rewrite S3, S.
Qed.

(** X18.  Stopping and starting again: after a [Stop] that returned nil
    the next [Start] leaves the node [Running]; after a [Stop] that
    returned an error the node is in [Error] and [Start] leaves it there.
    The error log after both calls is the log [Stop] left. *)
Theorem Stop_then_Start n r w w1 r' w2 :
  Stop n w = Done r w1 →
  Start n w1 = Done r' w2 →
  r' = None ∧
  errors (vars w2) = errors (vars w1) ∧
  state (vars w2) = match r with
                    | None => NodeStateRunning
                    | Some _ => NodeStateError
                    end.
Proof.
  intros H1 H2.
  apply Stop_inv in H1 as (_ & unreg & closed & _ & _ & _ & M).
  apply Start_inv in H2 as (-> & E & S).
  split; [reflexivity|]. split; [exact E|]. rewrite S.
  destruct (shutdown_errors unreg closed); destruct M as [-> ->]; reflexivity.
Qed.

(** ** The error log *)

Lemma perform_errors n c u w w' :
  perform n c w = Done u w' →
  ∃ more, errors (vars w') = (errors (vars w) ++ more)%list ∧
          (c ≠ CallStop → more = []).
Proof.
  destruct c as [a m p o| | | |]; cbn [perform]; intros H;
    apply bind_inv in H as (r & w1 & H1 & H); apply ret_inv in H as [_ ->].
  - exists []. split; [|reflexivity].
    apply Use_fuel_effect in H1 as (oa & nested & _ & _ & V & _).
    rewrite V, app_nil_r.
    change (bump (is_ok r) (bumps nested (vars w)))
      with (bumps [is_ok r] (bumps nested (vars w))).
    rewrite <- bumps_app. apply bumps_state_errors.
  - exists []. split; [|reflexivity].
    apply Start_inv in H1 as (_ & E & _). now rewrite app_nil_r.
  - apply Stop_inv in H1 as (_ & unreg & closed & _ & _ & E & _).
    exists (shutdown_errors unreg closed). split; [exact E | congruence].
  - exists []. split; [|reflexivity]. rewrite app_nil_r.
    unfold WhoAmI in H1.
    apply bind_inv in H1 as (s & w2 & H2 & H1). apply String_inv in H2 as [-> _].
    apply bind_inv in H1 as (v & w2 & H2 & H1). injection H2 as _ <-.
    apply bind_inv in H1 as (ts & w2 & H2 & H1). apply Transports_inv in H2 as ->.
    now apply ret_inv in H1 as [_ ->].
  - exists []. split; [|reflexivity]. rewrite app_nil_r.
    unfold Errors in H1.
    apply bind_inv in H1 as (v & w2 & H2 & H1). injection H2 as _ <-.
    now apply ret_inv in H1 as [_ ->].
Qed.

(** X19.  The error log only grows: over any sequence of calls the log
    before is a prefix of the log after, and a sequence without [Stop]
    leaves it as it was.  In particular no failure of [Use] and no failed
    registration is recorded in it. *)
Theorem error_log_append_only n cs w w' :
  perform_all n cs w = Done tt w' →
  ∃ more, errors (vars w') = (errors (vars w) ++ more)%list ∧
          (Forall (fun c => c ≠ CallStop) cs → more = []).
Proof.
  revert w. induction cs as [|c cs IH]; intros w H.
  - apply ret_inv in H as [_ ->]. exists []. now rewrite app_nil_r.
  - cbn [perform_all] in H. apply bind_inv in H as (u & w1 & H1 & H).
    apply perform_errors in H1 as (m1 & E1 & N1).
    apply IH in H as (m2 & E2 & N2).
    exists (m1 ++ m2)%list. split.
    + now rewrite E2, E1, app_assoc.
    + intros F. inversion F; subst. now rewrite N1, N2.
Qed.

End LifecycleProps.

Section ConstructionProps.
Context `{Sub : Substrate}.

(** ** Construction *)

Lemma NewCoreNode_eq cfg o ts w :
  objs (heap w) !! cfg_Address cfg = Some o →
  slice_elems (heap w) (transports o) = Some ts →
  NewCoreNode (Some cfg) w
  = Done {| p2pNode := None; address := cfg_Address cfg;
            staticAddress := fresh (dom (objs (heap w))); peerId := "";
            connectionManager := None; addressResolution := [];
            config := cfg |}
         (with_vars
            (with_heap w
               (alloc_obj (alloc_arr (heap w) ts)
                  {| value := value o;
                     transports := Some (fresh (dom (arrs (heap w)))) |}))
            initial_vars).
Proof.
  intros H1 H2. unfold NewCoreNode.
  erewrite bind_Done by reflexivity.
  rewrite (bind_Done _ _ _ _ _ (String_eq _ _ _ H1)).
  rewrite (bind_Done _ _ _ _ _ (Clone_eq _ _ _ _ H1 H2)).
  reflexivity.
Qed.

(** X20.  The node [NewCoreNode] builds: it keeps the pointer of the
    configuration as its address, its static address is a new address with
    the same value and the same transports in an array of its own, so that
    replacing the transports of the address leaves those of the static
    address as they were; it is [Stopped] with an empty error log and
    counters at zero, and has neither host nor connection manager. *)
Theorem NewCoreNode_fresh cfg o ts w :
  objs (heap w) !! cfg_Address cfg = Some o →
  slice_elems (heap w) (transports o) = Some ts →
  ∃ n w',
    NewCoreNode (Some cfg) w = Done n w' ∧
    address n = cfg_Address cfg ∧ config n = cfg ∧
    objs (heap w) !! staticAddress n = None ∧
    String_ (staticAddress n) w' = Done (value o) w' ∧
    transports_of (staticAddress n) w' = Done ts w' ∧
    transports_of (address n) w' = Done ts w' ∧
    vars w' = initial_vars ∧
    connectionManager n = None ∧ p2pNode n = None ∧
    (∀ ms, ∃ w2,
       SetTransports (address n) ms w' = Done tt w2 ∧
       transports_of (address n) w2 = Done (map TMultiaddr ms) w2 ∧
       transports_of (staticAddress n) w2 = Done ts w2).
Proof.
  intros H1 H2. rewrite (NewCoreNode_eq _ _ _ _ H1 H2).
  eexists _, _. split; [reflexivity|]. cbn [address staticAddress config
    connectionManager p2pNode].
  set (s := fresh (dom (arrs (heap w)))).
  set (b := fresh (dom (objs (heap w)))).
  set (ob := {| value := value o; transports := Some s |}).
  set (w' := with_vars _ _).
  assert (Hab : cfg_Address cfg ≠ b) by (eapply fresh_obj_ne; eauto).
  assert (Hb : objs (heap w') !! b = Some ob) by apply lookup_insert_eq.
  assert (Ha : objs (heap w') !! cfg_Address cfg = Some o).
  { cbn. rewrite lookup_insert_ne by auto. exact H1. }
  assert (Hs : slice_elems (heap w') (transports ob) = Some ts)
    by apply lookup_insert_eq.
  assert (Hts : slice_elems (heap w') (transports o) = Some ts).
  { change (slice_elems (alloc_arr (heap w) ts) (transports o) = Some ts).
    now apply slice_elems_alloc_arr. }
  split; [reflexivity|]. split; [reflexivity|].
  split; [apply fresh_obj_None|].
  split; [now rewrite (String_eq _ _ _ Hb)|].
  split; [now apply (transports_of_eq _ _ _ _ Hb)|].
  split; [now apply (transports_of_eq _ _ _ _ Ha)|].
  split; [reflexivity|]. split; [reflexivity|]. split; [reflexivity|].
  intros ms.
  destruct (SetTransports_reads (cfg_Address cfg) o ms w' Ha) as (w2 & E & T & O).
  exists w2. split; [exact E|]. split; [exact T|].
  apply (O b ob ts); auto.
Qed.

Lemma Stop_no_manager_state n r w w' :
  connectionManager n = None →
  String.eqb (Type_ n) NodeTypeLeader = false →
  Stop n w = Done r w' →
  is_Some r ∧ state (vars w') = NodeStateError.
Proof.
  intros N T H.
  apply Stop_inv in H as (w2 & unreg & closed & U & _ & _ & M).
  apply (Unregister_no_manager _ _ _ _ N T) in U as ->.
  cbn [shutdown_errors app] in M. destruct M as [-> S]. split; [eauto | exact S].
Qed.

Lemma DefaultCoreConfig_eq w :
  ∃ cfg w0,
    DefaultCoreConfig w = Done cfg w0 ∧
    cfg_Leader cfg = None ∧ cfg_Type cfg = NodeTypeUnknown ∧
    objs (heap w0) !! cfg_Address cfg
    = Some {| value := "o://node"; transports := None |} ∧
    ext w0 = ext w ∧
    NewCoreNode None w = NewCoreNode (Some cfg) w0.
Proof.
  eexists _, _. split; [reflexivity|]. split; [reflexivity|].
  split; [reflexivity|]. split; [apply lookup_insert_eq|].
  split; reflexivity.
Qed.

(** X21.  The life of a node built without a configuration: its address
    is [o://node] and its type [unknown]; its first [Start] makes no
    dispatch and leaves it [Running]; and every [Stop] after that fails
    and leaves it in [Error], since the node is no leader and has no
    connection manager to unregister through. *)
Theorem default_node_lifecycle w :
  ∃ n w1 w2,
    NewCoreNode None w = Done n w1 ∧
    String_ (address n) w1 = Done "o://node" w1 ∧
    Type_ n = NodeTypeUnknown ∧
    Start n w1 = Done None w2 ∧
    state (vars w2) = NodeStateRunning ∧
    heap w2 = heap w1 ∧ ext w2 = ext w ∧
    (∀ r w3, Stop n w2 = Done r w3 →
             is_Some r ∧ state (vars w3) = NodeStateError).
Proof.
  destruct (DefaultCoreConfig_eq w) as (cfg & w0 & _ & Lc & Tc & Ha & X0 & E).
  rewrite E, (NewCoreNode_eq cfg _ [] w0 Ha eq_refl). clear E.
  set (n := {| p2pNode := None; address := cfg_Address cfg |}).
  set (w1 := with_vars _ initial_vars).
  assert (Tn : Type_ n = NodeTypeUnknown).
  { unfold Type_. cbn [config n]. now rewrite Tc. }
  destruct (Register_standalone n (or_intror Lc)) as (msgs & R).
  assert (S : ∃ w2, Start n w1 = Done None w2 ∧
                    state (vars w2) = NodeStateRunning ∧
                    heap w2 = heap w1 ∧ ext w2 = ext w).
  { unfold Start. erewrite bind_Done by reflexivity.
    cbn [NodeState_eqb negb vars w1 with_vars initial_vars state].
    erewrite bind_Done by reflexivity.
    erewrite bind_Done by reflexivity.
    cbv beta iota.
    rewrite (bind_Done _ _ _ _ _ (R _)).
    erewrite bind_Done by reflexivity.
    erewrite bind_Done by reflexivity.
    erewrite bind_Done by reflexivity.
    eexists. split; [reflexivity|]. split; [reflexivity|].
    split; [reflexivity | exact X0]. }
  destruct S as (w2 & S & R2 & H2 & X2).
  exists n, w1, w2. split; [reflexivity|].
  split.
  { apply (String_eq (address n) {| value := "o://node"; transports := None |}).
    cbn. rewrite lookup_insert_ne; [exact Ha|].
    apply not_eq_sym. eapply fresh_obj_ne. exact Ha. }
  split; [exact Tn|]. split; [exact S|]. split; [exact R2|].
  split; [exact H2|]. split; [exact X2|].
  intros r w3. apply Stop_no_manager_state; [reflexivity|].
  now rewrite Tn.
Qed.

(** ** The parent *)

Lemma all_of_no_custom (ts : list Transport) :
  custom_of ts = [] → all_of ts = map ma_String (libp2p_of ts).
Proof.
  induction ts as [|[m|s|x] ts IH]; cbn [custom_of all_of libp2p_of map];
    intros H; [reflexivity | now rewrite IH | discriminate | now apply IH].
Qed.

(** X22.  [ParentTransports]: a node without parent has none; with a
    parent, the result is what parses among all the parent's transports
    as strings, string hints included, and it is the parent's multiaddrs
    themselves when the parent has no string hints and its multiaddrs
    print and parse back. *)
Theorem ParentTransports_hints n w :
  (Parent n = None → ParentTransports n w = Done [] w) ∧
  (∀ parent o ts,
     Parent n = Some parent →
     objs (heap w) !! parent = Some o →
     slice_elems (heap w) (transports o) = Some ts →
     ParentTransports n w = Done (parse_transports (all_of ts)) w ∧
     (custom_of ts = [] → round_trips (libp2p_of ts) →
      ParentTransports n w = Done (libp2p_of ts) w)).
Proof.
  unfold ParentTransports. split.
  - now intros ->.
  - intros parent o ts -> H1 H2.
    rewrite (bind_Done _ _ _ _ _ (AllTransports_eq _ _ _ _ H1 H2)).
    split; [reflexivity|]. intros C R. unfold ret.
    now rewrite (all_of_no_custom _ C), (parse_transports_round_trip _ R).
Qed.

(** ** Validation of multiaddrs *)

(** X23.  [ValidateMultiaddrs] returns nil exactly when every address
    parses, and then the loop of [GetTransports] keeps them all; otherwise
    the error is that of the first address that does not parse, with the
    address in its message. *)
Theorem ValidateMultiaddrs_first_failure (addrs : list string) :
  match ValidateMultiaddrs addrs with
  | None =>
      Forall (fun a => is_ok (NewMultiaddr a) = true) addrs ∧
      List.length (parse_transports addrs) = List.length addrs
  | Some e =>
      ∃ pre a post err,
        addrs = (pre ++ a :: post)%list ∧
        Forall (fun a => is_ok (NewMultiaddr a) = true) pre ∧
        NewMultiaddr a = Err err ∧
        e = "invalid multiaddr " ++ a ++ ": " ++ err
  end.
Proof.
  induction addrs as [|a addrs IH]; [now split|].
  cbn [ValidateMultiaddrs parse_transports]. unfold ParseMultiaddr.
  destruct (NewMultiaddr a) as [ma|err] eqn:E.
  - destruct (ValidateMultiaddrs addrs) as [e|].
    + destruct IH as (pre & b & post & err & -> & F & Eb & ->).
      exists (a :: pre), b, post, err. split; [reflexivity|].
      split; [|now split]. constructor; [now rewrite E | exact F].
    + destruct IH as [F L]. split.
      * constructor; [now rewrite E | exact F].
      * cbn [List.length]. now rewrite L.
  - exists [], a, addrs, err. split; [reflexivity|].
    split; [constructor|]. split; [exact E | reflexivity].
Qed.

End ConstructionProps.

Section SliceProps.
Context {T : Type} `{EqDecision T} `{Countable T}.

(** ** Slices *)

Lemma UniqueSlice_from_spec (seen : gset T) (l : list T) :
  NoDup (UniqueSlice_from seen l) ∧
  (∀ x, x ∈ UniqueSlice_from seen l ↔ x ∈ l ∧ x ∉ seen) ∧
  sublist (UniqueSlice_from seen l) l.
Proof.
  revert seen. induction l as [|v l IH]; intros seen; cbn [UniqueSlice_from].
  - split; [constructor|]. split; [|constructor].
    intros x. rewrite elem_of_nil. tauto.
  - destruct (decide (v ∈ seen)) as [In|Out].
    + destruct (IH seen) as (N & M & S). split; [exact N|]. split.
      * intros x. rewrite M, elem_of_cons. split; [tauto|].
        intros [[->|I] O]; [contradiction | tauto].
      * now apply sublist_cons.
    + destruct (IH ({[v]} ∪ seen)) as (N & M & S). split; [|split].
      * constructor; [|exact N]. rewrite M. intros [_ O]. apply O.
        apply elem_of_union. left. now apply elem_of_singleton.
      * intros x.
        rewrite !elem_of_cons, M, not_elem_of_union, not_elem_of_singleton.
        destruct (decide (x = v)) as [->|Ne]; tauto.
      * now apply sublist_skip.
Qed.

Lemma UniqueSlice_from_NoDup (seen : gset T) (l : list T) :
  NoDup l → (∀ x, x ∈ l → x ∉ seen) → UniqueSlice_from seen l = l.
Proof.
  revert seen. induction l as [|v l IH]; intros seen N D; [reflexivity|].
  cbn [UniqueSlice_from]. apply NoDup_cons in N as [Nv N].
  destruct (decide (v ∈ seen)) as [In|Out].
  - exfalso. apply (D v); [apply elem_of_cons; now left | exact In].
  - f_equal. apply IH; [exact N|].
    intros x I. rewrite not_elem_of_union, not_elem_of_singleton. split.
    + intros ->. contradiction.
    + apply D, elem_of_cons. now right.
Qed.

(** X24.  [UniqueSlice] keeps the first occurrence of every element, in
    the order of the slice: the result has no duplicates and the elements
    of the slice, it is a subsequence of the slice, a slice without
    duplicates is returned as it is, and applying it twice is applying it
    once. *)
Theorem UniqueSlice_first_occurrences (l : list T) :
  NoDup (UniqueSlice l) ∧
  (∀ x, x ∈ UniqueSlice l ↔ x ∈ l) ∧
  sublist (UniqueSlice l) l ∧
  (NoDup l → UniqueSlice l = l) ∧
  UniqueSlice (UniqueSlice l) = UniqueSlice l.
Proof.
  unfold UniqueSlice. destruct (UniqueSlice_from_spec ∅ l) as (N & M & S).
  split; [exact N|]. split; [|split; [exact S|split]].
  - intros x. rewrite M. split; [tauto|]. intros I. split; [exact I|].
    apply not_elem_of_empty.
  - intros Nl. apply UniqueSlice_from_NoDup; [exact Nl|].
    intros x _. apply not_elem_of_empty.
  - apply UniqueSlice_from_NoDup; [exact N|].
    intros x _. apply not_elem_of_empty.
Qed.

Lemma SliceContains_elem (l : list T) (x : T) :
  SliceContains l x = true ↔ x ∈ l.
Proof.
  induction l as [|v l IH]; cbn [SliceContains].
  - rewrite elem_of_nil. split; [discriminate | tauto].
  - rewrite elem_of_cons. destruct (decide (v = x)) as [->|Ne].
    + tauto.
    + rewrite IH. split; [tauto|]. intros [->|I]; [contradiction | exact I].
Qed.

(** X25.  [RemoveFromSlice] removes every occurrence of the item and
    nothing else, keeping the order: the item is no longer contained, every
    other element is contained as before, the result is a subsequence of
    the slice, and a slice without the item is returned as it is. *)
Theorem RemoveFromSlice_removes (l : list T) (x : T) :
  SliceContains (RemoveFromSlice l x) x = false ∧
  (∀ y, y ≠ x →
        SliceContains (RemoveFromSlice l x) y = SliceContains l y) ∧
  sublist (RemoveFromSlice l x) l ∧
  (SliceContains l x = false → RemoveFromSlice l x = l).
Proof.
  induction l as [|v l (IH1 & IH2 & IH3 & IH4)];
    cbn [RemoveFromSlice SliceContains].
  - repeat split. constructor.
  - destruct (decide (v ≠ x)) as [Ne|Eq].
    + cbn [SliceContains].
      destruct (decide (v = x)) as [E|_]; [contradiction|].
      split; [exact IH1|]. split; [|split].
      * intros y Ny. destruct (decide (v = y)); [reflexivity | now apply IH2].
      * now apply sublist_skip.
      * intros C. now rewrite IH4.
    + assert (v = x) as -> by (destruct (decide (v = x)); tauto).
      destruct (decide (x = x)) as [_|Nx]; [|contradiction].
      split; [exact IH1|]. split; [|split].
      * intros y Ny. destruct (decide (x = y)) as [->|_]; [contradiction|].
        now apply IH2.
      * now apply sublist_cons.
      * discriminate.
Qed.

End SliceProps.

(* ===================================================================== *)
(** * The code on small worlds                                             *)
(* ===================================================================== *)

Section Examples.
#[local] Existing Instance toy.

(** ** Addresses *)

(** C9 at [o://a/] and [/b]: where the receiver ends with a slash and the
    path begins with one, [WithPath] adds no slash and removes none, and the
    new value has two slashes at the join. *)
Theorem WithPath_double_slash :
  strings.HasSuffix "o://a/" "/" = true ∧
  strings.HasPrefix "/b" "/" = true ∧
  ∃ b w', WithPath 1%positive "/b" slash_world = Done b w' ∧
          value <$> objs (heap w') !! b = Some "o://a//b".
Proof.
  split; [reflexivity|]. split; [reflexivity|].
  eexists _, _. split; [vm_compute; reflexivity|]. vm_compute. reflexivity.
Qed.

Lemma Clone_independent_witness :
  ∃ b w1, Clone 1%positive alias_world = Done b w1 ∧
          b ≠ 1%positive ∧
          transports_of b w1
          = Done hints w1.
Proof.
  destruct (Clone_independent alias_world 1%positive
              {| value := "o://alias/extra/path"; transports := Some 1%positive |}
              hints)
    as (b & s & w1 & E & N & _ & _ & _ & _ & _ & T & _);
    [reflexivity | reflexivity |].
  exists b, w1. split; [exact E|]. split; [|exact T].
  intros ->. vm_compute in N. discriminate.
Defined.

(** ** The resolver chain *)

Lemma Resolve_first_match_witness :
  ∃ x w',
    Resolve (map external_resolver [matches_nothing; resolves_to "o://x"])
            1%positive custom_world = Done (Ok x) w' ∧
    value <$> objs (heap w') !! x = Some "o://x".
Proof.
  destruct (Resolve_first_match 1%positive) as (_ & _ & First & _).
  eexists _, _. split.
  - eapply (First [external_resolver matches_nothing]
                 (external_resolver (resolves_to "o://x")) []).
    + econstructor; [|constructor]. vm_compute. reflexivity.
    + vm_compute. reflexivity.
  - vm_compute. reflexivity.
Defined.

(** ** The transport locator *)

Lemma GetTransports_precedence_witness :
  GetTransports plain_node 1%positive alias_world
  = Done [endpoint] alias_world.
Proof.
  apply (GetTransports_precedence plain_node 1%positive
           {| value := "o://alias/extra/path"; transports := Some 1%positive |}
           hints alias_world);
    [reflexivity | reflexivity | discriminate].
Defined.

(** C6 at an address hinted by a string: the hint is not returned, and a
    node without leader that is no leader itself returns nothing. *)
Lemma GetTransports_ignores_strings :
  transports_of 1%positive custom_world = Done [TString "custom"] custom_world ∧
  ∃ w', GetTransports plain_node 1%positive custom_world = Done [] w'.
Proof.
  split; [vm_compute; reflexivity|]. eexists. vm_compute. reflexivity.
Qed.

(** ** Static translation *)

Lemma static_translation_found_witness :
  ∃ p op w',
    HandleStaticAddressTranslation
      (Use_fuel 1 (node_with (answering (Ok (found "o://canon")))))
      1%positive alias_world = Done (Ok p) w' ∧
    objs (heap w') !! p = Some op ∧
    value op = "o://canon/extra/path".
Proof.
  edestruct (static_translation_found 1
               (node_with (answering (Ok (found "o://canon")))) 1%positive
               {| value := "o://alias/extra/path"; transports := Some 1%positive |}
               hints
               (found "o://canon")
               [("data", AList [AMap [("address", AStr "o://canon")]])]
               [("address", AStr "o://canon")] [] "o://canon" alias_world)
    as (p & op & tp & w' & E & _ & O & V & _);
    [reflexivity | reflexivity | reflexivity
    | vm_compute; reflexivity | reflexivity | reflexivity | reflexivity |].
  exists p, op, w'. split; [exact E|]. split; [exact O|]. exact V.
Defined.

(** C4 at an alias hinted by a multiaddr and a string: the translated
    address has both as strings, and no multiaddr hint. *)
Lemma static_translation_stringifies :
  LibP2PTransports 1%positive alias_world
  = Done [endpoint] alias_world ∧
  ∃ p w',
    HandleStaticAddressTranslation
      (Use_fuel 1 (node_with (answering (Ok (found "o://canon")))))
      1%positive alias_world = Done (Ok p) w' ∧
    transports_of p w'
    = Done [TString (ma_String endpoint); TString "custom"] w' ∧
    LibP2PTransports p w' = Done [] w'.
Proof.
  split; [vm_compute; reflexivity|]. eexists _, _.
  split; [vm_compute; reflexivity|].
  split; vm_compute; reflexivity.
Qed.

(** C5 at a registry that answers the search with a string: the type
    assertion on the result panics, in static translation and so in [Use]. *)
Theorem static_translation_panics :
  HandleStaticAddressTranslation
    (Use_fuel 1 (node_with (answering (Ok unavailable))))
    1%positive alias_world
  = Panic "interface conversion: interface {} is not map[string]interface {}" ∧
  Use (node_with (answering (Ok unavailable))) 1%positive "status" [] None
      alias_world
  = Panic "interface conversion: interface {} is not map[string]interface {}".
Proof. split; vm_compute; reflexivity. Qed.

(** ** Dispatch *)

(** C2 at an address under [o://leader] hinted by a multiaddr and a
    string: [SetTransports] writes to the receiver, and a dispatch that
    returns a response has removed the string hint of the caller's
    address. *)
Lemma dispatch_replaces_caller_transports :
  transports_of 1%positive leader_world
  = Done hints leader_world ∧
  (∃ w', SetTransports 1%positive [] leader_world = Done tt w' ∧
         transports_of 1%positive w' = Done [] w') ∧
  (∃ resp w',
     Use (node_with (answering (Ok (found "o://canon")))) 1%positive "status"
         [] None leader_world = Done (Ok resp) w' ∧
     transports_of 1%positive w'
     = Done [TMultiaddr endpoint] w').
Proof.
  split; [vm_compute; reflexivity|]. split.
  - eexists. split; [vm_compute; reflexivity|]. vm_compute. reflexivity.
  - eexists _, _. split; [vm_compute; reflexivity|]. vm_compute. reflexivity.
Qed.

Lemma address_updates_witness :
  ∃ b w', WithPath 1%positive "x" alias_world = Done b w' ∧
          objs (heap w') !! 1%positive
          = Some {| value := "o://alias/extra/path";
                    transports := Some 1%positive |}.
Proof.
  destruct address_updates as (W & _).
  destruct (W 1%positive
              {| value := "o://alias/extra/path"; transports := Some 1%positive |}
              "x" alias_world eq_refl) as (b & w' & E & _ & _ & _ & [_ O]).
  exists b, w'. split; [exact E|].
  destruct (O 1%positive _ eq_refl) as (o' & Ho' & _ & Same).
  specialize (Same ltac:(tauto)). subst o'. exact Ho'.
Defined.

(** C1 at one call on an alias, with a registry search that fails and a
    request that is answered: the call returns the response and has
    incremented both counters. *)
Lemma one_dispatch_two_increments :
  ∃ resp w',
    Use (node_with (flaky (found "o://canon"))) 1%positive "status" [] None
        alias_world = Done (Ok resp) w' ∧
    counters (vars alias_world) = (0, 0) ∧
    counters (vars w') = (1, 1).
Proof.
  eexists _, _. split; [vm_compute; reflexivity|].
  split; vm_compute; reflexivity.
Qed.

Lemma Use_counters_witness :
  ∃ w', perform_all (node_with (flaky (found "o://canon")))
          [CallUse 1%positive "status" [] None; CallWhoAmI;
           CallUse 1%positive "status" [] None]
          alias_world = Done tt w' ∧
        successCount (vars w') + errorCount (vars w') = 4.
Proof.
  destruct (Use_counters (node_with (flaky (found "o://canon")))) as [_ All].
  assert (E : ∃ w', perform_all (node_with (flaky (found "o://canon")))
                      [CallUse 1%positive "status" [] None; CallWhoAmI;
                       CallUse 1%positive "status" [] None]
                      alias_world = Done tt w')
    by (eexists; vm_compute; reflexivity).
  destruct E as [w' E]. exists w'. split; [exact E|].
  destruct (All _ _ _ E) as (oks & _ & _ & Sum).
  destruct Sum as (S & _).
  - vm_compute. discriminate.
  - vm_compute. discriminate.
  - vm_compute. reflexivity.
  - rewrite S. vm_compute. reflexivity.
Defined.

(** ** Lifecycle *)

Lemma Start_not_stopped_witness :
  Start plain_node
    (with_vars empty_world
       {| state := NodeStateRunning; errors := []; successCount := 3;
          errorCount := 1 |})
  = Done None
      (logged
         (with_vars empty_world
            {| state := NodeStateRunning; errors := []; successCount := 3;
               errorCount := 1 |})
         [EvLog LWarn "Node is not stopped, skipping start"]).
Proof. apply Start_not_stopped. discriminate. Defined.

(** C8 at a stopped node without host and without connection manager: the
    unregistration fails, there is no host to close, and the node ends in
    [Error]. *)
Lemma Stop_error_without_close_failure :
  p2pNode plain_node = None ∧
  ∃ err w', Stop plain_node empty_world = Done (Some err) w' ∧
            state (vars w') = NodeStateError.
Proof.
  split; [reflexivity|]. eexists _, _.
  split; [vm_compute; reflexivity|]. vm_compute. reflexivity.
Qed.

Lemma answering_found_objects canon :
  answers_objects (node_with (answering (Ok (found canon)))).
Proof.
  intros cm ps h x c sp y resp [= <-] [= <-] _ [= <-]. exact I.
Qed.

Lemma Stop_outcome_witness :
  returns (Stop (node_with (answering (Ok (found "o://canon"))))) empty_world ∧
  ∃ r w', Stop plain_node empty_world = Done r w' ∧
          errors (vars w')
          = ["failed to unregister: failed to connect: connection manager not initialized"].
Proof.
  split.
  { apply (Stop_outcome (node_with (answering (Ok (found "o://canon"))))
                        empty_world).
    - intros l o H. vm_compute in H. discriminate.
    - intros l H. vm_compute in H. discriminate.
    - apply answering_found_objects. }
  assert (E : ∃ r w', Stop plain_node empty_world = Done r w')
    by (eexists _, _; vm_compute; reflexivity).
  destruct E as (r & w' & E). exists r, w'. split; [exact E|].
  destruct (Stop_outcome plain_node empty_world) as [_ Out].
  destruct (Out _ _ E) as (w2 & unreg & closed & U & C & Errs & _).
  rewrite Errs, C. vm_compute in U. injection U as <- _. reflexivity.
Defined.

End Examples.

Section MoreExamples.
#[local] Existing Instance toy.

(** ** Addresses *)

Lemma SplitAddress_round_trip_witness :
  ∃ parts,
    SplitAddress 1%positive alias_world = Done parts alias_world ∧
    "o://alias/extra/path" = "o://" ++ strings.Join parts "/".
Proof.
  destruct (SplitAddress_round_trip 1%positive
              {| value := "o://alias/extra/path"; transports := Some 1%positive |}
              alias_world) as (parts & S & _ & V); [reflexivity|].
  exists parts. split; [exact S | apply V; reflexivity].
Defined.

Lemma ChildAddress_segments_witness :
  ∃ l w',
    ChildAddress 1%positive 2%positive family_world = Done l w' ∧
    SplitAddress l w' = Done ["parent"; "room"; "child"; "desk"] w' ∧
    transports_of l w' = Done [] w'.
Proof.
  destruct (ChildAddress_segments 1%positive 2%positive
              {| value := "o://parent/room"; transports := None |}
              {| value := "o://child/desk"; transports := Some 1%positive |}
              family_world) as (l & w' & E & _ & S & T);
    [reflexivity | reflexivity |].
  exists l, w'. split; [exact E|]. split; [exact S | exact T].
Defined.

Lemma WithPath_segments_witness :
  ∃ b w',
    WithPath 1%positive "more" alias_world = Done b w' ∧
    SplitAddress b w' = Done ["alias"; "extra"; "path"; "more"] w'.
Proof.
  destruct (WithPath_segments 1%positive
              {| value := "o://alias/extra/path"; transports := Some 1%positive |}
              "more" alias_world) as (b & w' & E & S & _);
    [reflexivity | reflexivity |].
  exists b, w'. split; [exact E|].
  apply S; [vm_compute; discriminate | reflexivity | reflexivity].
Defined.

Lemma GetMethod_WithPath_witness :
  ∃ b w', WithPath 1%positive "run" slash_world = Done b w' ∧
          GetMethod b w' = Done "run" w'.
Proof.
  apply (GetMethod_WithPath 1%positive
           {| value := "o://a/"; transports := None |} "run" slash_world);
    reflexivity.
Defined.

Lemma tool_address_name_witness :
  is_tool_value "o://fs/tools/read" = true ∧
  tool_name_value (with_path_value (with_path_value "o://fs" "tools") "read")
  = "read".
Proof.
  split; [reflexivity|].
  pose proof (tool_address_name "fs" "tools" "read") as P. cbv zeta in P.
  destruct P as (_ & _ & N & _);
    [reflexivity | discriminate | right; reflexivity | reflexivity | exact N].
Defined.

Lemma setters_and_views_witness :
  ∃ w', SetTransports 1%positive [endpoint] alias_world = Done tt w' ∧
        LibP2PTransports 1%positive w' = Done [endpoint] w' ∧
        CustomTransports 1%positive w' = Done [] w'.
Proof.
  destruct (setters_and_views 1%positive
              {| value := "o://alias/extra/path"; transports := Some 1%positive |}
              alias_world) as [P _]; [reflexivity|].
  destruct (P [endpoint]) as (w' & E & L & C & _).
  exists w'. split; [exact E|]. split; [exact L | exact C].
Defined.

Lemma views_partition_witness :
  ∃ l c all,
    LibP2PTransports 1%positive alias_world = Done l alias_world ∧
    CustomTransports 1%positive alias_world = Done c alias_world ∧
    AllTransports 1%positive alias_world = Done all alias_world ∧
    List.length all = (List.length l + List.length c)%nat.
Proof.
  destruct (views_partition 1%positive
              {| value := "o://alias/extra/path"; transports := Some 1%positive |}
              hints alias_world) as (l & c & all & L & C & A & N & _);
    [reflexivity | reflexivity |].
  exists l, c, all. split; [exact L|]. split; [exact C|]. split; [exact A | exact N].
Defined.

Lemma FromMultiaddr_Protocol_witness :
  ∃ b w', FromMultiaddr protocol_form alias_world = Done b w' ∧
          String_ b w' = Done "o://alias/extra/path" w' ∧
          Equals 1%positive b w' = Done true w'.
Proof.
  destruct (FromMultiaddr_Protocol 1%positive
              {| value := "o://alias/extra/path"; transports := Some 1%positive |}
              protocol_form alias_world) as (b & w' & E & _ & S & Q & _);
    [reflexivity | reflexivity | reflexivity |].
  exists b, w'. split; [exact E|]. split; [exact S | exact Q].
Defined.

(** ** Dispatch *)

Lemma TranslateAddress_next_hop_witness :
  ∃ tr lts w',
    TranslateAddress (Use_fuel 1 plain_node) plain_node 1%positive leader_world
    = Done (Ok tr) w' ∧
    transports_of 1%positive leader_world = Done hints leader_world ∧
    LibP2PTransports (NextHopAddress tr) w' = Done lts w' ∧
    CustomTransports (NextHopAddress tr) w' = Done [] w'.
Proof.
  assert (E : ∃ tr w',
    TranslateAddress (Use_fuel 1 plain_node) plain_node 1%positive leader_world
    = Done (Ok tr) w') by (eexists _, _; vm_compute; reflexivity).
  destruct E as (tr & w' & E).
  destruct (TranslateAddress_next_hop _ _ _ _ _ _ E)
    as (oa & tr' & lts & _ & [= <-] & _ & L & C & _).
  exists tr, lts, w'. split; [exact E|]. split; [reflexivity|].
  split; [exact L | exact C].
Defined.

Lemma Use_errors_witness :
  ∃ e w',
    Use (node_with (answering (Err "timeout"))) 1%positive "ping" [] None
        leader_world = Done (Err e) w' ∧
    e = "failed to send request: timeout".
Proof.
  assert (E : ∃ w',
    Use (node_with (answering (Err "timeout"))) 1%positive "ping" [] None
        leader_world = Done (Err "failed to send request: timeout") w')
    by (eexists; vm_compute; reflexivity).
  destruct E as (w' & E). exists "failed to send request: timeout", w'.
  split; [exact E|].
  destruct (Use_errors _ _ _ _ _ _ _ _ E) as [[N _]|_]; [discriminate N|].
  reflexivity.
Defined.

Lemma Use_closes_connection_witness :
  ∃ resp w' evs sp,
    Use (node_with (answering (Ok (found "o://x")))) 1%positive "ping" [] None
        leader_world = Done (Ok resp) w' ∧
    events w' = (evs ++ [EvSend sp; EvConnClose])%list ∧
    sp_Payload sp = [("method", AStr "ping"); ("params", AMap [])].
Proof.
  assert (E : ∃ resp w',
    Use (node_with (answering (Ok (found "o://x")))) 1%positive "ping" [] None
        leader_world = Done (Ok resp) w')
    by (eexists _, _; vm_compute; reflexivity).
  destruct E as (resp & w' & E).
  destruct (Use_closes_connection _ _ _ _ _ _ _ _ E) as (evs & t & Ev);
    [left; reflexivity|].
  eexists resp, w', evs, _. split; [exact E|]. split; [exact Ev | reflexivity].
Defined.

Lemma Use_without_manager_witness :
  ∃ w',
    Use plain_node 1%positive "ping" [] None leader_world
    = Done (Err no_manager) w' ∧
    successCount (vars w') = 0 ∧ errorCount (vars w') = 1.
Proof.
  destruct (Use_without_manager plain_node 1%positive "ping" [] None
              leader_world) as [P _]; [reflexivity|].
  assert (E : ∃ r w',
    Use plain_node 1%positive "ping" [] None leader_world = Done r w')
    by (eexists _, _; vm_compute; reflexivity).
  destruct E as (r & w' & E).
  destruct (P r w' E) as (oa & Ha & -> & V & S).
  exists w'. split; [exact E|]. split; [rewrite S; reflexivity|].
  injection Ha as <-. rewrite V. reflexivity.
Defined.

(** ** The lifecycle *)


Lemma Start_standalone_witness :
  ∃ msgs,
    Start plain_node empty_world
    = Done None
        {| heap := heap empty_world;
           vars := {| state := NodeStateRunning; errors := [];
                      successCount := 0; errorCount := 0 |};
           ext := 0%nat;
           events := map (fun lm => EvLog (fst lm) (snd lm)) msgs |}.
Proof.
  apply (Start_standalone plain_node empty_world); [reflexivity|].
  right. reflexivity.
Defined.

Lemma Stop_without_manager_witness :
  ∃ r w', Stop plain_node empty_world = Done (Some r) w' ∧
          state (vars w') = NodeStateError ∧
          errors (vars w') = ["failed to unregister: " ++ no_manager].
Proof.
  assert (E : ∃ r w', Stop plain_node empty_world = Done r w')
    by (eexists _, _; vm_compute; reflexivity).
  destruct E as (r & w' & E).
  destruct (Stop_without_manager plain_node r empty_world w') as
    (closed & -> & S & Er & C & _); [reflexivity | reflexivity | exact E |].
  rewrite (C eq_refl) in Er.
  eexists _, w'. split; [exact E|]. split; [exact S | exact Er].
Defined.

Lemma Stop_then_Start_witness :
  ∃ r w1 w2,
    Stop plain_node empty_world = Done (Some r) w1 ∧
    Start plain_node w1 = Done None w2 ∧
    state (vars w2) = NodeStateError.
Proof.
  assert (E : ∃ r w1 r' w2,
    Stop plain_node empty_world = Done (Some r) w1 ∧
    Start plain_node w1 = Done r' w2)
    by (eexists _, _, _, _; split; vm_compute; reflexivity).
  destruct E as (r & w1 & r' & w2 & E1 & E2).
  destruct (Stop_then_Start _ _ _ _ _ _ E1 E2) as (-> & _ & S).
  exists r, w1, w2. split; [exact E1|]. split; [exact E2 | exact S].
Defined.

Lemma error_log_append_only_witness :
  ∃ w',
    perform_all plain_node
      [CallStart; CallUse 1%positive "ping" [] None; CallErrors] leader_world
    = Done tt w' ∧
    errors (vars w') = [].
Proof.
  assert (E : ∃ w',
    perform_all plain_node
      [CallStart; CallUse 1%positive "ping" [] None; CallErrors] leader_world
    = Done tt w') by (eexists; vm_compute; reflexivity).
  destruct E as (w' & E).
  destruct (error_log_append_only _ _ _ _ E) as (more & Em & F).
  exists w'. split; [exact E|]. rewrite Em, F; [reflexivity|].
  repeat constructor; discriminate.
Defined.

(** ** Construction and parent *)

Lemma NewCoreNode_fresh_witness :
  ∃ n w',
    NewCoreNode (Some plain_config) alias_world = Done n w' ∧
    address n = 1%positive ∧
    transports_of (staticAddress n) w' = Done hints w' ∧
    ∃ w2, SetTransports (address n) [] w' = Done tt w2 ∧
          transports_of (address n) w2 = Done [] w2 ∧
          transports_of (staticAddress n) w2 = Done hints w2.
Proof.
  destruct (NewCoreNode_fresh plain_config
              {| value := "o://alias/extra/path"; transports := Some 1%positive |}
              hints alias_world)
    as (n & w' & E & A & _ & _ & _ & T & _ & _ & _ & _ & I);
    [reflexivity | reflexivity |].
  exists n, w'. split; [exact E|]. split; [exact A|]. split; [exact T|].
  exact (I []).
Defined.

Lemma default_node_lifecycle_witness :
  ∃ n w1 w2,
    NewCoreNode None empty_world = Done n w1 ∧
    String_ (address n) w1 = Done "o://node" w1 ∧
    Type_ n = NodeTypeUnknown ∧
    Start n w1 = Done None w2 ∧
    state (vars w2) = NodeStateRunning ∧
    heap w2 = heap w1 ∧ ext w2 = 0%nat ∧
    (∀ r w3, Stop n w2 = Done r w3 →
             is_Some r ∧ state (vars w3) = NodeStateError).
Proof. exact (default_node_lifecycle empty_world). Defined.

Lemma ParentTransports_hints_witness :
  ParentTransports child_node endpoint_world = Done [endpoint] endpoint_world.
Proof.
  destruct (ParentTransports_hints child_node endpoint_world) as [_ P].
  destruct (P 1%positive
              {| value := "o://parent"; transports := Some 1%positive |}
              [TMultiaddr endpoint]) as [_ Q];
    [reflexivity | reflexivity | reflexivity |].
  apply Q; [reflexivity|].
  intros ma I. apply elem_of_cons in I as [->|I]; [reflexivity|].
  now apply elem_of_nil in I.
Defined.

(** ** Slices *)

Lemma UniqueSlice_first_occurrences_witness :
  UniqueSlice ["a"; "b"] = ["a"; "b"] ∧
  UniqueSlice (UniqueSlice ["a"; "b"; "a"]) = UniqueSlice ["a"; "b"; "a"].
Proof.
  destruct (UniqueSlice_first_occurrences ["a"; "b"]) as (_ & _ & _ & N & _).
  destruct (UniqueSlice_first_occurrences ["a"; "b"; "a"]) as (_ & _ & _ & _ & I).
  split; [|exact I]. apply N.
  apply (bool_decide_unpack _). vm_compute. reflexivity.
Defined.

Lemma RemoveFromSlice_removes_witness :
  SliceContains (RemoveFromSlice ["a"; "b"; "a"] "a") "b" = true ∧
  RemoveFromSlice ["b"; "c"] "a" = ["b"; "c"].
Proof.
  destruct (RemoveFromSlice_removes ["a"; "b"; "a"] "a") as (_ & K & _).
  destruct (RemoveFromSlice_removes ["b"; "c"] "a") as (_ & _ & _ & S).
  split; [rewrite K; [reflexivity | discriminate] | apply S; reflexivity].
Defined.

End MoreExamples.
